(** * CleanSheet / ClearLine: the rewrite engine (src/lib/rewriteEngine.ts)

    A shallow embedding of the [RewriteEngine] class and of the part of
    ECMAScript it runs on (strings, the regular expressions the class
    writes down, [String.prototype.replace], [split], [match], [trim]).

    Strings are lists of code units.  The embedding covers texts whose code
    units are below 256 ([ascii]); on that range the whitespace class, the
    word class and the case mappings below are the ECMAScript ones, and
    every call of [toUpperCase] in the engine is on ASCII letters only. *)

From Stdlib Require Import List Ascii String Bool Arith NArith Lia.
From Stdlib Require Import PrimFloat Uint63 ZArith.
Import ListNotations.

Set Implicit Arguments.

Abbreviation length := Datatypes.length.
Abbreviation concat := List.concat.

(** ** Strings and characters *)

Definition str := list ascii.

Definition L (s : string) : str := list_ascii_of_string s.

Definition code (c : ascii) : N := N_of_ascii c.

Definition between (lo hi : N) (c : ascii) : bool :=
  (N.leb lo (code c) && N.leb (code c) hi)%bool.

Definition is_upper (c : ascii) : bool := between 65 90 c.
Definition is_lower (c : ascii) : bool := between 97 122 c.
Definition is_alpha (c : ascii) : bool := is_upper c || is_lower c.
Definition is_digit (c : ascii) : bool := between 48 57 c.

(** [\w] *)
Definition is_word (c : ascii) : bool :=
  is_alpha c || is_digit c || N.eqb (code c) 95.

(** [\s]: TAB, LF, VT, FF, CR, SP and NBSP are the white space and line
    terminator code units below 256. *)
Definition is_space (c : ascii) : bool :=
  between 9 13 c || N.eqb (code c) 32 || N.eqb (code c) 160.

(** [.] excludes the line terminators. *)
Definition is_dot (c : ascii) : bool :=
  negb (N.eqb (code c) 10 || N.eqb (code c) 13).

(** Latin-1 letters with a lower-case partner in the same range. *)
Definition is_upper_l1 (c : ascii) : bool :=
  is_upper c || (between 192 222 c && negb (N.eqb (code c) 215)).

Definition lower_char (c : ascii) : ascii :=
  if is_upper_l1 c then ascii_of_N (code c + 32) else c.

(** [toUpperCase] on the ASCII letters; the engine applies it only to
    text matched by [[A-Za-z]] or to dictionary words. *)
Definition upper_char (c : ascii) : ascii :=
  if is_lower c then ascii_of_N (code c - 32) else c.

Definition toLowerCase (s : str) : str := map lower_char s.
Definition toUpperCase (s : str) : str := map upper_char s.

Definition str_eqb (a b : str) : bool :=
  if list_eq_dec ascii_dec a b then true else false.

Fixpoint starts_with (p s : str) : bool :=
  match p, s with
  | [], _ => true
  | a :: p', b :: s' => Ascii.eqb a b && starts_with p' s'
  | _ :: _, [] => false
  end.

(** [String.prototype.includes] *)
Fixpoint includes (s needle : str) : bool :=
  starts_with needle s ||
  match s with
  | [] => false
  | _ :: s' => includes s' needle
  end.

Fixpoint trimStart (s : str) : str :=
  match s with
  | c :: s' => if is_space c then trimStart s' else s
  | [] => []
  end.

Definition trimEnd (s : str) : str := rev (trimStart (rev s)).

Definition trim (s : str) : str := trimEnd (trimStart s).

Fixpoint join (sep : str) (l : list str) : str :=
  match l with
  | [] => []
  | [a] => a
  | a :: l' => a ++ sep ++ join sep l'
  end.

(** JavaScript truthiness of a string. *)
Definition truthy (s : str) : bool :=
  match s with [] => false | _ => true end.

(** ** Regular expressions

    The fragment of ECMAScript patterns that occurs in the engine:
    character classes, sequence, ordered alternation, quantified
    character classes (greedy or lazy, with a lower bound), capture
    groups, and the assertions [^], [$] (no [m] flag) and [\b]. *)

Definition cls := ascii -> bool.

Inductive regex : Type :=
| Eps
| Chr (c : cls)
| Seq (a b : regex)
| Alt (a b : regex)
| Rep (greedy : bool) (lo : nat) (c : cls)
| Grp (n : nat) (r : regex)
| Bol
| Eol
| Wb.

(** The matcher state: the code unit before the position, the text from
    the position on, and the captures recorded so far (latest first). *)
Record mst : Type := MSt {
  prev : option ascii;
  rest : str;
  caps : list (nat * str)
}.

Definition word_before (p : option ascii) : bool :=
  match p with Some c => is_word c | None => false end.

Definition word_after (s : str) : bool :=
  match s with c :: _ => is_word c | [] => false end.

Section Matcher.
Variable A : Type.

(** [c*] and [c*?] followed by the continuation [k]. *)
Fixpoint star (c : cls) (greedy : bool) (p : option ascii) (s : str)
         (k : option ascii -> str -> option A) : option A :=
  if greedy then
    match s with
    | x :: s' =>
        if c x then
          match star c greedy (Some x) s' k with
          | Some r => Some r
          | None => k p s
          end
        else k p s
    | [] => k p s
    end
  else
    match k p s with
    | Some r => Some r
    | None =>
        match s with
        | x :: s' => if c x then star c greedy (Some x) s' k else None
        | [] => None
        end
    end.

(** [c{lo,}] and [c{lo,}?]. *)
Fixpoint rep (c : cls) (greedy : bool) (lo : nat) (p : option ascii)
         (s : str) (k : option ascii -> str -> option A) : option A :=
  match lo with
  | O => star c greedy p s k
  | S lo' =>
      match s with
      | x :: s' => if c x then rep c greedy lo' (Some x) s' k else None
      | [] => None
      end
  end.

(** Backtracking matcher in continuation-passing style: alternatives
    are tried left to right, and the first success of the whole
    continuation wins. *)
Fixpoint mt (r : regex) (st : mst) (k : mst -> option A) : option A :=
  match r with
  | Eps => k st
  | Chr c =>
      match rest st with
      | x :: s' => if c x then k (MSt (Some x) s' (caps st)) else None
      | [] => None
      end
  | Seq a b => mt a st (fun st' => mt b st' k)
  | Alt a b =>
      match mt a st k with
      | Some res => Some res
      | None => mt b st k
      end
  | Rep g lo c =>
      rep c g lo (prev st) (rest st) (fun p s => k (MSt p s (caps st)))
  | Grp n r' =>
      mt r' st (fun st' =>
        k (MSt (prev st') (rest st')
               ((n, firstn (length (rest st) - length (rest st')) (rest st))
                  :: caps st')))
  | Bol => match prev st with None => k st | Some _ => None end
  | Eol => match rest st with [] => k st | _ :: _ => None end
  | Wb => if xorb (word_before (prev st)) (word_after (rest st))
          then k st else None
  end.
End Matcher.

(** A match: the matched text [m[0]] and the captures. *)
Record mres : Type := MRes {
  m_text : str;
  m_caps : list (nat * str)
}.

Fixpoint lookup (n : nat) (l : list (nat * str)) : option str :=
  match l with
  | [] => None
  | (i, v) :: l' => if Nat.eqb i n then Some v else lookup n l'
  end.

(** [m[n]], with [undefined] as [None]. *)
Definition group (m : mres) (n : nat) : option str := lookup n (m_caps m).

(** [m[n] ?? ""]; a group that took part in the match is never undefined. *)
Definition group_or_empty (m : mres) (n : nat) : str :=
  match group m n with Some v => v | None => [] end.

(** One attempt at the position whose left neighbour is [p]. *)
Definition match_at (r : regex) (p : option ascii) (s : str) : option mres :=
  mt r (MSt p s [])
     (fun st' => Some (MRes (firstn (length s - length (rest st')) s) (caps st'))).

(** [RegExp.prototype.exec] without the [g] flag: the leftmost position
    with a match.  The result is the text before, the match, the text after. *)
Fixpoint search (r : regex) (p : option ascii) (s : str)
  : option (str * mres * str) :=
  match match_at r p s with
  | Some m => Some ([], m, skipn (length (m_text m)) s)
  | None =>
      match s with
      | [] => None
      | x :: s' =>
          match search r (Some x) s' with
          | Some (pre, m, post) => Some (x :: pre, m, post)
          | None => None
          end
      end
  end.

Definition exec (r : regex) (s : str) : option (str * mres * str) :=
  search r None s.

Definition test (r : regex) (s : str) : bool :=
  match exec r s with Some _ => true | None => false end.

Definition cons_text (x : ascii) (res : list (str * mres) * str)
  : list (str * mres) * str :=
  match res with
  | ([], tl) => ([], x :: tl)
  | ((t, m) :: ms, tl) => ((x :: t, m) :: ms, tl)
  end.

(** The successive matches of a [g] regex ([lastIndex] loop of
    [matchAll], [replace] and [split]): each match with the text between
    it and the previous one, and the text after the last match.  [skip]
    counts the code units of the current match still to be passed over;
    after an empty match the loop advances by one code unit. *)
Fixpoint scan (r : regex) (skip : nat) (p : option ascii) (s : str)
  : list (str * mres) * str :=
  match s with
  | [] =>
      match skip with
      | O => match match_at r p [] with
             | Some m => ([([], m)], [])
             | None => ([], [])
             end
      | S _ => ([], [])
      end
  | x :: s' =>
      match skip with
      | S n => scan r n (Some x) s'
      | O =>
          match match_at r p s with
          | None => cons_text x (scan r 0 (Some x) s')
          | Some m =>
              match length (m_text m) with
              | O => let '(ms, tl) := cons_text x (scan r 0 (Some x) s') in
                     (([], m) :: ms, tl)
              | S n => let '(ms, tl) := scan r n (Some x) s' in
                       (([], m) :: ms, tl)
              end
          end
      end
  end.

Definition matches (r : regex) (s : str) : list (str * mres) * str :=
  scan r 0 None s.

(** [s.replace(re, f)] with the [g] flag. *)
Definition replaceAll (r : regex) (f : mres -> str) (s : str) : str :=
  let '(ms, tl) := matches r s in
  concat (map (fun tm => fst tm ++ f (snd tm)) ms) ++ tl.

(** [s.replace(re, f)] without the [g] flag. *)
Definition replaceFirst (r : regex) (f : mres -> str) (s : str) : str :=
  match exec r s with
  | Some (pre, m, post) => pre ++ f m ++ post
  | None => s
  end.

(** [s.match(re)] with the [g] flag: the matched texts, [null] as [None]. *)
Definition matchG (r : regex) (s : str) : option (list str) :=
  match fst (matches r s) with
  | [] => None
  | ms => Some (map (fun tm => m_text (snd tm)) ms)
  end.

(** [s.split(re)] for a pattern without capture groups that does not match
    the empty string. *)
Definition split (r : regex) (s : str) : list str :=
  let '(ms, tl) := matches r s in map fst ms ++ [tl].

(** Pattern builders. *)
Definition chr (a : ascii) : regex := Chr (Ascii.eqb a).

(** A literal character under the [i] flag. *)
Definition chri (a : ascii) : regex :=
  Chr (fun x => Ascii.eqb (lower_char x) (lower_char a)).

Fixpoint seqs (l : list regex) : regex :=
  match l with
  | [] => Eps
  | [r] => r
  | r :: l' => Seq r (seqs l')
  end.

Fixpoint alts (l : list regex) : regex :=
  match l with
  | [] => Eps
  | [r] => r
  | r :: l' => Alt r (alts l')
  end.

(** [new RegExp(escapeRegex(w))]: every code unit of [w] stands for itself. *)
Definition lit (w : str) : regex := seqs (map chr w).
Definition liti (w : str) : regex := seqs (map chri w).

Definition one_of (w : str) : cls := fun x => existsb (Ascii.eqb x) w.
Definition none_of (w : str) : cls := fun x => negb (one_of w x).
Definition plus (c : cls) : regex := Rep true 1 c.
Definition opt (r : regex) : regex := Alt r Eps.

(** ** The data model (src/lib/types.ts) *)

Module Types.

Inductive DocumentType : Type :=
| AuditFinding | ExecutiveSummary | StatusUpdate | EmailSenior
| RiskDescription.

Inductive EnglishVariant : Type := EnUS | EnGB.

Record RewriteOptions : Type := {
  activeVoice : bool;
  clearOwnership : bool;
  sharperImpact : bool;
  calmTone : bool;
  concise : bool;
  auditSafeMode : bool;
  owner : option str;
  documentType : DocumentType;
  englishVariant : EnglishVariant;
  standardiseSpelling : bool
}.

Record Change : Type := {
  type : str;
  description : str
}.

Record RewriteResult : Type := {
  rewrittenText : str;
  changeLog : list Change;
  suggestions : list str
}.

Record StyleExample : Type := {
  id : str;
  title : str;
  text : str;
  tags : list str;
  isActive : bool
}.

End Types.

(** ** The two arrays [rewrite] shares with [rewriteBlock]

    [changeLog] and [suggestions] are created by [rewrite] and pushed to
    by every sentence of every block; they are threaded as a state. *)

Record Journal : Type := {
  j_changeLog : list Types.Change;
  j_suggestions : list str
}.

Definition M (A : Type) : Type := Journal -> A * Journal.

Definition ret {A} (a : A) : M A := fun j => (a, j).

Definition bind {A B} (m : M A) (f : A -> M B) : M B :=
  fun j => let '(a, j') := m j in f a j'.

Notation "x <- m ;; f" := (bind m (fun x => f))
  (at level 61, m at next level, right associativity).
Notation "m ;;; f" := (bind m (fun _ => f))
  (at level 61, right associativity).

Definition pushChange (ty : str) (d : str) : M unit :=
  fun j => (tt, {| j_changeLog := j_changeLog j ++ [Types.Build_Change ty d];
                   j_suggestions := j_suggestions j |}).

Definition pushSuggestion (s : str) : M unit :=
  fun j => (tt, {| j_changeLog := j_changeLog j;
                   j_suggestions := j_suggestions j ++ [s] |}).

Fixpoint forEach {A} (f : A -> M unit) (l : list A) : M unit :=
  match l with
  | [] => ret tt
  | a :: l' => f a ;;; forEach f l'
  end.

Fixpoint mapM {A B} (f : A -> M B) (l : list A) : M (list B) :=
  match l with
  | [] => ret []
  | a :: l' => b <- f a ;; bs <- mapM f l' ;; ret (b :: bs)
  end.

Definition when (b : bool) (m : M unit) : M unit := if b then m else ret tt.

(** ** The engine (src/lib/rewriteEngine.ts, class [RewriteEngine]) *)

Module RewriteEngine.
Import Types.

Definition TAB : ascii := ascii_of_N 9.
Definition LF : ascii := ascii_of_N 10.
Definition CR : ascii := ascii_of_N 13.
Definition SP : ascii := ascii_of_N 32.
Definition DQ : ascii := ascii_of_N 34.
Definition BACKSLASH : ascii := ascii_of_N 92.
Definition BACKTICK : ascii := ascii_of_N 96.

(** The separator written in the spelling descriptions.  Two of its code
    units lie beyond 255; the three units below stand for the literal,
    which the engine only stores and compares. *)
Definition arrow : str := [ascii_of_N 226; ascii_of_N 134; ascii_of_N 146].

Definition quoted (s : str) : str := DQ :: s ++ [DQ].

(** An object literal used as a table: its entries in insertion order. *)
Definition table := list (str * str).

Definition vocabularyMap : table :=
  [ (L "lack of clarity", L "unclear");
    (L "not consistently", L "inconsistently");
    (L "at this stage", L "based on current information");
    (L "in order to", L "to");
    (L "due to the fact that", L "because");
    (L "for the purpose of", L "to");
    (L "with regards to", L "regarding");
    (L "at the present time", L "currently") ].

Definition fillerOpeners : list str :=
  [ L "We note that";
    L "For awareness";
    L "It should be noted";
    L "It is important to note";
    L "Please be advised";
    L "For your information" ].

Definition ukToUs : table :=
  [ (L "unauthorised", L "unauthorized");
    (L "authorised", L "authorized");
    (L "authorisation", L "authorization");
    (L "authorisations", L "authorizations");
    (L "organisation", L "organization");
    (L "organisations", L "organizations");
    (L "organise", L "organize");
    (L "organised", L "organized");
    (L "organising", L "organizing");
    (L "prioritise", L "prioritize");
    (L "prioritised", L "prioritized");
    (L "prioritising", L "prioritizing");
    (L "standardise", L "standardize");
    (L "standardised", L "standardized");
    (L "standardising", L "standardizing");
    (L "emphasise", L "emphasize");
    (L "emphasised", L "emphasized");
    (L "emphasising", L "emphasizing");
    (L "analyse", L "analyze");
    (L "analysed", L "analyzed");
    (L "analysing", L "analyzing");
    (L "behaviour", L "behavior");
    (L "behaviours", L "behaviors");
    (L "labour", L "labor");
    (L "defence", L "defense");
    (L "catalogue", L "catalog");
    (L "catalogues", L "catalogs");
    (L "modelling", L "modeling");
    (L "modelled", L "modeled");
    (L "programme", L "program");
    (L "programmes", L "programs") ].

(** [Object.fromEntries]: a later entry with a key already present
    overwrites the value in place. *)
Fixpoint setEntry (k v : str) (t : table) : table :=
  match t with
  | [] => [(k, v)]
  | (k', v') :: t' =>
      if str_eqb k' k then (k', v) :: t' else (k', v') :: setEntry k v t'
  end.

Definition fromEntries (es : table) : table :=
  fold_left (fun t e => setEntry (fst e) (snd e) t) es [].

Definition usToUk : table :=
  fromEntries (map (fun e => (snd e, fst e)) ukToUs).

(** *** Segmentation *)

(** [/\r\n/g] and [/\n{2,}/] *)
Definition re_crlf : regex := Seq (chr CR) (chr LF).
Definition re_blank_lines : regex := Rep true 2 (Ascii.eqb LF).

Definition splitParagraphs (text : str) : list str :=
  split re_blank_lines (replaceAll re_crlf (fun _ => [LF]) text).

Definition terminators : str := L ".!?".

(** [/[^.!?]+(?:[.!?]+|$)/g] *)
Definition re_sentence : regex :=
  Seq (plus (none_of terminators)) (Alt (plus (one_of terminators)) Eol).

Definition splitSentences (text : str) : list str :=
  let ms := match matchG re_sentence text with
            | Some l => l
            | None => [text]
            end in
  filter truthy (map trim ms).

Definition punct : str := L ",.;:!?".

(** [/[ \t]+/g], [/\s+([,.;:!?])/g], [/([,.;:!?])([A-Za-z])/g], [/\s+/g] *)
Definition re_blanks : regex := plus (one_of [SP; TAB]).
Definition re_space_punct : regex :=
  Seq (plus is_space) (Grp 1 (Chr (one_of punct))).
Definition re_punct_letter : regex :=
  Seq (Grp 1 (Chr (one_of punct))) (Grp 2 (Chr is_alpha)).
Definition re_spaces : regex := plus is_space.

Definition normaliseSpacing (text : str) : str :=
  let t1 := replaceAll re_blanks (fun _ => [SP]) text in
  let t2 := replaceAll re_space_punct (fun m => group_or_empty m 1) t1 in
  let t3 := replaceAll re_punct_letter
              (fun m => group_or_empty m 1 ++ [SP] ++ group_or_empty m 2) t2 in
  let t4 := replaceAll re_spaces (fun _ => [SP]) t3 in
  trim t4.

(** *** Filler openers and vocabulary *)

Record Stripped : Type := {
  s_changed : bool;
  s_value : str;
  s_removed : option str
}.

(** [new RegExp(`^${escapeRegex(filler)}\\s+`, "i")] *)
Definition re_filler (filler : str) : regex :=
  Seq Bol (Seq (liti filler) (plus is_space)).

Fixpoint stripFillerFrom (fillers : list str) (sentence : str) : Stripped :=
  match fillers with
  | [] => {| s_changed := false; s_value := sentence; s_removed := None |}
  | filler :: fs =>
      if test (re_filler filler) sentence
      then {| s_changed := true;
              s_value := replaceFirst (re_filler filler) (fun _ => []) sentence;
              s_removed := Some filler |}
      else stripFillerFrom fs sentence
  end.

Definition stripFillerOpener (sentence : str) : Stripped :=
  stripFillerFrom fillerOpeners sentence.

Record Replaced : Type := {
  changed : bool;
  value : str;
  changes : list str
}.

Definition vocabStep (acc : str * list str) (e : str * str)
  : str * list str :=
  let '(out, chs) := acc in
  let '(from, to) := e in
  if test (liti from) out
  then (replaceAll (liti from) (fun _ => to) out,
        chs ++ [L "Replaced " ++ quoted from ++ L " with " ++ quoted to])
  else (out, chs).

Definition replaceVocabulary (sentence : str) : Replaced :=
  let '(out, chs) := fold_left vocabStep vocabularyMap (sentence, []) in
  {| changed := negb (str_eqb out sentence); value := out; changes := chs |}.

(** *** Protected spans *)

Inductive ProtectedChunk : Type :=
| TextChunk (value : str)
| ProtectedSpan (value : str).

Definition non_space : cls := fun c => negb (is_space c).

(** The six alternatives of the pattern of [protectTokens], in order. *)
Definition re_http : regex :=
  seqs [Wb; lit (L "http"); opt (chr "s"); lit (L "://"); plus non_space; Wb].
Definition re_www : regex :=
  seqs [Wb; lit (L "www."); plus non_space; Wb].
Definition re_email : regex :=
  seqs [Wb; plus (fun c => is_word c || one_of (L ".+-") c); chr "@";
        plus (fun c => is_word c || one_of (L "-") c); chr ".";
        plus (fun c => is_word c || one_of (L ".-") c); Wb].
Definition re_code : regex :=
  seqs [chr BACKTICK; Rep true 0 (fun c => negb (Ascii.eqb c BACKTICK));
        chr BACKTICK].
Definition re_drive : regex :=
  seqs [Wb; Chr is_alpha; chr ":"; chr BACKSLASH; plus non_space; Wb].
Definition re_posix : regex :=
  seqs [Wb; chr "/"; plus non_space; Wb].

Definition re_protected : regex :=
  alts [Grp 1 re_http; Grp 2 re_www; Grp 3 re_email; Grp 4 re_code;
        Grp 5 re_drive; Grp 6 re_posix].

Definition textChunk (t : str) : list ProtectedChunk :=
  if truthy t then [TextChunk t] else [].

Definition protectTokens (input : str) : list ProtectedChunk :=
  let '(ms, tl) := matches re_protected input in
  flat_map (fun tm => textChunk (fst tm) ++ [ProtectedSpan (m_text (snd tm))]) ms
    ++ textChunk tl.

(** *** Spelling *)

Definition matchCase (from to : str) : str :=
  if str_eqb (toUpperCase from) from then toUpperCase to
  else
    match from, to with
    | f0 :: _, t0 :: to' =>
        if Ascii.eqb (upper_char f0) f0 then upper_char t0 :: to' else to
    | _, _ => to
    end.

(** [new RegExp(`\\b${escapeRegex(from)}\\b`, "gi")] *)
Definition re_word_i (w : str) : regex := Seq Wb (Seq (liti w) Wb).

(** The closure variables [changed] and [changes] of [standardiseSpelling]. *)
Definition spellStep (acc : str * (bool * list str)) (e : str * str)
  : str * (bool * list str) :=
  let '(out, (chg, chs)) := acc in
  let '(from, to) := e in
  if test (re_word_i from) out
  then (replaceAll (re_word_i from) (fun m => matchCase (m_text m) to) out,
        (true,
         chs ++ [L "Standardised spelling: " ++ quoted from ++ [SP] ++ arrow
                   ++ [SP] ++ quoted to]))
  else acc.

Definition spellChunk (map : table) (acc : list str * (bool * list str))
           (c : ProtectedChunk) : list str * (bool * list str) :=
  let '(done, st) := acc in
  match c with
  | ProtectedSpan v => (done ++ [v], st)
  | TextChunk v =>
      let '(out, st') := fold_left spellStep map (v, st) in
      (done ++ [out], st')
  end.

Fixpoint dedupeFrom (seen : list str) (items : list str) : list str :=
  match items with
  | [] => []
  | s :: items' =>
      let k := trim s in
      if negb (truthy k) || existsb (str_eqb k) seen
      then dedupeFrom seen items'
      else k :: dedupeFrom (k :: seen) items'
  end.

Definition dedupe (items : list str) : list str := dedupeFrom [] items.

Definition standardiseSpelling (sentence : str) (variant : EnglishVariant)
  : Replaced :=
  let map := match variant with EnUS => ukToUs | EnGB => usToUk end in
  let chunks := protectTokens sentence in
  let '(pieces, (chg, chs)) :=
    fold_left (spellChunk map) chunks ([], (false, [])) in
  {| changed := chg; value := join [] pieces; changes := dedupe chs |}.

Definition detectMixedVariant (text : str) : option str :=
  let lower := toLowerCase text in
  let hasUk := existsb (fun e => test (Seq Wb (Seq (lit (fst e)) Wb)) lower) ukToUs in
  let hasUs := existsb (fun e => test (Seq Wb (Seq (lit (snd e)) Wb)) lower) ukToUs in
  if hasUk && hasUs
  then Some (L "Mixed UK/US spelling detected. Select one English variant for consistency.")
  else None.

(** *** Qualifiers *)

Definition qualifiers : list str :=
  [ L "may"; L "could"; L "might"; L "potentially"; L "appears to";
    L "seems to"; L "generally"; L "possibly" ].

Definition findQualifierHints (sentence : str) : list str :=
  let lower := toLowerCase sentence in
  let found := filter (fun q => includes lower q) qualifiers in
  match found with
  | [] => []
  | _ => [ L "Qualification detected (" ++ join (L ", ") found ++
           L "). Audit-safe default is to keep it unless evidence supports a stronger statement." ]
  end.

(** *** Passive to active *)

Record Conversion : Type := {
  converted : bool;
  sentence : str;
  suggestion : option str
}.

Definition participles : list str :=
  [ L "completed"; L "implemented"; L "performed"; L "reviewed";
    L "approved"; L "identified"; L "documented" ].

Definition baseVerbs : table :=
  [ (L "completed", L "complete");
    (L "implemented", L "implement");
    (L "performed", L "perform");
    (L "reviewed", L "review");
    (L "approved", L "approve");
    (L "identified", L "identify");
    (L "documented", L "document") ].

Fixpoint tableGet (t : table) (k : str) : option str :=
  match t with
  | [] => None
  | (k', v) :: t' => if str_eqb k' k then Some v else tableGet t' k
  end.

(** [map[pastParticiple] || pastParticiple.replace(/ed$/, "")] *)
Definition toBaseVerb (pastParticiple : str) : str :=
  match tableGet baseVerbs pastParticiple with
  | Some v => if truthy v then v
              else replaceFirst (Seq (lit (L "ed")) Eol) (fun _ => []) pastParticiple
  | None => replaceFirst (Seq (lit (L "ed")) Eol) (fun _ => []) pastParticiple
  end.

Definition re_participle : regex := alts (map liti participles).
Definition re_was_were : regex := Alt (liti (L "was")) (liti (L "were")).

(** [/^(.+?)\s+(was|were)\s+not\s+(completed|...|documented)\b(.{0,})$/i] *)
Definition re_negated : regex :=
  seqs [Bol; Grp 1 (Rep false 1 is_dot); plus is_space; Grp 2 re_was_were;
        plus is_space; liti (L "not"); plus is_space; Grp 3 re_participle;
        Wb; Grp 4 (Rep true 0 is_dot); Eol].

(** [/^(.+?)\s+(was|were)\s+(completed|...|documented)\b(.{0,})$/i] *)
Definition re_plain : regex :=
  seqs [Bol; Grp 1 (Rep false 1 is_dot); plus is_space; Grp 2 re_was_were;
        plus is_space; Grp 3 re_participle;
        Wb; Grp 4 (Rep true 0 is_dot); Eol].

(** [/^\s*by\s+.+$/i] *)
Definition re_by : regex :=
  seqs [Bol; Rep true 0 is_space; liti (L "by"); plus is_space;
        Rep true 1 is_dot; Eol].

Definition tailOf (m : mres) : str :=
  trim (replaceFirst re_by (fun _ => []) (trim (group_or_empty m 4))).

Definition withTail (tail : str) : str :=
  if truthy tail then SP :: tail else [].

Definition buildNegated (owner : str) (m : mres) : str :=
  let subject := trim (group_or_empty m 1) in
  let pp := toLowerCase (group_or_empty m 3) in
  let base := toBaseVerb pp in
  let tail := tailOf m in
  owner ++ L " did not " ++ base ++ [SP] ++ subject ++ withTail tail.

Definition buildPlain (owner : str) (m : mres) : str :=
  let subject := trim (group_or_empty m 1) in
  let pp := toLowerCase (group_or_empty m 3) in
  let tail := tailOf m in
  owner ++ [SP] ++ pp ++ [SP] ++ subject ++ withTail tail.

(** The array [strict] of pattern and builder pairs. *)
Definition strict (owner : str) : list (regex * (mres -> str)) :=
  [ (re_negated, buildNegated owner); (re_plain, buildPlain owner) ].

(** [sentence.match(p.re)] for a pattern without the [g] flag. *)
Definition matchOnce (r : regex) (s : str) : option mres :=
  match exec r s with
  | Some (_, m, _) => Some m
  | None => None
  end.

Fixpoint firstStrict (ps : list (regex * (mres -> str))) (s : str)
  : option str :=
  match ps with
  | [] => None
  | (re, build) :: ps' =>
      match matchOnce re s with
      | Some m => Some (build m)
      | None => firstStrict ps' s
      end
  end.

Definition withheld : str :=
  L "Active voice not applied (audit-safe): only strict, meaning-preserving patterns are converted.".

Definition convertPassiveToActiveSafe (s : str) (owner : option str)
           (clearOwnership auditSafeMode : bool) : Conversion :=
  match owner with
  | None => {| converted := false; sentence := s; suggestion := None |}
  | Some own =>
      if negb (truthy own) || negb clearOwnership
      then {| converted := false; sentence := s; suggestion := None |}
      else
        match firstStrict (strict own) s with
        | Some out => {| converted := true; sentence := out; suggestion := None |}
        | None =>
            if auditSafeMode
            then {| converted := false; sentence := s; suggestion := Some withheld |}
            else {| converted := false; sentence := s; suggestion := None |}
        end
  end.

(** *** Impact prompt *)

Definition impactPrompt : str :=
  L "Consider adding impact: state the credible consequence (who/what is affected and why it matters) without overstating certainty.".

Definition impactSuggestionOnly (s : str) (docType : DocumentType)
  : option str :=
  match docType with
  | AuditFinding =>
      let lower := toLowerCase s in
      let hasImpactCue :=
        includes lower (L "risk") || includes lower (L "impact")
        || includes lower (L "result") || includes lower (L "consequence") in
      if hasImpactCue then None else Some impactPrompt
  | _ => None
  end.

(** *** Style heuristic

    JavaScript numbers are IEEE 754 doubles; [float] is the same format. *)

Definition num (n : nat) : float := PrimFloat.of_uint63 (Uint63.of_nat n).

(** [sent.split(/\s+/).length] *)
Definition wordCount (s : str) : nat := length (split re_spaces s).

(** Mean sentence word count of one example. *)
Definition exampleAverage (ex : StyleExample) : float :=
  let sents := splitSentences (text ex) in
  PrimFloat.div
    (fold_left (fun s sent => PrimFloat.add s (num (wordCount sent))) sents (num 0))
    (num (Nat.max 1 (length sents))).

Definition averageLength (activeExamples : list StyleExample) : float :=
  PrimFloat.div
    (fold_left (fun sum ex => PrimFloat.add sum (exampleAverage ex))
               activeExamples (num 0))
    (num (length activeExamples)).

(** [/, and /i] and [/, which /i] *)
Definition re_and : regex := liti (L ", and ").
Definition re_which : regex := liti (L ", which ").

Definition tooLong (words : nat) (avgLength : float) : bool :=
  PrimFloat.ltb (num 0) avgLength
  && PrimFloat.ltb (PrimFloat.mul avgLength 1.5%float) (num words)
  && PrimFloat.ltb (num 22) (num words).

Definition applyStyleHeuristics (s : str) (examples : list StyleExample)
  : str :=
  let activeExamples := firstn 3 (filter isActive examples) in
  match activeExamples with
  | [] => s
  | _ =>
      let avgLength := averageLength activeExamples in
      let words := wordCount s in
      if tooLong words avgLength
      then replaceFirst re_which (fun _ => L ". This ")
             (replaceFirst re_and (fun _ => L ". ") s)
      else s
  end.

(** *** Casing and punctuation *)

(** [/\bi\b/g] *)
Definition re_pronoun : regex := Seq Wb (Seq (chr "i") Wb).

Definition fixSentenceCasing (s : str) : str :=
  let trimmed := trim s in
  if negb (truthy trimmed) then trimmed
  else
    match exec (Chr is_alpha) trimmed with
    | None => trimmed
    | Some (before, m, after) =>
        let out := before ++ toUpperCase (m_text m) ++ after in
        replaceAll re_pronoun (fun _ => L "I") out
    end.

(** [/[.!?]$/] *)
Definition re_terminal : regex := Seq (Chr (one_of terminators)) Eol.

Definition ensureTerminalPunctuation (s : str) : str :=
  let trimmed := trim s in
  if negb (truthy trimmed) then trimmed
  else if test re_terminal trimmed then trimmed
  else trimmed ++ L ".".

(** *** The pipeline *)

Definition stageConcise (options : RewriteOptions) (s : str) : M str :=
  if concise options then
    let stripped := stripFillerOpener s in
    if s_changed stripped then
      pushChange (L "concision")
        (L "Removed filler opener: "
           ++ quoted (match s_removed stripped with Some f => f | None => [] end)) ;;;
      ret (s_value stripped)
    else ret s
  else ret s.

Definition stageVocabulary (s : str) : M str :=
  let vocab := replaceVocabulary s in
  if changed vocab then
    forEach (pushChange (L "clarity")) (changes vocab) ;;;
    ret (value vocab)
  else ret s.

Definition stageSpelling (options : RewriteOptions) (s : str) : M str :=
  if Types.standardiseSpelling options then
    let spelled := standardiseSpelling s (englishVariant options) in
    if changed spelled then
      forEach (pushChange (L "spelling")) (changes spelled) ;;;
      ret (value spelled)
    else ret s
  else ret s.

Definition stageVoice (options : RewriteOptions) (s : str) : M str :=
  if activeVoice options then
    let active := convertPassiveToActiveSafe s (owner options)
                    (clearOwnership options) (auditSafeMode options) in
    if converted active then
      pushChange (L "voice") (L "Converted passive to active voice (safe rule)") ;;;
      ret (sentence active)
    else
      match suggestion active with
      | Some sg => if truthy sg then pushSuggestion sg ;;; ret s else ret s
      | None => ret s
      end
  else ret s.

Definition stageImpact (options : RewriteOptions) (s : str) : M unit :=
  if sharperImpact options then
    match impactSuggestionOnly s (documentType options) with
    | Some impact => when (truthy impact) (pushSuggestion impact)
    | None => ret tt
    end
  else ret tt.

Definition stageStyle (styleExamples : list StyleExample) (s : str) : str :=
  match styleExamples with
  | [] => s
  | _ => applyStyleHeuristics s styleExamples
  end.

(** The body of the loop of [rewriteBlock], for one sentence. *)
Definition rewriteSentence (options : RewriteOptions)
           (styleExamples : list StyleExample) (s0 : str) : M str :=
  s1 <- stageConcise options s0 ;;
  s2 <- stageVocabulary s1 ;;
  s3 <- stageSpelling options s2 ;;
  forEach pushSuggestion (findQualifierHints s3) ;;;
  s4 <- stageVoice options s3 ;;
  stageImpact options s4 ;;;
  let s5 := stageStyle styleExamples s4 in
  let s6 := fixSentenceCasing s5 in
  let s7 := ensureTerminalPunctuation s6 in
  ret (normaliseSpacing s7).

Definition rewriteBlock (block : str) (options : RewriteOptions)
           (styleExamples : list StyleExample) : M str :=
  let trimmed := trim block in
  if negb (truthy trimmed) then ret block
  else
    let processed := normaliseSpacing trimmed in
    let sentences := splitSentences processed in
    rewritten <- mapM (rewriteSentence options styleExamples) sentences ;;
    ret (trim (join [SP] rewritten)).

(** The journal after all blocks, before [dedupe] and [slice]. *)
Definition rewriteBlocks (txt : str) (options : RewriteOptions)
           (styleExamples : list StyleExample) : list str * Journal :=
  let start := {| j_changeLog := [];
                  j_suggestions := match detectMixedVariant txt with
                                   | Some mixed => if truthy mixed then [mixed] else []
                                   | None => []
                                   end |} in
  mapM (fun block => rewriteBlock block options styleExamples)
       (splitParagraphs txt) start.

Definition rewrite (txt : str) (options : RewriteOptions)
           (styleExamples : list StyleExample) : RewriteResult :=
  let '(rewrittenBlocks, j) := rewriteBlocks txt options styleExamples in
  {| rewrittenText := trim (join [LF; LF] rewrittenBlocks);
     changeLog := j_changeLog j;
     suggestions := firstn 12 (dedupe (j_suggestions j)) |}.

End RewriteEngine.

Import Types RewriteEngine.

(** ** Vocabulary of the statements *)

(** The left neighbour after walking over [w]. *)
Definition walk (p : option ascii) (w : str) : option ascii :=
  fold_left (fun _ x => Some x) w p.

(** What a successful run of the matcher on [r] amounts to, blind to
    priorities: with left neighbour [p], the run consumes [w], leaves [t],
    and turns the captures [cs] into [cs']. *)
Fixpoint lang (r : regex) (p : option ascii) (w t : str)
         (cs cs' : list (nat * str)) : Prop :=
  match r with
  | Eps => w = [] /\ cs' = cs
  | Chr c => exists x, w = [x] /\ c x = true /\ cs' = cs
  | Seq a b =>
      exists w1 w2 cs1,
        w = w1 ++ w2 /\ lang a p w1 (w2 ++ t) cs cs1
        /\ lang b (walk p w1) w2 t cs1 cs'
  | Alt a b => lang a p w t cs cs' \/ lang b p w t cs cs'
  | Rep _ lo c => lo <= length w /\ forallb c w = true /\ cs' = cs
  | Grp n r' => exists cs1, lang r' p w t cs cs1 /\ cs' = (n, w) :: cs1
  | Bol => w = [] /\ p = None /\ cs' = cs
  | Eol => w = [] /\ t = [] /\ cs' = cs
  | Wb => w = [] /\ xorb (word_before p) (word_after t) = true /\ cs' = cs
  end.



(** [owner] is unset for the engine when it is [undefined] or empty. *)
Definition owner_unset (o : option str) : Prop := o = None \/ o = Some [].

(** Two option records that differ at most in [calmTone]. *)
Definition same_but_calmTone (o1 o2 : RewriteOptions) : Prop :=
  activeVoice o1 = activeVoice o2
  /\ clearOwnership o1 = clearOwnership o2
  /\ sharperImpact o1 = sharperImpact o2
  /\ concise o1 = concise o2
  /\ auditSafeMode o1 = auditSafeMode o2
  /\ owner o1 = owner o2
  /\ documentType o1 = documentType o2
  /\ englishVariant o1 = englishVariant o2
  /\ Types.standardiseSpelling o1 = Types.standardiseSpelling o2.

(** The options of the repository's test suite (rewriteEngine.test.ts). *)
Definition baseOptions : RewriteOptions := {|
  activeVoice := true;
  clearOwnership := true;
  sharperImpact := true;
  calmTone := true;
  concise := true;
  auditSafeMode := true;
  owner := Some (L "Operations");
  documentType := AuditFinding;
  englishVariant := EnGB;
  Types.standardiseSpelling := true
|}.

Definition withVariant (v : EnglishVariant) (o : RewriteOptions)
  : RewriteOptions := {|
  activeVoice := activeVoice o;
  clearOwnership := clearOwnership o;
  sharperImpact := sharperImpact o;
  calmTone := calmTone o;
  concise := concise o;
  auditSafeMode := auditSafeMode o;
  owner := owner o;
  documentType := documentType o;
  englishVariant := v;
  Types.standardiseSpelling := Types.standardiseSpelling o
|}.

Definition withCalmTone (b : bool) (o : RewriteOptions) : RewriteOptions := {|
  activeVoice := activeVoice o;
  clearOwnership := clearOwnership o;
  sharperImpact := sharperImpact o;
  calmTone := b;
  concise := concise o;
  auditSafeMode := auditSafeMode o;
  owner := owner o;
  documentType := documentType o;
  englishVariant := englishVariant o;
  Types.standardiseSpelling := Types.standardiseSpelling o
|}.

(** The input of the test "does not modify protected tokens". *)
Definition protectedInput : str :=
  L "Email ops@company.com regarding unauthorised access. See https://example.com/authorisation. Path C:\Temp\authorisation\file.txt. Use `authorisation` as the config key.".

Definition hedgedInput : str :=
  L "Access reviews were completed by a team that may be understaffed.".

Definition shortExample : StyleExample := {|
  id := L "1";
  title := L "House style";
  text := L "Short one.";
  tags := [];
  isActive := true
|}.

Definition longInput : str :=
  L "The team reviewed the access logs for every system in scope, and the findings went to the owners of each system so that follow up actions are planned for the next quarter.".

Definition twoCommaInput : str :=
  L "The team reviewed the access logs for every system in scope, and the findings were shared with the owners, which led to several follow up actions being planned for the next quarter".

Definition manyHedges : str :=
  L "may a. could b. might c. potentially d. appears to e. seems to f. generally g. possibly h. may could i. may might j. could might k. may possibly l. might possibly m. in order to x. in order to y".

(** The prefix test and the first-occurrence substitution of a literal,
    written without the matcher; [_ci] ignores letter case. *)
Fixpoint starts_with_ci (p s : str) : bool :=
  match p, s with
  | [], _ => true
  | a :: p', b :: s' =>
      Ascii.eqb (lower_char b) (lower_char a) && starts_with_ci p' s'
  | _ :: _, [] => false
  end.

Fixpoint substFirst (pat rep s : str) : str :=
  if starts_with pat s then rep ++ skipn (length pat) s
  else match s with
       | [] => []
       | x :: s' => x :: substFirst pat rep s'
       end.

Fixpoint substFirstCI (pat rep s : str) : str :=
  if starts_with_ci pat s then rep ++ skipn (length pat) s
  else match s with
       | [] => []
       | x :: s' => x :: substFirstCI pat rep s'
       end.

(** The split as the specification words it: one substitution, the
    first applicable pattern wins. *)
Definition singleSplit (s : str) : str :=
  if includes s (L ", and ") then substFirst (L ", and ") (L ". ") s
  else if includes s (L ", which ") then substFirst (L ", which ") (L ". This ") s
  else s.

(** The split as the engine chains it: both substitutions, each at the
    first occurrence in any letter case. *)
Definition bothSplits (s : str) : str :=
  substFirstCI (L ", which ") (L ". This ")
    (substFirstCI (L ", and ") (L ". ") s).

Definition roundTrips (e : str * str) : bool :=
  str_eqb (value (standardiseSpelling (fst e) EnUS)) (snd e)
  && str_eqb (value (standardiseSpelling (snd e) EnGB)) (fst e)
  && existsb (fun e' => str_eqb (fst e') (snd e) && str_eqb (snd e') (fst e)) usToUk.

Definition noConversion (s : str) (sg : option str) : Conversion :=
  {| converted := false; sentence := s; suggestion := sg |}.

Definition emptyJournal : Journal := {| j_changeLog := []; j_suggestions := [] |}.

Definition appendJournal (j k : Journal) : Journal :=
  {| j_changeLog := j_changeLog j ++ j_changeLog k;
     j_suggestions := j_suggestions j ++ j_suggestions k |}.

(** A computation only appends to the journal, and neither its value nor
    what it appends depends on what the journal already holds. *)
Definition appendOnly {A} (m : M A) : Prop :=
  forall j, m j = (fst (m emptyJournal), appendJournal j (snd (m emptyJournal))).

(** The sentences the loop of [rewriteBlock] runs over, and the change-log
    entries of one sentence and of one block, in the order they are pushed. *)
Definition blockSentences (block : str) : list str :=
  if negb (truthy (trim block)) then []
  else splitSentences (normaliseSpacing (trim block)).

Definition sentenceLog (o : RewriteOptions) (examples : list StyleExample)
           (s : str) : list Change :=
  j_changeLog (snd (rewriteSentence o examples s emptyJournal)).

Definition blockLog (o : RewriteOptions) (examples : list StyleExample)
           (block : str) : list Change :=
  flat_map (sentenceLog o examples) (blockSentences block).

(** [pat] occurs in [s], in any letter case. *)
Fixpoint occurs_ci (pat s : str) : bool :=
  starts_with_ci pat s ||
  match s with
  | [] => false
  | _ :: s' => occurs_ci pat s'
  end.

(** [b] is a contiguous part of [s]. *)
Definition part (b s : str) : Prop := exists a c, s = a ++ b ++ c.







(** The text side of the pipeline, without the journal: the sentence as
    it reaches the passive-to-active stage, as it leaves it, and after
    the finishing passes; the text of a block and of the whole result. *)
Definition prepared (o : RewriteOptions) (s : str) : str :=
  fst (stageSpelling o
         (fst (stageVocabulary (fst (stageConcise o s emptyJournal))
                               emptyJournal))
         emptyJournal).

Definition voiced (o : RewriteOptions) (s : str) : str :=
  fst (stageVoice o s emptyJournal).

Definition finish (s : str) : str :=
  normaliseSpacing (ensureTerminalPunctuation (fixSentenceCasing s)).

Definition sentenceText (o : RewriteOptions) (examples : list StyleExample)
           (s : str) : str :=
  finish (stageStyle examples (voiced o (prepared o s))).

Definition blockText (o : RewriteOptions) (examples : list StyleExample)
           (block : str) : str :=
  if negb (truthy (trim block)) then block
  else trim (join [SP] (map (sentenceText o examples) (blockSentences block))).

(** No part of [s] can be matched by [r], whatever stands before it. *)
Definition unmatched (r : regex) (s : str) : Prop :=
  forall u w t p cs', s = u ++ w ++ t -> ~ lang r p w t [] cs'.

(** Every way of matching [r] inside [s] is replaced by [f] with a text
    that [h] maps to the same characters. *)
Definition harmless (h : ascii -> ascii) (r : regex) (f : mres -> str)
           (s : str) : Prop :=
  forall u w t p cs',
    s = u ++ w ++ t -> lang r p w t [] cs' -> map h (f (MRes w cs')) = map h w.

(** The pieces a replacement of all matches is assembled from. *)
Definition assemble (f : mres -> str) (res : list (str * mres) * str) : str :=
  concat (map (fun tm => fst tm ++ f (snd tm)) (fst res)) ++ snd res.






(** Every match of [r] holds a character of the class [c]. *)
Inductive Requires (c : cls) : regex -> Prop :=
| Req_Chr : forall c' : cls,
    (forall x, c' x = true -> c x = true) -> Requires c (Chr c')
| Req_SeqL : forall a b, Requires c a -> Requires c (Seq a b)
| Req_SeqR : forall a b, Requires c b -> Requires c (Seq a b)
| Req_Alt : forall a b, Requires c a -> Requires c b -> Requires c (Alt a b)
| Req_Rep : forall g lo (c' : cls),
    1 <= lo -> (forall x, c' x = true -> c x = true) -> Requires c (Rep g lo c')
| Req_Grp : forall n r, Requires c r -> Requires c (Grp n r).

(** ** Vocabulary of the further statements *)

(** What [replace] with the [g] flag returns when the scan starts with
    left neighbour [p]. *)
Definition replaced (r : regex) (f : mres -> str) (p : option ascii)
           (s : str) : str :=
  assemble f (scan r 0 p s).

Definition chunkValue (c : ProtectedChunk) : str :=
  match c with TextChunk v => v | ProtectedSpan v => v end.

(** The result of [rewrite] on a text without content. *)
Definition emptyResult : RewriteResult :=
  {| rewrittenText := []; changeLog := []; suggestions := [] |}.

(** Two option records that agree on all that can change the text: they
    may differ in [sharperImpact], [documentType], [auditSafeMode] and
    [calmTone]. *)
Definition same_for_text (o1 o2 : RewriteOptions) : Prop :=
  activeVoice o1 = activeVoice o2
  /\ clearOwnership o1 = clearOwnership o2
  /\ concise o1 = concise o2
  /\ owner o1 = owner o2
  /\ englishVariant o1 = englishVariant o2
  /\ Types.standardiseSpelling o1 = Types.standardiseSpelling o2.

Definition adviceOff (o : RewriteOptions) : RewriteOptions := {|
  activeVoice := activeVoice o;
  clearOwnership := clearOwnership o;
  sharperImpact := false;
  calmTone := calmTone o;
  concise := concise o;
  auditSafeMode := false;
  owner := owner o;
  documentType := StatusUpdate;
  englishVariant := englishVariant o;
  Types.standardiseSpelling := Types.standardiseSpelling o
|}.

(** Two computations return the same value and take change logs that
    agree to change logs that agree. *)
Definition sameLog {A} (m1 m2 : M A) : Prop :=
  forall j1 j2,
    j_changeLog j1 = j_changeLog j2 ->
    fst (m1 j1) = fst (m2 j2)
    /\ j_changeLog (snd (m1 j1)) = j_changeLog (snd (m2 j2)).

(** A computation keeps an invariant of the journal. *)
Definition keeps (P : Journal -> Prop) {A} (m : M A) : Prop :=
  forall j, P j -> P (snd (m j)).

Definition mixedWarning : str :=
  L "Mixed UK/US spelling detected. Select one English variant for consistency.".

Definition qualifierHint (found : list str) : str :=
  L "Qualification detected (" ++ join (L ", ") found ++
  L "). Audit-safe default is to keep it unless evidence supports a stronger statement.".

(** The table [standardiseSpelling] reads for a target variant. *)
Definition variantTable (v : EnglishVariant) : table :=
  match v with EnUS => ukToUs | EnGB => usToUk end.

Definition owner_set (o : RewriteOptions) : Prop :=
  exists own, owner o = Some own /\ own <> [].

(** The entries the change log can hold under the options [o]. *)
Definition logEntry (o : RewriteOptions) (c : Change) : Prop :=
  (type c = L "concision" /\ concise o = true
   /\ exists f, In f fillerOpeners
                /\ description c = L "Removed filler opener: " ++ quoted f)
  \/ (type c = L "clarity"
      /\ exists e, In e vocabularyMap
                   /\ description c
                      = L "Replaced " ++ quoted (fst e) ++ L " with "
                          ++ quoted (snd e))
  \/ (type c = L "spelling" /\ Types.standardiseSpelling o = true
      /\ exists e, In e (variantTable (englishVariant o))
                   /\ description c
                      = L "Standardised spelling: " ++ quoted (fst e) ++ [SP]
                          ++ arrow ++ [SP] ++ quoted (snd e))
  \/ (type c = L "voice" /\ activeVoice o = true /\ clearOwnership o = true
      /\ owner_set o
      /\ description c = L "Converted passive to active voice (safe rule)").

(** The suggestions [rewrite] can make on the text [txt] under [o]. *)
Definition advice (txt : str) (o : RewriteOptions) (x : str) : Prop :=
  (x = mixedWarning /\ detectMixedVariant txt = Some mixedWarning)
  \/ (exists found,
        found <> [] /\ incl found qualifiers /\ x = qualifierHint found)
  \/ (x = withheld /\ activeVoice o = true /\ auditSafeMode o = true
      /\ clearOwnership o = true /\ owner_set o)
  \/ (x = impactPrompt /\ sharperImpact o = true
      /\ documentType o = AuditFinding).

Definition soundJournal (txt : str) (o : RewriteOptions) (j : Journal)
  : Prop :=
  Forall (logEntry o) (j_changeLog j) /\ Forall (advice txt o) (j_suggestions j).

(** Every way of matching [r] inside [s] is replaced by [f] with a text
    whose characters are related by [R], one by one, to those matched. *)
Definition gentle (R : ascii -> ascii -> Prop) (r : regex) (f : mres -> str)
           (s : str) : Prop :=
  forall u w t p cs',
    s = u ++ w ++ t -> lang r p w t [] cs' -> Forall2 R w (f (MRes w cs')).

(** The pronoun pass turns a lower-case i into a capital, nothing else. *)
Definition capitalised_i (c c' : ascii) : Prop :=
  c' = c \/ (c = "i"%char /\ c' = "I"%char).

(** [escapeRegex]: [s.replace(/[.*+?^${}()|[\]\\]/g, "\\$&")].  The
    engine calls it on the entries of its fixed tables before it builds
    a pattern from them. *)
Definition regexSpecials : str := L ".*+?^${}()|[]\".

Definition escapeRegex (s : str) : str :=
  replaceAll (Chr (one_of regexSpecials)) (fun m => BACKSLASH :: m_text m) s.

(** The same, character by character. *)
Definition escapeChar (c : ascii) : str :=
  if one_of regexSpecials c then [BACKSLASH; c] else [c].

(** ** The passes of [normaliseSpacing], character by character *)

Definition startsWith (c : cls) (s : str) : bool :=
  match s with y :: _ => c y | [] => false end.

(** Every run of characters of the class becomes one space. *)
Fixpoint squeeze (c : cls) (s : str) : str :=
  match s with
  | [] => []
  | x :: s' =>
      if c x
      then if startsWith c s' then squeeze c s' else SP :: squeeze c s'
      else x :: squeeze c s'
  end.

(** A run of white space, possibly empty, and then a punctuation mark. *)
Fixpoint gap (s : str) : bool :=
  match s with
  | [] => false
  | x :: s' => if is_space x then gap s' else one_of punct x
  end.

(** White space before a punctuation mark goes. *)
Fixpoint closeUp (s : str) : str :=
  match s with
  | [] => []
  | x :: s' => if is_space x && gap s' then closeUp s' else x :: closeUp s'
  end.

(** A space comes between a punctuation mark and a letter. *)
Fixpoint aerate (s : str) : str :=
  match s with
  | [] => []
  | x :: s' =>
      if one_of punct x && startsWith is_alpha s'
      then x :: SP :: aerate s'
      else x :: aerate s'
  end.

(** A relation that holds between every character and the next. *)
Fixpoint adjacent (R : ascii -> ascii -> bool) (s : str) : bool :=
  match s with
  | x :: s' =>
      match s' with
      | y :: _ => R x y && adjacent R s'
      | [] => true
      end
  | [] => true
  end.

Definition noSpacePunct (x y : ascii) : bool :=
  negb (is_space x && one_of punct y).
Definition noPunctLetter (x y : ascii) : bool :=
  negb (one_of punct x && is_alpha y).
Definition noSpaceSpace (x y : ascii) : bool :=
  negb (is_space x && is_space y).
Definition plainSpace (x : ascii) : bool :=
  negb (is_space x) || Ascii.eqb x SP.

(** Normal spacing: the only white space is the single space, never
    two in a row, none before a punctuation mark and none at the ends;
    no letter follows a punctuation mark directly. *)
Definition normalSpacing (s : str) : bool :=
  adjacent noSpaceSpace s && adjacent noSpacePunct s
  && adjacent noPunctLetter s && forallb plainSpace s
  && str_eqb (trim s) s.

(** The pieces [split] returns when the scan starts with left
    neighbour [p]. *)
Definition pieces (r : regex) (p : option ascii) (s : str) : list str :=
  map fst (fst (scan r 0 p s)) ++ [snd (scan r 0 p s)].

(** A carriage return before a line feed goes. *)
Fixpoint dropCR (s : str) : str :=
  match s with
  | [] => []
  | x :: s' =>
      if Ascii.eqb CR x && startsWith (Ascii.eqb LF) s'
      then dropCR s'
      else x :: dropCR s'
  end.

(** A paragraph as [splitParagraphs] gives it back: it has content and
    neither line feed nor carriage return in it. *)
Definition oneParagraph (p : str) : Prop :=
  p <> [] /\ ~ In LF p /\ ~ In CR p.

(** A block with the formatting passes only: style heuristic, casing,
    terminal punctuation and spacing, and none of the rewriting stages. *)
Definition formattedBlock (examples : list StyleExample) (block : str) : str :=
  if negb (truthy (trim block)) then block
  else trim (join [SP] (map (fun s => finish (stageStyle examples s))
                            (blockSentences block))).

(** The number of maximal runs of characters of a class. *)
Fixpoint countRuns (c : cls) (s : str) : nat :=
  match s with
  | [] => 0
  | x :: s' =>
      (if c x && negb (startsWith c s') then 1 else 0) + countRuns c s'
  end.


(** ** The page (src/components/ClearLine.tsx)

    The handlers of the component, as functions of the state they read.
    What a handler hands to a state setter or to the storage is the
    value of the function. *)

Module ClearLine.

(** [Omit<RewriteOptions, "owner" | "documentType" | "englishVariant" |
    "standardiseSpelling" | "auditSafeMode">] (src/lib/types.ts) *)
Record Toggles : Type := {
  tg_activeVoice : bool;
  tg_clearOwnership : bool;
  tg_sharperImpact : bool;
  tg_calmTone : bool;
  tg_concise : bool
}.

Inductive Theme : Type := Light | Dark | System.

(** [AppSettings] (src/lib/types.ts) *)
Record AppSettings : Type := {
  theme : Theme;
  defaultDocType : DocumentType;
  as_englishVariant : EnglishVariant;
  as_standardiseSpelling : bool;
  as_auditSafeMode : bool;
  defaultToggles : Toggles
}.

(** The state [handleRewrite] reads. *)
Record Page : Type := {
  inputText : str;
  ownerText : str;
  options : Toggles;
  pageDocumentType : DocumentType;
  settings : AppSettings;
  styleExamples : list StyleExample
}.

(** The options object [handleRewrite] builds; [owner.trim() || undefined]. *)
Definition rewriteOptions (pg : Page) : RewriteOptions := {|
  activeVoice := tg_activeVoice (options pg);
  clearOwnership := tg_clearOwnership (options pg);
  sharperImpact := tg_sharperImpact (options pg);
  calmTone := tg_calmTone (options pg);
  concise := tg_concise (options pg);
  auditSafeMode := as_auditSafeMode (settings pg);
  owner := if truthy (trim (ownerText pg)) then Some (trim (ownerText pg))
           else None;
  documentType := pageDocumentType pg;
  englishVariant := as_englishVariant (settings pg);
  Types.standardiseSpelling := as_standardiseSpelling (settings pg)
|}.

(** The result shown, [None] when the handler returns at once. *)
Definition handleRewrite (pg : Page) : option RewriteResult :=
  if negb (truthy (trim (inputText pg))) then None
  else Some (rewrite (inputText pg) (rewriteOptions pg) (styleExamples pg)).

(** [{ ...e, isActive: !e.isActive }] *)
Definition flipActive (e : StyleExample) : StyleExample := {|
  id := id e;
  title := title e;
  text := text e;
  tags := tags e;
  isActive := negb (isActive e)
|}.

(** What [handleToggleActive] does: nothing, the alert, or the new list
    for the state together with the example it saves. *)
Inductive Toggle : Type :=
| Ignored
| Refused
| Toggled (updatedExamples : list StyleExample) (updated : StyleExample).

Definition handleToggleActive (examples : list StyleExample) (i : str)
  : Toggle :=
  match find (fun e => str_eqb (id e) i) examples with
  | None => Ignored
  | Some current =>
      let activeCount := length (filter isActive examples) in
      if negb (isActive current) && (3 <=? activeCount) then Refused
      else
        let updatedExamples :=
          map (fun e => if str_eqb (id e) i then flipActive e else e)
              examples in
        match find (fun e => str_eqb (id e) i) updatedExamples with
        | Some updated => Toggled updatedExamples updated
        | None => Ignored
        end
  end.

Definition COMMA : ascii := ","%char.

(** The example [handleAddExample] saves, [None] when it returns at
    once; [now] is [Date.now().toString()]. *)
Definition handleAddExample (now newExampleTitle newExampleText
                             newExampleTags : str) : option StyleExample :=
  if negb (truthy (trim newExampleTitle))
     || negb (truthy (trim newExampleText))
  then None
  else Some {| id := now;
               title := trim newExampleTitle;
               text := trim newExampleText;
               tags := filter truthy
                         (map trim (split (chr COMMA) newExampleTags));
               isActive := false |}.

(** Samples. *)
Definition anchor (i : str) (active : bool) : StyleExample := {|
  id := i;
  title := L "House style";
  text := L "Management approved the plan.";
  tags := [L "audit"; L "short"];
  isActive := active
|}.

Definition initialToggles : Toggles := {|
  tg_activeVoice := true;
  tg_clearOwnership := true;
  tg_sharperImpact := true;
  tg_calmTone := true;
  tg_concise := true
|}.

(** The settings the page starts with. *)
Definition initialSettings : AppSettings := {|
  theme := System;
  defaultDocType := AuditFinding;
  as_englishVariant := EnGB;
  as_standardiseSpelling := true;
  as_auditSafeMode := true;
  defaultToggles := initialToggles
|}.

Definition blankOwnerPage : Page := {|
  inputText := hedgedInput;
  ownerText := L "  ";
  options := initialToggles;
  pageDocumentType := AuditFinding;
  settings := initialSettings;
  styleExamples := []
|}.

End ClearLine.

(** ** Saved data (class [Storage])

    The two object stores and [importAll], which works on the value
    [JSON.parse] returns.  The examples store is keyed by [id]: [put]
    replaces the record with the same key or adds one, and [getAll]
    lists the records by ascending key.  Failures of the database
    itself are outside the model. *)

Module Storage.
Import ClearLine.

#[warnings="-register-all"]
Inductive json : Type :=
| JNull
| JBool (b : bool)
| JNum (n : float)
| JStr (s : str)
| JArr (items : list json)
| JObj (fields : list (str * json)).

(** A property of a parsed object; when a key occurs twice the later
    value counts. *)
Definition field (k : str) (fs : list (str * json)) : option json :=
  fold_left (fun acc kv => if str_eqb (fst kv) k then Some (snd kv) else acc)
            fs None.

(** [v.k] for a value that is not [null], with [undefined] as [None];
    none of the keys read is a property of strings, numbers, booleans
    or arrays. *)
Definition get (v : json) (k : str) : option json :=
  match v with
  | JObj fs => field k fs
  | _ => None
  end.

(** [x ?? d] *)
Definition orElse (x : option json) (d : json) : json :=
  match x with
  | None | Some JNull => d
  | Some v => v
  end.

(** [Boolean(x)] *)
Definition toBoolean (x : option json) : bool :=
  match x with
  | None | Some JNull => false
  | Some (JBool b) => b
  | Some (JNum n) => negb (PrimFloat.is_zero n || PrimFloat.is_nan n)
  | Some (JStr s) => truthy s
  | Some (JArr _) | Some (JObj _) => true
  end.

Inductive outcome (A : Type) : Type :=
| Ok (a : A)
| Throws.

Arguments Throws {A}.

Definition bindO {A B : Type} (x : outcome A) (f : A -> outcome B)
  : outcome B :=
  match x with
  | Ok a => f a
  | Throws => Throws
  end.

(** Strings as keys: by character code, a proper prefix first. *)
Fixpoint str_ltb (a b : str) : bool :=
  match a, b with
  | _, [] => false
  | [], _ :: _ => true
  | x :: a', y :: b' =>
      (nat_of_ascii x <? nat_of_ascii y)
      || (Ascii.eqb x y && str_ltb a' b')
  end.

Section ImportAll.

(** [String(n)] for a number. *)
Variable numberToString : float -> str.

(** [String(v)].  An object of its own [toString] property, which after
    [JSON.parse] is no function, has no primitive value: a TypeError.
    Inside an array [null] gives the empty string. *)
Fixpoint toString (v : json) : outcome str :=
  match v with
  | JNull => Ok (L "null")
  | JBool true => Ok (L "true")
  | JBool false => Ok (L "false")
  | JNum n => Ok (numberToString n)
  | JStr s => Ok s
  | JArr items =>
      bindO ((fix elements (l : list json) : outcome (list str) :=
                match l with
                | [] => Ok []
                | e :: l' =>
                    bindO (match e with
                           | JNull => Ok []
                           | _ => toString e
                           end)
                          (fun s => bindO (elements l')
                                          (fun ss => Ok (s :: ss)))
                end) items)
            (fun ss => Ok (join (L ",") ss))
  | JObj fs =>
      match field (L "toString") fs with
      | Some _ => Throws
      | None => Ok (L "[object Object]")
      end
  end.

(** [ts.map((t) => String(t).trim())] *)
Fixpoint trimmedStrings (ts : list json) : outcome (list str) :=
  match ts with
  | [] => Ok []
  | t :: ts' =>
      bindO (toString t)
            (fun s => bindO (trimmedStrings ts')
                            (fun ss => Ok (trim s :: ss)))
  end.

(** The record [importAll] builds from one entry of [data.examples];
    [now] is [Date.now()] at that moment.  Reading a property of [null]
    throws. *)
Definition sanitiseExample (now : float) (raw : json)
  : outcome StyleExample :=
  match raw with
  | JNull => Throws
  | _ =>
      bindO (toString (orElse (get raw (L "id")) (JNum now))) (fun i =>
      bindO (toString (orElse (get raw (L "title")) (JStr []))) (fun ti =>
      bindO (toString (orElse (get raw (L "text")) (JStr []))) (fun te =>
      bindO (match get raw (L "tags") with
             | Some (JArr ts) =>
                 bindO (trimmedStrings ts) (fun ss => Ok (filter truthy ss))
             | _ => Ok []
             end) (fun tg =>
      Ok {| id := i;
            title := firstn 120 ti;
            text := te;
            tags := tg;
            isActive := toBoolean (get raw (L "isActive")) |}))))
  end.

Definition isString (x : option json) (s : str) : bool :=
  match x with
  | Some (JStr t) => str_eqb t s
  | _ => false
  end.

Definition docTypes : list (str * DocumentType) :=
  [ (L "audit-finding", AuditFinding);
    (L "executive-summary", ExecutiveSummary);
    (L "status-update", StatusUpdate);
    (L "email-senior", EmailSenior);
    (L "risk-description", RiskDescription) ].

(** [Boolean(x ?? true)] *)
Definition flag (x : option json) : bool :=
  toBoolean (Some (orElse x (JBool true))).

(** [s.defaultToggles?.k] *)
Definition toggle (s : json) (k : str) : option json :=
  match get s (L "defaultToggles") with
  | None | Some JNull => None
  | Some dt => get dt k
  end.

(** The settings [importAll] saves for a truthy [data.settings]. *)
Definition mergeSettings (s : json) : AppSettings := {|
  theme := if isString (get s (L "theme")) (L "dark") then Dark
           else if isString (get s (L "theme")) (L "light") then Light
           else System;
  defaultDocType :=
    match get s (L "defaultDocType") with
    | Some (JStr d) =>
        match find (fun e => str_eqb (fst e) d) docTypes with
        | Some e => snd e
        | None => AuditFinding
        end
    | _ => AuditFinding
    end;
  as_englishVariant :=
    if isString (get s (L "englishVariant")) (L "en-GB") then EnGB else EnUS;
  as_standardiseSpelling := flag (get s (L "standardiseSpelling"));
  as_auditSafeMode := flag (get s (L "auditSafeMode"));
  defaultToggles := {|
    tg_activeVoice := flag (toggle s (L "activeVoice"));
    tg_clearOwnership := flag (toggle s (L "clearOwnership"));
    tg_sharperImpact := flag (toggle s (L "sharperImpact"));
    tg_calmTone := flag (toggle s (L "calmTone"));
    tg_concise := flag (toggle s (L "concise"))
  |}
|}.

(** The two object stores. *)
Record DB : Type := {
  examplesStore : list StyleExample;
  settingsStore : option AppSettings
}.

(** [store.put] on the store keyed by [id]. *)
Fixpoint put (ex : StyleExample) (l : list StyleExample)
  : list StyleExample :=
  match l with
  | [] => [ex]
  | e :: l' =>
      if str_eqb (id e) (id ex) then ex :: l'
      else if str_ltb (id ex) (id e) then ex :: e :: l'
      else e :: put ex l'
  end.

Definition saveStyleExample (ex : StyleExample) (db : DB) : DB :=
  {| examplesStore := put ex (examplesStore db);
     settingsStore := settingsStore db |}.

Definition saveSettings (a : AppSettings) (db : DB) : DB :=
  {| examplesStore := examplesStore db; settingsStore := Some a |}.

Definition clearAll (db : DB) : DB :=
  {| examplesStore := []; settingsStore := None |}.

(** The loop over [data.examples]: each entry is saved before the next
    is read; [clock k] is [Date.now()] when entry [k] is read. *)
Fixpoint importExamples (clock : nat -> float) (k : nat) (raws : list json)
         (db : DB) : outcome unit * DB :=
  match raws with
  | [] => (Ok tt, db)
  | raw :: raws' =>
      match sanitiseExample (clock k) raw with
      | Throws => (Throws, db)
      | Ok ex => importExamples clock (S k) raws' (saveStyleExample ex db)
      end
  end.

(** [importAll] on the parsed value: the outcome and the stores it
    leaves. *)
Definition importAll (clock : nat -> float) (data : json) (db : DB)
  : outcome unit * DB :=
  match data with
  | JNull => (Throws, db)
  | _ =>
      let '(r, db1) :=
        match get data (L "examples") with
        | Some (JArr raws) => importExamples clock 0 raws db
        | _ => (Ok tt, db)
        end in
      match r with
      | Throws => (Throws, db1)
      | Ok _ =>
          if toBoolean (get data (L "settings"))
          then (Ok tt,
                saveSettings
                  (mergeSettings (orElse (get data (L "settings")) JNull))
                  db1)
          else (Ok tt, db1)
      end
  end.

End ImportAll.

(** The value [JSON.parse] gives back for the text [exportAll] returns:
    [{ examples, settings }], with [null] for missing settings. *)
Definition exampleValue (e : StyleExample) : json :=
  JObj [ (L "id", JStr (id e)); (L "title", JStr (title e));
         (L "text", JStr (text e)); (L "tags", JArr (map JStr (tags e)));
         (L "isActive", JBool (isActive e)) ].

Definition themeName (t : Theme) : str :=
  match t with
  | Light => L "light"
  | Dark => L "dark"
  | System => L "system"
  end.

Definition docTypeName (d : DocumentType) : str :=
  match d with
  | AuditFinding => L "audit-finding"
  | ExecutiveSummary => L "executive-summary"
  | StatusUpdate => L "status-update"
  | EmailSenior => L "email-senior"
  | RiskDescription => L "risk-description"
  end.

Definition variantName (v : EnglishVariant) : str :=
  match v with
  | EnUS => L "en-US"
  | EnGB => L "en-GB"
  end.

Definition togglesValue (t : Toggles) : json :=
  JObj [ (L "activeVoice", JBool (tg_activeVoice t));
         (L "clearOwnership", JBool (tg_clearOwnership t));
         (L "sharperImpact", JBool (tg_sharperImpact t));
         (L "calmTone", JBool (tg_calmTone t));
         (L "concise", JBool (tg_concise t)) ].

Definition settingsValue (a : AppSettings) : json :=
  JObj [ (L "theme", JStr (themeName (theme a)));
         (L "defaultDocType", JStr (docTypeName (defaultDocType a)));
         (L "englishVariant", JStr (variantName (as_englishVariant a)));
         (L "standardiseSpelling", JBool (as_standardiseSpelling a));
         (L "auditSafeMode", JBool (as_auditSafeMode a));
         (L "defaultToggles", togglesValue (defaultToggles a)) ].

Definition exportAll (db : DB) : json :=
  JObj [ (L "examples", JArr (map exampleValue (examplesStore db)));
         (L "settings", match settingsStore db with
                        | Some a => settingsValue a
                        | None => JNull
                        end) ].

(** An example as [importAll] makes it: a title of at most 120
    characters, tags trimmed and not empty. *)
Definition cleanTag (t : str) : Prop := t <> [] /\ trim t = t.

Definition cleanExample (e : StyleExample) : Prop :=
  length (title e) <= 120 /\ Forall cleanTag (tags e).

(** The examples store holds its records by ascending key. *)
Fixpoint keyed (l : list StyleExample) : bool :=
  match l with
  | [] => true
  | e :: l' => forallb (fun e' => str_ltb (id e) (id e')) l' && keyed l'
  end.

(** Samples. *)
Definition zeroText (n : float) : str := L "0".

Definition noClock (k : nat) : float := PrimFloat.zero.

Definition emptyDB : DB := {| examplesStore := []; settingsStore := None |}.

Definition sampleDB : DB := {|
  examplesStore := [anchor (L "1") true; anchor (L "2") false];
  settingsStore := Some initialSettings
|}.

End Storage.

(** ** Facts about strings *)

Lemma walk_app (p : option ascii) (u v : str) :
  walk p (u ++ v) = walk (walk p u) v.
Proof. unfold walk. now rewrite fold_left_app. Qed.

Lemma firstn_consumed (w t : str) :
  firstn (length (w ++ t) - length t) (w ++ t) = w.
Proof.
  rewrite length_app, Nat.add_sub.
  rewrite firstn_app, Nat.sub_diag, firstn_all. simpl. now rewrite app_nil_r.
Qed.

Lemma str_eqb_eq (a b : str) : str_eqb a b = true <-> a = b.
Proof.
  unfold str_eqb. destruct (list_eq_dec ascii_dec a b); split; congruence.
Qed.

Lemma str_eqb_refl (a : str) : str_eqb a a = true.
Proof. now apply str_eqb_eq. Qed.

(** ** The matcher is sound for [lang] *)

Section Soundness.
Variable A : Type.

Lemma star_sound (c : cls) (g : bool) :
  forall s p (k : option ascii -> str -> option A) a,
    star c g p s k = Some a ->
    exists w s', s = w ++ s' /\ forallb c w = true /\ k (walk p w) s' = Some a.
Proof.
  induction s as [|x s IH]; intros p k a H.
  - exists [], []. destruct g; simpl in H.
    + now repeat split.
    + destruct (k p []) eqn:E; [|discriminate].
      inversion H; subst. now repeat split.
  - destruct g; simpl in H.
    + destruct (c x) eqn:Cx.
      * destruct (star c true (Some x) s k) eqn:E.
        -- destruct (IH _ _ _ E) as (w & s' & -> & Hw & Hk).
           exists (x :: w), s'. simpl. rewrite Cx, Hw. now inversion H; subst.
        -- exists [], (x :: s). now repeat split.
      * exists [], (x :: s). now repeat split.
    + destruct (k p (x :: s)) eqn:E.
      * exists [], (x :: s). inversion H; subst. now repeat split.
      * destruct (c x) eqn:Cx; [|discriminate].
        destruct (IH _ _ _ H) as (w & s' & -> & Hw & Hk).
        exists (x :: w), s'. simpl. now rewrite Cx, Hw.
Qed.

Lemma rep_sound (c : cls) (g : bool) :
  forall lo s p (k : option ascii -> str -> option A) a,
    rep c g lo p s k = Some a ->
    exists w s', s = w ++ s' /\ lo <= length w /\ forallb c w = true
                 /\ k (walk p w) s' = Some a.
Proof.
  induction lo as [|lo IH]; intros s p k a H; simpl in H.
  - destruct (star_sound _ _ _ _ _ H) as (w & s' & -> & Hw & Hk).
    exists w, s'. repeat split; auto. lia.
  - destruct s as [|x s]; [discriminate|].
    destruct (c x) eqn:Cx; [|discriminate].
    destruct (IH _ _ _ _ H) as (w & s' & -> & Hlo & Hw & Hk).
    exists (x :: w), s'. simpl. rewrite Cx, Hw. repeat split; auto. lia.
Qed.

Lemma mt_sound :
  forall r p s cs (k : mst -> option A) a,
    mt r (MSt p s cs) k = Some a ->
    exists w t cs', s = w ++ t /\ lang r p w t cs cs'
                    /\ k (MSt (walk p w) t cs') = Some a.
Proof.
  induction r as [|c|r1 IH1 r2 IH2|r1 IH1 r2 IH2|g lo c|n r IH| | |];
    intros p s cs k a H; simpl in H.
  - exists [], s, cs. simpl. auto.
  - destruct s as [|x s]; [discriminate|].
    destruct (c x) eqn:Cx; [|discriminate].
    exists [x], s, cs. simpl. repeat split; eauto.
  - destruct (IH1 _ _ _ _ _ H) as (w1 & t1 & cs1 & -> & L1 & H1).
    destruct (IH2 _ _ _ _ _ H1) as (w2 & t & cs2 & -> & L2 & H2).
    exists (w1 ++ w2), t, cs2. rewrite walk_app, <- app_assoc.
    repeat split; auto. simpl. exists w1, w2, cs1. auto.
  - destruct (mt r1 (MSt p s cs) k) eqn:E.
    + inversion H; subst.
      destruct (IH1 _ _ _ _ _ E) as (w & t & cs' & -> & L1 & H1).
      exists w, t, cs'. simpl. auto.
    + destruct (IH2 _ _ _ _ _ H) as (w & t & cs' & -> & L2 & H2).
      exists w, t, cs'. simpl. auto.
  - destruct (rep_sound _ _ _ _ _ _ H) as (w & s' & -> & Hlo & Hw & Hk).
    exists w, s', cs. simpl. auto.
  - destruct (IH _ _ _ _ _ H) as (w & t & cs1 & -> & L1 & H1).
    simpl in H1. rewrite firstn_consumed in H1.
    exists w, t, ((n, w) :: cs1). simpl. eauto.
  - destruct p; [discriminate|].
    exists [], s, cs. simpl. auto.
  - destruct s; [|discriminate].
    exists [], [], cs. simpl. auto.
  - destruct (xorb _ _) eqn:E; [|discriminate].
    exists [], s, cs. simpl. auto.
Qed.
End Soundness.

Lemma match_at_sound r p s m :
  match_at r p s = Some m ->
  exists w t cs', s = w ++ t /\ lang r p w t [] cs' /\ m = MRes w cs'.
Proof.
  unfold match_at. intros H.
  destruct (mt_sound _ _ _ _ _ H) as (w & t & cs' & -> & Hl & E).
  exists w, t, cs'. repeat split; auto.
  simpl in E. rewrite firstn_consumed in E. now inversion E.
Qed.

Lemma match_at_prefix r p s m :
  match_at r p s = Some m -> exists t, s = m_text m ++ t.
Proof.
  intros H. destruct (match_at_sound _ _ _ H) as (w & t & cs' & -> & _ & ->).
  now exists t.
Qed.

Lemma match_at_skipn r p s m :
  match_at r p s = Some m -> m_text m ++ skipn (length (m_text m)) s = s.
Proof.
  intros H. destruct (match_at_prefix _ _ _ H) as (t & Ht).
  rewrite Ht. now rewrite skipn_app, Nat.sub_diag, skipn_all.
Qed.

(** [search] splits the text around the leftmost match. *)
Lemma search_split r :
  forall s p pre m post,
    search r p s = Some (pre, m, post) ->
    s = pre ++ m_text m ++ post
    /\ match_at r (walk p pre) (m_text m ++ post) = Some m.
Proof.
  induction s as [|x s IH]; intros p pre m post H; simpl in H.
  - destruct (match_at r p []) eqn:E; [|discriminate].
    inversion H; subst.
    pose proof (match_at_skipn _ _ _ E) as Hs.
    simpl. rewrite Hs. now split.
  - destruct (match_at r p (x :: s)) eqn:E.
    + inversion H; subst.
      pose proof (match_at_skipn _ _ _ E) as Hs.
      simpl. rewrite Hs. now split.
    + destruct (search r (Some x) s) as [[[pre' m'] post']|] eqn:E'; [|discriminate].
      inversion H; subst.
      destruct (IH _ _ _ _ E') as (-> & Hm). simpl. now split.
Qed.

(** A pattern that opens with [^] matches at the start of the text only. *)
Lemma search_bol_later r :
  forall s x, search (Seq Bol r) (Some x) s = None.
Proof.
  induction s as [|y s IH]; intros x; simpl; [reflexivity|].
  now rewrite IH.
Qed.

Lemma exec_bol r s pre m post :
  exec (Seq Bol r) s = Some (pre, m, post) ->
  pre = [] /\ match_at (Seq Bol r) None s = Some m.
Proof.
  unfold exec. destruct s as [|x s]; simpl.
  - destruct (match_at (Seq Bol r) None []) eqn:E; [|discriminate].
    intros H; inversion H; subst. now split.
  - destruct (match_at (Seq Bol r) None (x :: s)) eqn:E.
    + intros H; inversion H; subst. now split.
    + now rewrite search_bol_later.
Qed.

(** ** The matcher is complete for [lang]

    Whenever the pattern can be matched so that the continuation
    succeeds, the matcher succeeds too (possibly on a match of higher
    priority). *)

Section Completeness.
Variable A : Type.

Lemma star_complete (c : cls) (g : bool) :
  forall w p t (k : option ascii -> str -> option A),
    forallb c w = true -> k (walk p w) t <> None ->
    star c g p (w ++ t) k <> None.
Proof.
  induction w as [|x w IH]; intros p t k Hc Hk.
  - simpl app. simpl in Hk. destruct g.
    + destruct t as [|y t]; simpl; [assumption|].
      destruct (c y); [|assumption].
      destruct (star c true (Some y) t k); [discriminate|assumption].
    + destruct t as [|y t]; simpl; destruct (k p _); congruence.
  - simpl in Hc. apply andb_prop in Hc. destruct Hc as [Hx Hw].
    specialize (IH (Some x) t k Hw Hk).
    simpl app. destruct g; simpl; rewrite Hx.
    + destruct (star c true (Some x) (w ++ t) k); [discriminate|congruence].
    + destruct (k p (x :: w ++ t)); [discriminate|assumption].
Qed.

Lemma rep_complete (c : cls) (g : bool) :
  forall lo w p t (k : option ascii -> str -> option A),
    lo <= length w -> forallb c w = true -> k (walk p w) t <> None ->
    rep c g lo p (w ++ t) k <> None.
Proof.
  induction lo as [|lo IH]; intros w p t k Hlo Hc Hk.
  - simpl. now apply star_complete.
  - destruct w as [|x w]; [simpl in Hlo; lia|].
    simpl in Hc. apply andb_prop in Hc. destruct Hc as [Hx Hw].
    simpl. rewrite Hx. apply IH; auto. simpl in Hlo. lia.
Qed.

Lemma mt_complete :
  forall r p w t cs cs' (k : mst -> option A),
    lang r p w t cs cs' -> k (MSt (walk p w) t cs') <> None ->
    mt r (MSt p (w ++ t) cs) k <> None.
Proof.
  induction r as [|c|r1 IH1 r2 IH2|r1 IH1 r2 IH2|g lo c|n r IH| | |];
    intros p w t cs cs' k H Hk; simpl in H.
  - destruct H as [-> ->]. exact Hk.
  - destruct H as (x & -> & Hx & ->). simpl. now rewrite Hx.
  - destruct H as (w1 & w2 & cs1 & -> & H1 & H2).
    simpl. rewrite <- app_assoc.
    apply IH1 with (cs' := cs1); [assumption|].
    apply IH2 with (cs' := cs'); [assumption|]. now rewrite <- walk_app.
  - simpl. destruct H as [H | H].
    + specialize (IH1 _ _ _ _ _ _ H Hk).
      destruct (mt r1 _ k); [discriminate|congruence].
    + specialize (IH2 _ _ _ _ _ _ H Hk).
      destruct (mt r1 _ k); [discriminate|assumption].
  - destruct H as (Hlo & Hc & ->). simpl. now apply rep_complete.
  - destruct H as (cs1 & H & ->). simpl.
    apply IH with (cs' := cs1); [assumption|].
    simpl. now rewrite firstn_consumed.
  - destruct H as (-> & -> & ->). exact Hk.
  - destruct H as (-> & -> & ->). exact Hk.
  - destruct H as (-> & Hx & ->). simpl. now rewrite Hx.
Qed.
End Completeness.

Lemma match_at_complete r p w t cs' :
  lang r p w t [] cs' -> match_at r p (w ++ t) <> None.
Proof.
  intros H. unfold match_at. eapply mt_complete; [exact H|discriminate].
Qed.

(** ** [includes], [trim] and letter case *)

Lemma toLowerCase_app u v :
  toLowerCase (u ++ v) = toLowerCase u ++ toLowerCase v.
Proof. apply map_app. Qed.

Lemma starts_with_prefix : forall n v, starts_with n (n ++ v) = true.
Proof.
  induction n as [|a n IH]; intros v; simpl; [reflexivity|].
  now rewrite Ascii.eqb_refl, IH.
Qed.



Lemma includes_intro : forall u n v, includes (u ++ n ++ v) n = true.
Proof.
  induction u as [|a u IH]; intros n v.
  - simpl. destruct (n ++ v) eqn:E; simpl; rewrite <- E, starts_with_prefix;
      reflexivity.
  - simpl. rewrite IH. apply orb_true_r.
Qed.




Lemma trimStart_split : forall s, exists ws, s = ws ++ trimStart s.
Proof.
  induction s as [|x s IH]; simpl.
  - now exists [].
  - destruct (is_space x).
    + destruct IH as (ws & E). exists (x :: ws). simpl. now rewrite <- E.
    + now exists [].
Qed.

Lemma trimEnd_split s : exists ws, s = trimEnd s ++ ws.
Proof.
  unfold trimEnd. destruct (trimStart_split (rev s)) as (ws & E).
  exists (rev ws). rewrite <- rev_app_distr, <- E. now rewrite rev_involutive.
Qed.

(** The trimmed text is a part of the text. *)
Lemma trim_part s : exists a b, s = a ++ trim s ++ b.
Proof.
  unfold trim. destruct (trimStart_split s) as (a & Ea).
  destruct (trimEnd_split (trimStart s)) as (b & Eb).
  exists a, b. now rewrite <- Eb.
Qed.

(** ** The toggle [calmTone] *)

(** C10: two option records that differ only in [calmTone] give the same
    result (text, change log and suggestions) on every text and every
    list of style examples: the engine never reads the toggle. *)
Theorem calmTone_is_never_read (txt : str) (o1 o2 : RewriteOptions)
        (examples : list StyleExample) :
  same_but_calmTone o1 o2 ->
  rewrite txt o1 examples = rewrite txt o2 examples.
Proof.
  destruct o1, o2. unfold same_but_calmTone. simpl.
  intros (? & ? & ? & ? & ? & ? & ? & ? & ?). subst. reflexivity.
Qed.

Lemma calmTone_is_never_read_witness :
  same_but_calmTone baseOptions (withCalmTone false baseOptions)
  /\ rewrite protectedInput baseOptions [shortExample]
     = rewrite protectedInput (withCalmTone false baseOptions) [shortExample].
Proof.
  assert (H : same_but_calmTone baseOptions (withCalmTone false baseOptions)).
  { unfold same_but_calmTone. simpl. repeat split; reflexivity. }
  split; [exact H|].
  exact (calmTone_is_never_read protectedInput [shortExample] H).
Defined.

(** ** The passive-to-active stage: when nothing is converted *)

(** C5: with [owner] unset or [clearOwnership] off the stage returns the
    sentence unchanged without a suggestion and pushes nothing; with an
    owner, [clearOwnership] on and neither strict pattern matching, it
    returns the sentence unchanged, with the one withheld-conversion
    suggestion under [auditSafeMode] and with none otherwise. *)
Theorem passive_stage_without_conversion (s : str) (o : RewriteOptions)
        (j : Journal) :
  activeVoice o = true ->
  let r := convertPassiveToActiveSafe s (owner o) (clearOwnership o)
             (auditSafeMode o) in
  (owner_unset (owner o) \/ clearOwnership o = false ->
     r = noConversion s None /\ stageVoice o s j = (s, j))
  /\ (forall own,
        owner o = Some own -> own <> [] -> clearOwnership o = true ->
        matchOnce re_negated s = None -> matchOnce re_plain s = None ->
        (auditSafeMode o = true ->
           r = noConversion s (Some withheld)
           /\ stageVoice o s j
              = (s, {| j_changeLog := j_changeLog j;
                       j_suggestions := j_suggestions j ++ [withheld] |}))
        /\ (auditSafeMode o = false ->
              r = noConversion s None /\ stageVoice o s j = (s, j))).
Proof.
  intros Hav r. subst r. unfold stageVoice. rewrite Hav.
  unfold convertPassiveToActiveSafe. split.
  - intros [[Ho | Ho] | Hc].
    + rewrite Ho. now split.
    + rewrite Ho. now split.
    + destruct (owner o) as [own|]; [|now split].
      rewrite Hc, orb_true_r. now split.
  - intros own Ho Hne Hc H1 H2. rewrite Ho, Hc.
    destruct own as [|x own]; [congruence|]. simpl negb. simpl orb. cbv iota.
    unfold strict, firstStrict. rewrite H1, H2.
    split; intros Ha; rewrite Ha; now split.
Qed.

Lemma passive_stage_without_conversion_witness :
  let s := L "Access reviews may not detect unauthorised access promptly." in
  let j := {| j_changeLog := []; j_suggestions := [] |} in
  convertPassiveToActiveSafe s (Some (L "Operations")) true true
    = noConversion s (Some withheld)
  /\ stageVoice baseOptions s j
     = (s, {| j_changeLog := []; j_suggestions := [withheld] |}).
Proof.
  intros s j.
  refine (proj1 (proj2 (passive_stage_without_conversion s baseOptions j eq_refl)
                   (L "Operations") eq_refl _ eq_refl _ _) eq_refl).
  - discriminate.
  - vm_compute. reflexivity.
  - vm_compute. reflexivity.
Defined.

(** ** Spelling: the dictionary is symmetric *)

Lemma roundTrips_all : forallb roundTrips ukToUs = true.
Proof. vm_compute. reflexivity. Qed.

(** C7: for every pair of the dictionary, standardising the UK form to
    en-US gives the US form and standardising that to en-GB gives the UK
    form back, and the same from the US form; the reversed table holds
    the reversed pair. *)
Theorem spelling_round_trip (uk us : str) :
  In (uk, us) ukToUs ->
  value (standardiseSpelling uk EnUS) = us
  /\ value (standardiseSpelling (value (standardiseSpelling uk EnUS)) EnGB) = uk
  /\ value (standardiseSpelling us EnGB) = uk
  /\ value (standardiseSpelling (value (standardiseSpelling us EnGB)) EnUS) = us
  /\ In (us, uk) usToUk.
Proof.
  intros H.
  pose proof (proj1 (forallb_forall roundTrips ukToUs) roundTrips_all _ H) as R.
  unfold roundTrips in R. simpl fst in R. simpl snd in R.
  apply andb_prop in R. destruct R as [R R3].
  apply andb_prop in R. destruct R as [R1 R2].
  apply str_eqb_eq in R1. apply str_eqb_eq in R2.
  rewrite R1, R2. repeat split; auto.
  apply existsb_exists in R3. destruct R3 as ([a b] & Hin & Hab).
  apply andb_prop in Hab. destruct Hab as [Ha Hb].
  apply str_eqb_eq in Ha. apply str_eqb_eq in Hb. simpl in Ha, Hb. now subst.
Qed.

Lemma spelling_round_trip_witness :
  In (L "unauthorised", L "unauthorized") ukToUs
  /\ value (standardiseSpelling (L "unauthorised") EnUS) = L "unauthorized"
  /\ value (standardiseSpelling (L "unauthorized") EnGB) = L "unauthorised".
Proof.
  assert (H : In (L "unauthorised", L "unauthorized") ukToUs).
  { left. reflexivity. }
  destruct (spelling_round_trip H) as (H1 & _ & H3 & _).
  exact (conj H (conj H1 H3)).
Defined.

(** ** The journal only grows *)

Lemma appendJournal_empty_r j : appendJournal j emptyJournal = j.
Proof. destruct j. unfold appendJournal. simpl. now rewrite !app_nil_r. Qed.

Lemma appendJournal_assoc j k l :
  appendJournal j (appendJournal k l) = appendJournal (appendJournal j k) l.
Proof. unfold appendJournal. simpl. now rewrite !app_assoc. Qed.

Lemma appendOnly_ret {A} (a : A) : appendOnly (ret a).
Proof. intros j. unfold ret. simpl. now rewrite appendJournal_empty_r. Qed.

Lemma appendOnly_bind {A B} (m : M A) (f : A -> M B) :
  appendOnly m -> (forall a, appendOnly (f a)) -> appendOnly (bind m f).
Proof.
  intros Hm Hf j. unfold bind.
  rewrite (Hm j). destruct (m emptyJournal) as [a ja] eqn:E. simpl.
  rewrite (Hf a (appendJournal j ja)), (Hf a ja). simpl.
  now rewrite appendJournal_assoc.
Qed.

Lemma appendOnly_pushChange ty d : appendOnly (pushChange ty d).
Proof.
  intros j. unfold pushChange, appendJournal. simpl. now rewrite app_nil_r.
Qed.

Lemma appendOnly_pushSuggestion s : appendOnly (pushSuggestion s).
Proof.
  intros j. unfold pushSuggestion, appendJournal. simpl. now rewrite app_nil_r.
Qed.

Lemma appendOnly_forEach {A} (f : A -> M unit) l :
  (forall a, appendOnly (f a)) -> appendOnly (forEach f l).
Proof.
  intros Hf. induction l as [|a l IH]; simpl.
  - apply appendOnly_ret.
  - apply appendOnly_bind; auto.
Qed.

Lemma appendOnly_mapM {A B} (f : A -> M B) l :
  (forall a, appendOnly (f a)) -> appendOnly (mapM f l).
Proof.
  intros Hf. induction l as [|a l IH]; simpl.
  - apply appendOnly_ret.
  - apply appendOnly_bind; auto. intros b.
    apply appendOnly_bind; auto. intros bs. apply appendOnly_ret.
Qed.

Lemma appendOnly_when b (m : M unit) : appendOnly m -> appendOnly (when b m).
Proof. destruct b; simpl; auto. intros _. apply appendOnly_ret. Qed.

Create HintDb journal.

#[local] Hint Resolve appendOnly_ret appendOnly_bind appendOnly_pushChange
  appendOnly_pushSuggestion appendOnly_forEach appendOnly_mapM
  appendOnly_when : journal.

Lemma appendOnly_stageConcise o s : appendOnly (stageConcise o s).
Proof.
  unfold stageConcise. destruct (concise o); auto with journal.
  destruct (s_changed _); auto with journal.
Qed.

Lemma appendOnly_stageVocabulary s : appendOnly (stageVocabulary s).
Proof. unfold stageVocabulary. destruct (changed _); auto with journal. Qed.

Lemma appendOnly_stageSpelling o s : appendOnly (stageSpelling o s).
Proof.
  unfold stageSpelling.
  destruct (Types.standardiseSpelling o); auto with journal.
  destruct (changed _); auto with journal.
Qed.

Lemma appendOnly_stageVoice o s : appendOnly (stageVoice o s).
Proof.
  unfold stageVoice. destruct (activeVoice o); auto with journal.
  destruct (converted _); auto with journal.
  destruct (suggestion _) as [sg|]; auto with journal.
  destruct (truthy sg); auto with journal.
Qed.

Lemma appendOnly_stageImpact o s : appendOnly (stageImpact o s).
Proof.
  unfold stageImpact. destruct (sharperImpact o); auto with journal.
  destruct (impactSuggestionOnly _ _); auto with journal.
Qed.

#[local] Hint Resolve appendOnly_stageConcise appendOnly_stageVocabulary
  appendOnly_stageSpelling appendOnly_stageVoice appendOnly_stageImpact
  : journal.

Lemma appendOnly_rewriteSentence o examples s :
  appendOnly (rewriteSentence o examples s).
Proof.
  unfold rewriteSentence.
  repeat (apply appendOnly_bind; [auto with journal|intros ?]).
  apply appendOnly_ret.
Qed.

Lemma appendOnly_rewriteBlock block o examples :
  appendOnly (rewriteBlock block o examples).
Proof.
  unfold rewriteBlock. destruct (negb (truthy (trim block))); auto with journal.
  apply appendOnly_bind; auto with journal.
  apply appendOnly_mapM. intros s. apply appendOnly_rewriteSentence.
Qed.

(** What [mapM] appends is what its elements append, in order. *)
Lemma mapM_changeLog {A B} (f : A -> M B) l j :
  (forall a, appendOnly (f a)) ->
  j_changeLog (snd (mapM f l j))
  = j_changeLog j ++ flat_map (fun a => j_changeLog (snd (f a emptyJournal))) l.
Proof.
  intros Hf. revert j. induction l as [|a l IH]; intros j; simpl.
  - unfold ret. simpl. now rewrite app_nil_r.
  - unfold bind. rewrite (Hf a j).
    destruct (f a emptyJournal) as [b jb]. simpl.
    destruct (mapM f l (appendJournal j jb)) as [bs j'] eqn:E.
    unfold ret. simpl.
    change j' with (snd (bs, j')). rewrite <- E, IH. simpl.
    now rewrite app_assoc.
Qed.

Lemma rewriteBlock_changeLog block o examples :
  j_changeLog (snd (rewriteBlock block o examples emptyJournal))
  = blockLog o examples block.
Proof.
  unfold rewriteBlock, blockLog, blockSentences.
  destruct (negb (truthy (trim block))); [reflexivity|].
  unfold bind.
  destruct (mapM _ _ emptyJournal) as [bs j'] eqn:E.
  unfold ret. simpl.
  change j' with (snd (bs, j')). rewrite <- E.
  rewrite mapM_changeLog by (intros; apply appendOnly_rewriteSentence).
  reflexivity.
Qed.

Lemma rewriteBlocks_changeLog txt o examples :
  j_changeLog (snd (rewriteBlocks txt o examples))
  = flat_map (blockLog o examples) (splitParagraphs txt).
Proof.
  unfold rewriteBlocks.
  rewrite mapM_changeLog by (intros; apply appendOnly_rewriteBlock).
  simpl. apply flat_map_ext. intros b. apply rewriteBlock_changeLog.
Qed.

(** ** [dedupe] *)

Lemma existsb_str_eqb k seen : existsb (str_eqb k) seen = true <-> In k seen.
Proof.
  rewrite existsb_exists. split.
  - intros (x & Hx & E). apply str_eqb_eq in E. now subst.
  - intros H. exists k. split; [assumption|apply str_eqb_refl].
Qed.

Lemma truthy_false s : truthy s = false <-> s = [].
Proof. destruct s; simpl; split; congruence. Qed.

Lemma dedupeFrom_In seen : forall items x,
  In x (dedupeFrom seen items)
  <-> x <> [] /\ In x (map trim items) /\ ~ In x seen.
Proof.
  intros items. revert seen.
  induction items as [|s items IH]; intros seen x; simpl.
  - tauto.
  - destruct (truthy (trim s)) eqn:T; simpl.
    + destruct (existsb (str_eqb (trim s)) seen) eqn:E.
      * apply existsb_str_eqb in E. rewrite IH. split.
        -- tauto.
        -- intros (Hx & [Hs | Hin] & Hn); [subst; tauto | tauto].
      * assert (Hns : ~ In (trim s) seen).
        { intros H. apply existsb_str_eqb in H. congruence. }
        simpl. rewrite IH. simpl. split.
        -- intros [<- | (Hx & Hin & Hn)].
           ++ split; [destruct (trim s); [discriminate|congruence] | tauto].
           ++ tauto.
        -- intros (Hx & [Hs | Hin] & Hn); [now left|].
           destruct (list_eq_dec ascii_dec (trim s) x); [now left|].
           right. tauto.
    + apply truthy_false in T. rewrite IH. split.
      * tauto.
      * intros (Hx & [Hs | Hin] & Hn); [congruence | tauto].
Qed.

Lemma dedupeFrom_NoDup : forall items seen, NoDup (dedupeFrom seen items).
Proof.
  induction items as [|s items IH]; intros seen; simpl.
  - constructor.
  - destruct (negb (truthy (trim s)) || existsb (str_eqb (trim s)) seen).
    + apply IH.
    + constructor; [|apply IH].
      rewrite dedupeFrom_In. simpl. tauto.
Qed.

Lemma dedupeFrom_snoc : forall items seen x,
  dedupeFrom seen (items ++ [x])
  = dedupeFrom seen items
    ++ (if negb (truthy (trim x))
           || existsb (str_eqb (trim x)) (dedupeFrom seen items ++ seen)
        then [] else [trim x]).
Proof.
  induction items as [|s items IH]; intros seen x; simpl.
  - destruct (negb (truthy (trim x)) || existsb (str_eqb (trim x)) seen);
      reflexivity.
  - destruct (negb (truthy (trim s)) || existsb (str_eqb (trim s)) seen) eqn:E.
    + apply IH.
    + simpl. rewrite IH. f_equal. f_equal.
      destruct (negb (truthy (trim x))); [reflexivity|]. simpl.
      rewrite !existsb_app. simpl.
      destruct (str_eqb (trim x) (trim s)),
        (existsb (str_eqb (trim x)) (dedupeFrom (trim s :: seen) items)),
        (existsb (str_eqb (trim x)) seen); reflexivity.
Qed.

(** ** The text does not depend on the journal *)

Lemma appendOnly_fst {A} (m : M A) j :
  appendOnly m -> fst (m j) = fst (m emptyJournal).
Proof. intros H. now rewrite (H j). Qed.

Lemma bind_fst {A B} (m : M A) (f : A -> M B) j :
  appendOnly m -> (forall a, appendOnly (f a)) ->
  fst (bind m f j) = fst (f (fst (m emptyJournal)) emptyJournal).
Proof.
  intros Hm Hf. unfold bind. rewrite (Hm j).
  destruct (m emptyJournal) as [a ja]. simpl. now apply appendOnly_fst.
Qed.

Lemma mapM_fst {A B} (f : A -> M B) l :
  (forall a, appendOnly (f a)) ->
  forall j, fst (mapM f l j) = map (fun a => fst (f a emptyJournal)) l.
Proof.
  intros Hf. induction l as [|a l IH]; intros j; [reflexivity|].
  assert (Hl : appendOnly (mapM f l)) by now apply appendOnly_mapM.
  simpl mapM. rewrite bind_fst.
  - rewrite bind_fst.
    + simpl. now rewrite IH.
    + exact Hl.
    + intros bs. apply appendOnly_ret.
  - apply Hf.
  - intros b. apply appendOnly_bind; [exact Hl|]. intros bs. apply appendOnly_ret.
Qed.

Lemma rewriteSentence_text o examples s j :
  fst (rewriteSentence o examples s j) = sentenceText o examples s.
Proof.
  rewrite appendOnly_fst by apply appendOnly_rewriteSentence.
  unfold rewriteSentence, sentenceText, finish, voiced, prepared.
  repeat (rewrite bind_fst;
          [| auto with journal
           | intros; repeat (apply appendOnly_bind; [auto with journal|intros ?]);
             apply appendOnly_ret]).
  reflexivity.
Qed.

Lemma rewriteBlock_text block o examples j :
  fst (rewriteBlock block o examples j) = blockText o examples block.
Proof.
  unfold rewriteBlock, blockText, blockSentences.
  destruct (negb (truthy (trim block))); [reflexivity|].
  rewrite bind_fst; auto with journal.
  - simpl. rewrite mapM_fst by (intros; apply appendOnly_rewriteSentence).
    do 2 f_equal. apply map_ext. intros s. apply rewriteSentence_text.
  - apply appendOnly_mapM. intros; apply appendOnly_rewriteSentence.
Qed.

(** The rewritten text is assembled from the texts of the blocks, and
    these from the texts of their sentences. *)
Lemma rewrite_text txt o examples :
  rewrittenText (rewrite txt o examples)
  = trim (join [LF; LF] (map (blockText o examples) (splitParagraphs txt))).
Proof.
  unfold rewrite, rewriteBlocks.
  match goal with
  | |- context [mapM ?f ?l ?j] =>
      pose proof (mapM_fst f l (fun b => appendOnly_rewriteBlock b o examples) j) as H;
      destruct (mapM f l j) as [bs j']
  end.
  simpl in *. rewrite H. do 2 f_equal. apply map_ext. intros b.
  apply rewriteBlock_text.
Qed.

(** ** Aggregation of suggestions and of the change log *)

(** C6: the suggestions of a result are the first twelve of the
    deduplicated raw suggestions; deduplication keeps each non-empty
    trimmed text once, and a push either appends the trimmed text at the
    end (first seen) or is dropped (seen before); the list has at most
    twelve entries, and exactly twelve when more than twelve distinct
    ones were produced.  The change log is the concatenation, block by
    block and sentence by sentence, of the entries each sentence pushed:
    nothing is dropped, merged or cut off. *)
Theorem suggestions_capped_changeLog_whole (txt : str) (o : RewriteOptions)
        (examples : list StyleExample) :
  let r := rewrite txt o examples in
  let raw := j_suggestions (snd (rewriteBlocks txt o examples)) in
  suggestions r = firstn 12 (dedupe raw)
  /\ NoDup (suggestions r)
  /\ (forall x, In x (dedupe raw) <-> x <> [] /\ In x (map trim raw))
  /\ (forall l x,
        dedupe (l ++ [x])
        = dedupe l ++ (if negb (truthy (trim x))
                          || existsb (str_eqb (trim x)) (dedupe l)
                       then [] else [trim x]))
  /\ length (suggestions r) <= 12
  /\ (12 < length (dedupe raw) -> length (suggestions r) = 12)
  /\ changeLog r = flat_map (blockLog o examples) (splitParagraphs txt).
Proof.
  intros r raw. subst r raw. unfold rewrite.
  pose proof (rewriteBlocks_changeLog txt o examples) as Hlog.
  destruct (rewriteBlocks txt o examples) as [bs j].
  cbn [suggestions changeLog snd] in *.
  split; [reflexivity|].
  split.
  { assert (H : NoDup (dedupe (j_suggestions j))) by apply dedupeFrom_NoDup.
    rewrite <- (firstn_skipn 12) in H. now apply NoDup_app_remove_r in H. }
  split.
  { intros x. unfold dedupe. rewrite dedupeFrom_In. simpl. tauto. }
  split.
  { intros l x. unfold dedupe. rewrite dedupeFrom_snoc.
    now rewrite app_nil_r. }
  split.
  { apply firstn_le_length. }
  split.
  { intros H. rewrite length_firstn. lia. }
  exact Hlog.
Qed.

Lemma suggestions_capped_changeLog_whole_witness :
  12 < length (dedupe (j_suggestions (snd (rewriteBlocks manyHedges baseOptions []))))
  /\ length (suggestions (rewrite manyHedges baseOptions [])) = 12.
Proof.
  assert (H : 12 < length (dedupe (j_suggestions
                 (snd (rewriteBlocks manyHedges baseOptions []))))).
  { vm_compute. lia. }
  split; [exact H|].
  exact (proj1 (proj2 (proj2 (proj2 (proj2 (proj2
           (suggestions_capped_changeLog_whole manyHedges baseOptions [])))))) H).
Defined.

(** The same replacement in two sentences is logged twice. *)
Example changeLog_keeps_duplicates :
  map description (changeLog (rewrite manyHedges baseOptions []))
  = [ L "Replaced " ++ quoted (L "in order to") ++ L " with " ++ quoted (L "to");
      L "Replaced " ++ quoted (L "in order to") ++ L " with " ++ quoted (L "to") ].
Proof. vm_compute. reflexivity. Qed.

(** ** Protected spans *)

(** C1, at the input of the repository's own test: the e-mail address is
    a protected span of the input, and the rewritten text no longer
    contains it, because the spacing pass puts a space after its dot. *)
Theorem protected_span_broken_by_spacing :
  existsb (fun c => match c with
                    | ProtectedSpan v => str_eqb v (L "ops@company.com")
                    | TextChunk _ => false
                    end) (protectTokens protectedInput) = true
  /\ includes protectedInput (L "ops@company.com") = true
  /\ includes (normaliseSpacing protectedInput) (L "ops@company.com") = false
  /\ rewrittenText (rewrite protectedInput (withVariant EnUS baseOptions) [])
     = L "Email ops@company. Com regarding unauthorized access. See https://example. Com/authorisation. Path C:\Temp\authorisation\file. Txt. Use `authorisation` as the config key."
  /\ includes (rewrittenText (rewrite protectedInput (withVariant EnUS baseOptions) []))
              (L "ops@company.com") = false.
Proof. vm_compute. repeat split; reflexivity. Qed.

(** ** Qualifiers *)

Lemma join_part sep q : forall l, In q l -> part q (join sep l).
Proof.
  induction l as [|a l IH]; intros H; [contradiction|].
  destruct H as [-> | H].
  - destruct l as [|b l]; simpl.
    + exists [], []. now rewrite app_nil_r.
    + exists [], (sep ++ join sep (b :: l)). reflexivity.
  - destruct l as [|b l]; [contradiction|].
    destruct (IH H) as (u & v & E).
    exists (a ++ sep ++ u), v. change (join sep (a :: b :: l))
      with (a ++ sep ++ join sep (b :: l)).
    rewrite E. now rewrite <- !app_assoc.
Qed.

Lemma includes_of_part q s : part q s -> includes s q = true.
Proof. intros (u & v & ->). apply includes_intro. Qed.

(** C4: the hint stage only reads the sentence: it yields at most one
    suggestion, which names every term of the list found in the
    lower-cased sentence.  But at a sentence whose agent phrase holds
    the hedge, the converted sentence has lost it with the whole tail
    after "by". *)
Theorem qualifier_lost_with_by_tail :
  (forall s,
     length (findQualifierHints s) <= 1
     /\ forall h q,
          In h (findQualifierHints s) -> In q qualifiers ->
          includes (toLowerCase s) q = true -> includes h q = true)
  /\ findQualifierHints hedgedInput
     = [ L "Qualification detected (may). Audit-safe default is to keep it unless evidence supports a stronger statement." ]
  /\ rewrittenText (rewrite hedgedInput baseOptions [])
     = L "Operations completed Access reviews."
  /\ includes (toLowerCase (rewrittenText (rewrite hedgedInput baseOptions [])))
              (L "may") = false.
Proof.
  split.
  - intros s. unfold findQualifierHints.
    set (found := filter (fun q => includes (toLowerCase s) q) qualifiers).
    split; [destruct found; simpl; lia|].
    intros h q Hh Hq Hs.
    assert (Hf : In q found) by (apply filter_In; now split).
    destruct found as [|f0 found']; [contradiction|].
    destruct Hh as [<- | []].
    apply includes_of_part. apply (join_part (L ", ")) in Hf.
    destruct Hf as (u & v & E). rewrite E.
    exists (L "Qualification detected (" ++ u),
      (v ++ L "). Audit-safe default is to keep it unless evidence supports a stronger statement.").
    now rewrite <- !app_assoc.
  - vm_compute. repeat split; reflexivity.
Qed.

(** ** Casing and terminal punctuation *)

(** C8, at a long sentence split by the style heuristic: the text after
    the new full stop starts in lower case, and running the pipeline on
    the output changes that letter. *)
Theorem split_sentence_starts_lower_case :
  let out := rewrittenText (rewrite longInput baseOptions [shortExample]) in
  out = L "The team reviewed the access logs for every system in scope. the findings went to the owners of each system so that follow up actions are planned for the next quarter."
  /\ splitSentences out
     = [ L "The team reviewed the access logs for every system in scope.";
         L "the findings went to the owners of each system so that follow up actions are planned for the next quarter." ]
  /\ rewrittenText (rewrite out baseOptions [shortExample])
     = L "The team reviewed the access logs for every system in scope. The findings went to the owners of each system so that follow up actions are planned for the next quarter."
  /\ rewrittenText (rewrite out baseOptions [shortExample]) <> out.
Proof.
  vm_compute. repeat split; try reflexivity. discriminate.
Qed.

(** ** The style heuristic, as worded *)

(** C9 fails as worded: on a long sentence holding both ", and " and
    ", which " the engine substitutes both, where the wording lets the
    first applicable pattern win. *)
Lemma style_split_is_not_single :
  tooLong (wordCount twoCommaInput) (averageLength [shortExample]) = true
  /\ applyStyleHeuristics twoCommaInput [shortExample]
     = L "The team reviewed the access logs for every system in scope. the findings were shared with the owners. This led to several follow up actions being planned for the next quarter"
  /\ singleSplit twoCommaInput
     = L "The team reviewed the access logs for every system in scope. the findings were shared with the owners, which led to several follow up actions being planned for the next quarter"
  /\ applyStyleHeuristics twoCommaInput [shortExample] <> singleSplit twoCommaInput.
Proof.
  vm_compute. repeat split; try reflexivity. discriminate.
Qed.

(** ** Literal patterns *)

Lemma mt_seqs_cons A r l st (k : mst -> option A) :
  mt (seqs (r :: l)) st k = mt r st (fun st' => mt (seqs l) st' k).
Proof. destruct l; reflexivity. Qed.

Lemma starts_with_ci_length : forall w s,
  starts_with_ci w s = true -> length w <= length s.
Proof.
  induction w as [|a w IH]; intros [|x s] H; simpl in *; try lia; try discriminate.
  apply andb_prop in H. destruct H as [_ H]. apply IH in H. lia.
Qed.

(** The matcher on a literal under the [i] flag is the prefix test. *)
Lemma mt_liti A : forall w p s cs (k : mst -> option A),
  mt (liti w) (MSt p s cs) k
  = if starts_with_ci w s
    then k (MSt (walk p (firstn (length w) s)) (skipn (length w) s) cs)
    else None.
Proof.
  unfold liti. induction w as [|a w IH]; intros p s cs k.
  - reflexivity.
  - simpl map. rewrite mt_seqs_cons. simpl.
    destruct s as [|x s]; [reflexivity|].
    destruct (Ascii.eqb (lower_char x) (lower_char a)); [|reflexivity].
    simpl. apply IH.
Qed.

Lemma match_at_liti w p s :
  match_at (liti w) p s
  = if starts_with_ci w s then Some (MRes (firstn (length w) s) []) else None.
Proof.
  unfold match_at. rewrite mt_liti.
  destruct (starts_with_ci w s) eqn:E; [|reflexivity].
  simpl. apply starts_with_ci_length in E.
  rewrite length_skipn. do 3 f_equal. lia.
Qed.

(** Without the [g] flag, replacing a literal is the substitution at its
    first occurrence. *)
Lemma search_liti w rep : forall s p,
  match search (liti w) p s with
  | Some (pre, m, post) => pre ++ rep ++ post
  | None => s
  end = substFirstCI w rep s.
Proof.
  induction s as [|x s IH]; intros p.
  - simpl. rewrite match_at_liti.
    destruct (starts_with_ci w []) eqn:E; [|reflexivity].
    pose proof (starts_with_ci_length _ _ E) as Hl. simpl in Hl.
    destruct w; [|simpl in Hl; lia]. reflexivity.
  - simpl search. rewrite match_at_liti. simpl substFirstCI.
    destruct (starts_with_ci w (x :: s)) eqn:E.
    + pose proof (starts_with_ci_length _ _ E) as Hl.
      cbn [m_text]. rewrite length_firstn, Nat.min_l by assumption. reflexivity.
    + specialize (IH (Some x)).
      destruct (search (liti w) (Some x) s) as [[[pre m] post]|].
      * simpl. now rewrite IH.
      * now rewrite <- IH.
Qed.

Lemma replaceFirst_liti w rep s :
  replaceFirst (liti w) (fun _ => rep) s = substFirstCI w rep s.
Proof. unfold replaceFirst, exec. apply search_liti. Qed.

Lemma substFirstCI_absent pat rep : forall s,
  occurs_ci pat s = false -> substFirstCI pat rep s = s.
Proof.
  induction s as [|x s IH]; simpl; intros H.
  - apply orb_false_elim in H. destruct H as [H _]. now rewrite H.
  - apply orb_false_elim in H. destruct H as [H H']. rewrite H.
    now rewrite IH.
Qed.

Lemma In_firstn {A} (x : A) n l : In x (firstn n l) -> In x l.
Proof.
  intros H. rewrite <- (firstn_skipn n l). apply in_or_app. now left.
Qed.

Lemma filter_firstn_filter {A} (f : A -> bool) n : forall l,
  filter f (firstn n (filter f l)) = firstn n (filter f l).
Proof.
  intros l. apply forallb_filter_id. apply forallb_forall.
  intros x Hx. apply In_firstn in Hx. now apply filter_In in Hx.
Qed.

(** ** The style heuristic, as the engine chains it *)

(** C9, amended: only the first three active examples count; when there
    is one, their average is positive and the word count exceeds both
    1.5 times that average and 22, the sentence gets both substitutions
    in sequence, each at the first occurrence in any letter case (", and "
    by ". ", then ", which " by ". This "); in every other case, and when
    neither text occurs, it is returned unchanged. *)
Theorem style_split_chains_both (s : str) (examples : list StyleExample) :
  let act := firstn 3 (filter isActive examples) in
  applyStyleHeuristics s examples = applyStyleHeuristics s act
  /\ (act <> [] -> tooLong (wordCount s) (averageLength act) = true ->
      applyStyleHeuristics s examples = bothSplits s)
  /\ (act = [] \/ tooLong (wordCount s) (averageLength act) = false ->
      applyStyleHeuristics s examples = s)
  /\ (occurs_ci (L ", and ") s = false -> occurs_ci (L ", which ") s = false ->
      applyStyleHeuristics s examples = s).
Proof.
  intros act.
  assert (Hboth : replaceFirst re_which (fun _ => L ". This ")
                    (replaceFirst re_and (fun _ => L ". ") s) = bothSplits s).
  { unfold re_which, re_and, bothSplits. now rewrite !replaceFirst_liti. }
  assert (Hact : firstn 3 (filter isActive act) = act).
  { subst act. now rewrite filter_firstn_filter, firstn_firstn. }
  unfold applyStyleHeuristics. rewrite Hact. fold act.
  rewrite Hboth.
  split; [reflexivity|]. split; [|split].
  - intros Hne Hlong. destruct act; [congruence|]. now rewrite Hlong.
  - intros [He | Hshort].
    + now rewrite He.
    + destruct act; [reflexivity|]. now rewrite Hshort.
  - intros Ha Hw. destruct act; [reflexivity|].
    destruct (tooLong _ _); [|reflexivity].
    unfold bothSplits. rewrite (substFirstCI_absent _ _ _ Ha).
    now apply substFirstCI_absent.
Qed.

Lemma style_split_chains_both_witness :
  firstn 3 (filter isActive [shortExample]) <> []
  /\ tooLong (wordCount twoCommaInput)
             (averageLength (firstn 3 (filter isActive [shortExample]))) = true
  /\ applyStyleHeuristics twoCommaInput [shortExample] = bothSplits twoCommaInput.
Proof.
  assert (H1 : firstn 3 (filter isActive [shortExample]) <> []).
  { simpl. discriminate. }
  assert (H2 : tooLong (wordCount twoCommaInput)
                 (averageLength (firstn 3 (filter isActive [shortExample]))) = true).
  { vm_compute. reflexivity. }
  split; [exact H1|]. split; [exact H2|].
  exact (proj1 (proj2 (style_split_chains_both twoCommaInput [shortExample])) H1 H2).
Defined.

(** ** What the strict patterns accept *)

Lemma lang_seqs_cons r l p w t cs cs' :
  lang (seqs (r :: l)) p w t cs cs' ->
  exists w1 w2 cs1,
    w = w1 ++ w2 /\ lang r p w1 (w2 ++ t) cs cs1
    /\ lang (seqs l) (walk p w1) w2 t cs1 cs'.
Proof.
  destruct l.
  - simpl. intros H. exists w, [], cs'. rewrite app_nil_r. auto.
  - intros H. exact H.
Qed.

Lemma lang_liti : forall w0 p w t cs cs',
  lang (liti w0) p w t cs cs' ->
  toLowerCase w = toLowerCase w0 /\ cs' = cs.
Proof.
  unfold liti. induction w0 as [|a w0 IH]; intros p w t cs cs' H.
  - simpl in H. destruct H as [-> ->]. auto.
  - simpl map in H. apply lang_seqs_cons in H.
    destruct H as (w1 & w2 & cs1 & -> & (x & -> & Hx & ->) & H2).
    apply IH in H2. destruct H2 as [E ->]. simpl. rewrite E.
    split; [|reflexivity]. f_equal. now apply Ascii.eqb_eq.
Qed.










(** ** Nothing negative is invented *)

Lemma part_trans a b c : part a b -> part b c -> part a c.
Proof.
  intros (x & y & ->) (u & v & ->). exists (u ++ x), (y ++ v).
  now rewrite <- !app_assoc.
Qed.

Lemma part_trim s : part (trim s) s.
Proof. destruct (trim_part s) as (a & b & E). now exists a, b. Qed.















(** ** Running the matcher forward *)



Lemma starts_with_ci_app : forall w0 w t,
  toLowerCase w = toLowerCase w0 -> starts_with_ci w0 (w ++ t) = true.
Proof.
  induction w0 as [|a w0 IH]; intros [|x w] t E; simpl in *;
    try discriminate; try reflexivity.
  inversion E as [[Ex Ew]]. rewrite Ex, Ascii.eqb_refl. simpl. now apply IH.
Qed.








(** A greedy star over text wholly in the class reaches the end. *)
Lemma star_greedy_all A (c : cls) :
  forall s p (k : option ascii -> str -> option A) a,
    forallb c s = true -> k (walk p s) [] = Some a ->
    star c true p s k = Some a.
Proof.
  induction s as [|x s IH]; intros p k a Hc Hk; simpl in *.
  - assumption.
  - apply andb_prop in Hc. destruct Hc as [Hx Hs]. rewrite Hx.
    now rewrite (IH _ _ _ Hs Hk).
Qed.



(** ** The matcher sees its continuation only through its results *)





(** ** The negated pattern on "X was not completed T" *)





Lemma occurs_ci_suffix W : forall a l,
  starts_with_ci W l = true -> occurs_ci W (a ++ l) = true.
Proof.
  induction a as [|y a IH]; intros l H; simpl.
  - destruct l; simpl; now rewrite H.
  - rewrite (IH l H). apply orb_true_r.
Qed.

Lemma trimStart_head : forall s y q, trimStart s = y :: q -> is_space y = false.
Proof.
  induction s as [|x s IH]; intros y q H; simpl in H; [discriminate|].
  destruct (is_space x) eqn:E.
  - now apply IH with q.
  - inversion H; now subst.
Qed.






(** ** The tail after the participle *)

Lemma trimStart_fixed s :
  match s with y :: _ => is_space y = false | [] => True end ->
  trimStart s = s.
Proof. destruct s as [|y s]; simpl; [reflexivity|]. now intros ->. Qed.

Lemma trimStart_snoc y : forall l,
  is_space y = false -> trimStart (l ++ [y]) = trimStart l ++ [y].
Proof.
  intros l Hy. induction l as [|x l IH]; simpl.
  - now rewrite Hy.
  - destruct (is_space x); [assumption|reflexivity].
Qed.

Lemma trimEnd_cons y q :
  is_space y = false -> trimEnd (y :: q) = y :: trimEnd q.
Proof.
  intros Hy. unfold trimEnd. simpl rev.
  rewrite trimStart_snoc by exact Hy. now rewrite rev_app_distr.
Qed.

Lemma trim_head T y q : trim T = y :: q -> is_space y = false.
Proof.
  unfold trim. destruct (trimStart T) as [|y0 q0] eqn:E.
  - discriminate.
  - pose proof (trimStart_head _ E) as Hy0.
    rewrite trimEnd_cons by exact Hy0. intros H. inversion H. now subst.
Qed.

Lemma trimStart_idem s : trimStart (trimStart s) = trimStart s.
Proof.
  apply trimStart_fixed. destruct (trimStart s) as [|y q] eqn:E; [exact I|].
  now apply trimStart_head in E.
Qed.

Lemma trimEnd_idem s : trimEnd (trimEnd s) = trimEnd s.
Proof. unfold trimEnd. now rewrite rev_involutive, trimStart_idem. Qed.

Lemma trim_idem T : trim (trim T) = trim T.
Proof.
  assert (H : trimStart (trim T) = trim T).
  { apply trimStart_fixed. destruct (trim T) as [|y q] eqn:E; [exact I|].
    now apply trim_head in E. }
  unfold trim at 1. rewrite H. unfold trim. apply trimEnd_idem.
Qed.







(** ** Explicit negation is converted *)




(** ** Replacing all matches *)

Lemma assemble_cons_text f x res :
  assemble f (cons_text x res) = x :: assemble f res.
Proof. destruct res as [[|[t m] ms] tl]; reflexivity. Qed.

Lemma assemble_cons f t m ms tl :
  assemble f ((t, m) :: ms, tl) = t ++ f m ++ assemble f (ms, tl).
Proof. unfold assemble. simpl. now rewrite <- !app_assoc. Qed.

Lemma unmatched_tail r x s : unmatched r (x :: s) -> unmatched r s.
Proof.
  intros H u w t p cs' E. apply (H (x :: u) w t p cs'). now rewrite E.
Qed.

Lemma harmless_tail h r f x s : harmless h r f (x :: s) -> harmless h r f s.
Proof.
  intros H u w t p cs' E. apply (H (x :: u) w t p cs'). now rewrite E.
Qed.

(** If every replacement is harmless under [h], so is [replaceAll]. *)
Lemma scan_harmless h r f : forall s skip p,
  harmless h r f s ->
  map h (assemble f (scan r skip p s)) = map h (skipn skip s).
Proof.
  induction s as [|x s IH]; intros skip p Hh.
  - destruct skip as [|n]; cbn [scan skipn]; [|reflexivity].
    destruct (match_at r p []) as [m|] eqn:E; [|reflexivity].
    apply match_at_sound in E. destruct E as (w & t & cs' & Et & Hl & ->).
    symmetry in Et. apply app_eq_nil in Et. destruct Et as [-> ->].
    unfold assemble. cbn [fst snd map concat app]. rewrite !app_nil_r.
    exact (Hh [] [] [] p cs' eq_refl Hl).
  - pose proof (harmless_tail Hh) as Hh'.
    destruct skip as [|n]; cbn [scan skipn].
    + destruct (match_at r p (x :: s)) as [m|] eqn:E.
      * apply match_at_sound in E. destruct E as (w & t & cs' & Et & Hl & ->).
        pose proof (Hh [] w t p cs' Et Hl) as Hf.
        cbn [m_text]. destruct w as [|y w]; cbn [length].
        -- specialize (IH 0 (Some x) Hh').
           destruct (cons_text x (scan r 0 (Some x) s)) as [ms tl] eqn:Ec.
           rewrite assemble_cons, <- Ec, assemble_cons_text.
           cbn [app]. rewrite map_app, Hf. cbn [map app]. now rewrite IH.
        -- assert (Es' : s = w ++ t) by (simpl in Et; now injection Et).
           specialize (IH (length w) (Some x) Hh').
           destruct (scan r (length w) (Some x) s) as [ms tl] eqn:Es.
           rewrite assemble_cons. cbn [app].
           rewrite map_app, Hf, IH, <- map_app. f_equal.
           replace (skipn (length w) s) with t.
           ++ now rewrite Et.
           ++ now rewrite Es', skipn_app, Nat.sub_diag, skipn_all.
      * rewrite assemble_cons_text. simpl. f_equal. apply (IH 0 (Some x) Hh').
    + apply (IH n (Some x) Hh').
Qed.

Lemma replaceAll_harmless h r f s :
  harmless h r f s -> map h (replaceAll r f s) = map h s.
Proof.
  intros H. unfold replaceAll, matches.
  pose proof (scan_harmless 0 None H) as E. unfold assemble in E.
  destruct (scan r 0 None s) as [ms tl]. exact E.
Qed.

(** If every replacement puts back what it matched, nothing changes. *)
Lemma replaceAll_stable r f s :
  harmless (fun c => c) r f s -> replaceAll r f s = s.
Proof.
  intros H. apply replaceAll_harmless in H. now rewrite !map_id in H.
Qed.

Lemma unmatched_at r p s : unmatched r s -> match_at r p s = None.
Proof.
  intros H. destruct (match_at r p s) as [m|] eqn:E; [exfalso|reflexivity].
  destruct (match_at_sound _ _ _ E) as (w & t & cs' & Es & Hl & _).
  apply (H [] w t p cs'); assumption.
Qed.

Lemma unmatched_search r : forall s p, unmatched r s -> search r p s = None.
Proof.
  induction s as [|x s IH]; intros p H; cbn [search];
    rewrite (unmatched_at p H); [reflexivity|].
  now rewrite (IH (Some x) (unmatched_tail H)).
Qed.

Lemma unmatched_test r s : unmatched r s -> test r s = false.
Proof. intros H. unfold test, exec. now rewrite unmatched_search. Qed.





(** ** Plain sentences *)








Lemma Requires_lang (c : cls) r :
  Requires c r ->
  forall p w t cs cs', lang r p w t cs cs' -> exists x, In x w /\ c x = true.
Proof.
  induction 1 as [c' Hc|a b _ IH|a b _ IH|a b _ IHa _ IHb|g lo c' Hlo Hc|n r _ IH];
    intros p w t cs cs' H; simpl in H.
  - destruct H as (x & -> & Hx & _). exists x. split; [now left|auto].
  - destruct H as (w1 & w2 & cs1 & -> & H1 & _).
    destruct (IH _ _ _ _ _ H1) as (x & Hin & Hx).
    exists x. split; [apply in_or_app; now left|assumption].
  - destruct H as (w1 & w2 & cs1 & -> & _ & H2).
    destruct (IH _ _ _ _ _ H2) as (x & Hin & Hx).
    exists x. split; [apply in_or_app; now right|assumption].
  - destruct H as [H | H]; eauto.
  - destruct H as (Hl & Hw & _). destruct w as [|x w]; [simpl in Hl; lia|].
    simpl in Hw. apply andb_prop in Hw. destruct Hw as [Hx _].
    exists x. split; [now left|auto].
  - destruct H as (cs1 & H & _). eauto.
Qed.

Lemma Requires_unmatched (c : cls) r s :
  Requires c r -> (forall x, In x s -> c x = false) -> unmatched r s.
Proof.
  intros Hr Hs u w t p cs' E Hl.
  destruct (Requires_lang Hr _ _ _ _ _ Hl) as (x & Hin & Hx).
  rewrite Hs in Hx; [discriminate|].
  rewrite E. apply in_or_app. right. apply in_or_app. now left.
Qed.

(** ** The segmentation passes leave a plain sentence alone *)



Lemma trimEnd_fixed s :
  (forall r y, s = r ++ [y] -> is_space y = false) -> trimEnd s = s.
Proof.
  intros H. unfold trimEnd. destruct (rev s) as [|y q] eqn:E.
  - apply (f_equal (@rev ascii)) in E. rewrite rev_involutive in E. now subst.
  - assert (Es : s = rev q ++ [y]).
    { apply (f_equal (@rev ascii)) in E. now rewrite rev_involutive in E. }
    simpl. rewrite (H _ _ Es). simpl. now rewrite Es.
Qed.



Lemma eqb_class (a : ascii) x : Ascii.eqb a x = true -> x = a.
Proof. intros H. apply Ascii.eqb_eq in H. now subst. Qed.



Lemma blank_is_space x : one_of [SP; TAB] x = true -> is_space x = true.
Proof.
  unfold one_of. simpl. intros H.
  apply orb_prop in H. destruct H as [H | H].
  - apply Ascii.eqb_eq in H. now subst.
  - apply orb_prop in H. destruct H as [H | H]; [|discriminate].
    apply Ascii.eqb_eq in H. now subst.
Qed.





(** A greedy star over a stretch of the class, stopped by a character
    outside it, hands over there when the continuation succeeds. *)
Lemma star_greedy_upto A (c : cls) :
  forall u p v (k : option ascii -> str -> option A) a,
    forallb c u = true ->
    match v with y :: _ => c y = false | [] => True end ->
    k (walk p u) v = Some a ->
    star c true p (u ++ v) k = Some a.
Proof.
  induction u as [|x u IH]; intros p v k a Hu Hv Hk.
  - simpl in *. destruct v as [|y v]; simpl; [assumption|]. now rewrite Hv.
  - simpl in Hu. apply andb_prop in Hu. destruct Hu as [Hx Hu].
    simpl. rewrite Hx. now rewrite (IH (Some x) v k a Hu Hv Hk).
Qed.




(** ** The rewriting passes before the voice stage leave a quiet plain
       sentence alone *)

Lemma part_occurs_ci from s u w t :
  s = u ++ w ++ t -> toLowerCase w = toLowerCase from ->
  occurs_ci from s = true.
Proof.
  intros -> E. apply occurs_ci_suffix. now apply starts_with_ci_app.
Qed.


Lemma absent_unmatched_word from s :
  occurs_ci from s = false -> unmatched (re_word_i from) s.
Proof.
  intros H u w t p cs' E Hl. unfold re_word_i in Hl. cbn [lang] in Hl.
  destruct Hl as (w1 & w2 & cs1 & -> & (-> & _ & _) &
                  w3 & w4 & cs2 & -> & Hl & (-> & _ & _)).
  apply lang_liti in Hl. destruct Hl as [El _].
  simpl in E. rewrite app_nil_r in E.
  now rewrite (part_occurs_ci from u w3 t E El) in H.
Qed.




Lemma spell_quiet s : forall l st,
  existsb (fun e => occurs_ci (fst e) s) l = false ->
  fold_left spellStep l (s, st) = (s, st).
Proof.
  induction l as [|[from to] l IH]; intros [chg chs] H; [reflexivity|].
  simpl in H. apply orb_false_elim in H. destruct H as [Hf Hl].
  simpl. rewrite (unmatched_test (@absent_unmatched_word from s Hf)).
  now apply IH.
Qed.

Create HintDb req.

#[local] Hint Constructors Requires : req.

Lemma same_class (c : cls) : forall x, c x = true -> c x = true.
Proof. auto. Qed.

#[local] Hint Resolve same_class : req.













(** ** The style and finishing passes on a plain sentence *)

Lemma lower_upper x : lower_char (upper_char x) = lower_char x.
Proof. destruct x as [[] [] [] [] [] [] [] []]; reflexivity. Qed.








(** *** Joining plain texts *)








(** *** The style heuristic *)





(** *** Casing *)

Lemma pronoun_harmless s : harmless lower_char re_pronoun (fun _ => L "I") s.
Proof.
  intros u w t p cs' _ Hl. unfold re_pronoun, chr in Hl. cbn [lang] in Hl.
  destruct Hl as (w1 & w2 & cs1 & -> & (-> & _ & _) &
                  w3 & w4 & cs2 & -> & (x & -> & Hx & _) & (-> & _ & _)).
  apply eqb_class in Hx. subst x. reflexivity.
Qed.


(** *** Terminal punctuation *)






(** ** The conversion seen from [rewrite] *)







(** ** The matches of a global pattern, step by step *)

Lemma scan_skip r : forall w p t,
  scan r (length w) p (w ++ t) = scan r 0 (walk p w) t.
Proof.
  induction w as [|x w IH]; intros p t; [reflexivity|].
  cbn [length app scan]. apply IH.
Qed.

Lemma scan_miss r p x s :
  match_at r p (x :: s) = None ->
  scan r 0 p (x :: s) = cons_text x (scan r 0 (Some x) s).
Proof. intros E. cbn [scan]. now rewrite E. Qed.

Lemma scan_hit r p w t m :
  match_at r p (w ++ t) = Some m -> m_text m = w -> w <> [] ->
  scan r 0 p (w ++ t)
  = (([], m) :: fst (scan r 0 (walk p w) t), snd (scan r 0 (walk p w) t)).
Proof.
  intros E Ew Hw. destruct w as [|x w]; [congruence|].
  cbn [app] in *. cbn [scan]. rewrite E, Ew. cbn [length].
  rewrite scan_skip. cbn [walk fold_left].
  now destruct (scan r 0 _ t).
Qed.

Lemma replaceAll_replaced r f s : replaceAll r f s = replaced r f None s.
Proof.
  unfold replaceAll, replaced, matches, assemble.
  now destruct (scan r 0 None s).
Qed.

Lemma replaced_nil r f p :
  match_at r p [] = None -> replaced r f p [] = [].
Proof. intros E. unfold replaced. cbn [scan]. now rewrite E. Qed.

Lemma replaced_miss r f p x s :
  match_at r p (x :: s) = None ->
  replaced r f p (x :: s) = x :: replaced r f (Some x) s.
Proof.
  intros E. unfold replaced. rewrite scan_miss by exact E.
  apply assemble_cons_text.
Qed.

Lemma replaced_hit r f p w t m :
  match_at r p (w ++ t) = Some m -> m_text m = w -> w <> [] ->
  replaced r f p (w ++ t) = f m ++ replaced r f (walk p w) t.
Proof.
  intros E Ew Hw. unfold replaced. rewrite (@scan_hit r p w t m E Ew Hw).
  rewrite assemble_cons. destruct (scan r 0 (walk p w) t). reflexivity.
Qed.

(** What a scan returns is made of the characters of the text. *)
Lemma cons_text_Forall (P : ascii -> Prop) x res :
  P x ->
  Forall (fun tm : str * mres => Forall P (fst tm)) (fst res) ->
  Forall P (snd res) ->
  Forall (fun tm : str * mres => Forall P (fst tm)) (fst (cons_text x res))
  /\ Forall P (snd (cons_text x res)).
Proof.
  intros Hx Hms Htl. destruct res as [[|[t m] ms] tl]; cbn in *.
  - split; [constructor|now constructor].
  - inversion Hms; subst. split; [|assumption].
    constructor; [now constructor|assumption].
Qed.

Lemma scan_Forall (P : ascii -> Prop) r : forall s skip p,
  Forall P s ->
  Forall (fun tm : str * mres => Forall P (fst tm)) (fst (scan r skip p s))
  /\ Forall P (snd (scan r skip p s)).
Proof.
  induction s as [|x s IH]; intros skip p Hs.
  - destruct skip; cbn [scan]; [|now split].
    destruct (match_at r p []); cbn; split; auto.
  - inversion Hs as [|? ? Hx Hs']; subst.
    destruct skip as [|n]; cbn [scan]; [|now apply IH].
    destruct (match_at r p (x :: s)) as [m|].
    + destruct (length (m_text m)) as [|n].
      * destruct (@cons_text_Forall P x (scan r 0 (Some x) s) Hx
                    (proj1 (IH 0 (Some x) Hs')) (proj2 (IH 0 (Some x) Hs')))
          as [H1 H2].
        destruct (cons_text x (scan r 0 (Some x) s)) as [ms tl]. cbn in *.
        split; [constructor; [constructor|assumption]|assumption].
      * destruct (IH n (Some x) Hs') as [H1 H2].
        destruct (scan r n (Some x) s) as [ms tl]. cbn in *.
        split; [constructor; [constructor|assumption]|assumption].
    + apply cons_text_Forall; [assumption|apply IH; assumption..].
Qed.

Lemma split_Forall (P : ascii -> Prop) r s :
  Forall P s -> Forall (Forall P) (split r s).
Proof.
  intros Hs. unfold split, matches.
  destruct (scan_Forall r 0 None Hs) as [H1 H2].
  destruct (scan r 0 None s) as [ms tl]. cbn in *.
  apply Forall_app. split; [|now constructor].
  apply Forall_map. exact H1.
Qed.

Lemma replaceAll_Forall (P : ascii -> Prop) r f s :
  Forall P s -> (forall m, Forall P (f m)) -> Forall P (replaceAll r f s).
Proof.
  intros Hs Hf. unfold replaceAll, matches.
  destruct (scan_Forall r 0 None Hs) as [H1 H2].
  destruct (scan r 0 None s) as [ms tl]. cbn in *.
  apply Forall_app. split; [|assumption].
  apply Forall_concat. apply Forall_map.
  eapply Forall_impl; [|exact H1]. intros [t m] Ht. cbn in *.
  apply Forall_app. split; [assumption|apply Hf].
Qed.

(** Every match a scan reports is a match of the pattern. *)
Lemma scan_sound r : forall s skip p,
  Forall (fun tm : str * mres =>
            exists p' t' cs', lang r p' (m_text (snd tm)) t' [] cs'
                              /\ m_caps (snd tm) = cs')
         (fst (scan r skip p s)).
Proof.
  assert (Hc : forall x res,
             Forall (fun tm : str * mres =>
                       exists p' t' cs', lang r p' (m_text (snd tm)) t' [] cs'
                                         /\ m_caps (snd tm) = cs') (fst res) ->
             Forall (fun tm : str * mres =>
                       exists p' t' cs', lang r p' (m_text (snd tm)) t' [] cs'
                                         /\ m_caps (snd tm) = cs')
                    (fst (cons_text x res))).
  { intros x [[|[t m] ms] tl] H; cbn in *; [constructor|].
    inversion H; subst. constructor; assumption. }
  induction s as [|x s IH]; intros skip p.
  - destruct skip; cbn [scan]; [|constructor].
    destruct (match_at r p []) as [m|] eqn:E; cbn; [|constructor].
    apply match_at_sound in E. destruct E as (w & t & cs' & _ & Hl & ->).
    constructor; [|constructor]. now exists p, t, cs'.
  - destruct skip as [|n]; cbn [scan]; [|apply IH].
    destruct (match_at r p (x :: s)) as [m|] eqn:E.
    + apply match_at_sound in E. destruct E as (w & t & cs' & _ & Hl & ->).
      cbn [m_text]. destruct (length w) as [|n].
      * pose proof (Hc x _ (IH 0 (Some x))) as H.
        destruct (cons_text x (scan r 0 (Some x) s)) as [ms tl]. cbn in *.
        constructor; [now exists p, t, cs'|assumption].
      * pose proof (IH n (Some x)) as H.
        destruct (scan r n (Some x) s) as [ms tl]. cbn in *.
        constructor; [now exists p, t, cs'|assumption].
    + apply Hc, IH.
Qed.

(** ** A text without content *)

Lemma trimStart_blank s : forallb is_space s = true -> trimStart s = [].
Proof.
  induction s as [|x s IH]; [reflexivity|]. cbn [forallb trimStart].
  intros H. apply andb_prop in H. destruct H as [Hx Hs]. now rewrite Hx, IH.
Qed.

Lemma trim_blank s : forallb is_space s = true -> trim s = [].
Proof. intros H. unfold trim. now rewrite trimStart_blank. Qed.

Lemma lit_requires (c : cls) a w : c a = true -> Requires c (lit (a :: w)).
Proof.
  intros Ha.
  assert (Hc : forall x, Ascii.eqb a x = true -> c x = true).
  { intros x Hx. apply Ascii.eqb_eq in Hx. now subst. }
  unfold lit. destruct w as [|b w]; cbn [map seqs].
  - now apply Req_Chr.
  - apply Req_SeqL. now apply Req_Chr.
Qed.

Lemma word_requires (c : cls) w :
  match w with a :: _ => c a | [] => false end = true ->
  Requires c (Seq Wb (Seq (lit w) Wb)).
Proof.
  destruct w as [|a w]; [discriminate|]. intros Ha.
  apply Req_SeqR, Req_SeqL. now apply lit_requires.
Qed.

Lemma forallb_Forall_true (c : cls) s :
  forallb c s = true <-> Forall (fun x => c x = true) s.
Proof. rewrite forallb_forall, Forall_forall. tauto. Qed.

Lemma blank_lower s :
  forallb is_space s = true -> forallb is_space (toLowerCase s) = true.
Proof.
  assert (Hc : forall x, is_space x = true -> is_space (lower_char x) = true).
  { intros x. destruct x as [[] [] [] [] [] [] [] []]; vm_compute; congruence. }
  unfold toLowerCase. induction s as [|x s IH]; [reflexivity|].
  cbn [forallb map]. intros H. apply andb_prop in H. destruct H as [Hx Hs].
  now rewrite (Hc x Hx), IH.
Qed.

Lemma detectMixedVariant_blank s :
  forallb is_space s = true -> detectMixedVariant s = None.
Proof.
  intros H. apply blank_lower in H. unfold detectMixedVariant.
  replace (existsb _ ukToUs) with false; [reflexivity|].
  symmetry. apply not_true_is_false. intros Hex.
  apply existsb_exists in Hex. destruct Hex as (e & He & Ht).
  assert (Hk : forallb (fun e => match fst e with
                                 | a :: _ => non_space a
                                 | [] => false
                                 end) ukToUs = true) by (vm_compute; reflexivity).
  rewrite forallb_forall in Hk. specialize (Hk e He).
  rewrite unmatched_test in Ht; [discriminate|].
  apply Requires_unmatched with (c := non_space).
  - now apply word_requires.
  - intros x Hx. rewrite forallb_forall in H. unfold non_space.
    now rewrite (H x Hx).
Qed.

Lemma splitParagraphs_blank s :
  forallb is_space s = true ->
  Forall (fun b => forallb is_space b = true) (splitParagraphs s).
Proof.
  intros H. unfold splitParagraphs.
  eapply Forall_impl; [intros b Hb; apply forallb_Forall_true; exact Hb|].
  apply split_Forall. apply replaceAll_Forall.
  - now apply forallb_Forall_true.
  - intros m. now constructor.
Qed.

Lemma rewriteBlocks_blank o examples : forall blocks j,
  Forall (fun b => forallb is_space b = true) blocks ->
  mapM (fun b => rewriteBlock b o examples) blocks j = (blocks, j).
Proof.
  induction blocks as [|b blocks IH]; intros j H; [reflexivity|].
  inversion H as [|? ? Hb Hbs]; subst.
  cbn [mapM]. unfold bind at 1. unfold rewriteBlock at 1.
  rewrite trim_blank by exact Hb. cbn [truthy negb]. unfold ret at 1.
  unfold bind. rewrite IH by exact Hbs. reflexivity.
Qed.

Lemma join_blank sep : forall blocks,
  forallb is_space sep = true ->
  Forall (fun b => forallb is_space b = true) blocks ->
  forallb is_space (join sep blocks) = true.
Proof.
  induction blocks as [|b blocks IH]; intros Hsep H; [reflexivity|].
  inversion H as [|? ? Hb Hbs]; subst.
  destruct blocks as [|b' blocks']; [exact Hb|].
  change (join sep (b :: b' :: blocks'))
    with (b ++ sep ++ join sep (b' :: blocks')).
  rewrite !forallb_app, Hb, Hsep. now rewrite IH.
Qed.

(** X1: A text of white space only (the empty text, spaces, tabs, line
    breaks) is rewritten to the empty text, with an empty change log and
    no suggestion, under every setting. *)
Theorem blank_text_rewrites_to_nothing (txt : str) (o : RewriteOptions)
        (examples : list StyleExample) :
  forallb is_space txt = true -> rewrite txt o examples = emptyResult.
Proof.
  intros H. unfold rewrite, rewriteBlocks.
  rewrite detectMixedVariant_blank by exact H.
  pose proof (splitParagraphs_blank txt H) as Hb.
  rewrite rewriteBlocks_blank by exact Hb.
  cbn [j_changeLog j_suggestions firstn dedupe dedupeFrom].
  rewrite trim_blank; [reflexivity|].
  now apply join_blank.
Qed.

Lemma blank_text_rewrites_to_nothing_witness :
  rewrite [SP; TAB; LF; CR; LF; LF; SP] baseOptions [shortExample] = emptyResult.
Proof.
  apply (@blank_text_rewrites_to_nothing [SP; TAB; LF; CR; LF; LF; SP]
           baseOptions [shortExample]).
  reflexivity.
Defined.

(** ** What does not change the text *)

Lemma sameLog_ret {A} (a : A) : sameLog (ret a) (ret a).
Proof. intros j1 j2 H. now split. Qed.

Lemma sameLog_bind {A B} (m1 m2 : M A) (f1 f2 : A -> M B) :
  sameLog m1 m2 -> (forall a, sameLog (f1 a) (f2 a)) ->
  sameLog (bind m1 f1) (bind m2 f2).
Proof.
  intros Hm Hf j1 j2 H. unfold bind.
  destruct (Hm j1 j2 H) as [Ha Hj].
  destruct (m1 j1) as [a1 j1'], (m2 j2) as [a2 j2']. cbn in *. subst a2.
  now apply Hf.
Qed.

Lemma sameLog_refl {A} (m : M A) : appendOnly m -> sameLog m m.
Proof.
  intros Hm j1 j2 H. rewrite (Hm j1), (Hm j2). cbn. now rewrite H.
Qed.

Lemma sameLog_mapM {A B} (f1 f2 : A -> M B) l :
  (forall a, sameLog (f1 a) (f2 a)) -> sameLog (mapM f1 l) (mapM f2 l).
Proof.
  intros Hf. induction l as [|a l IH]; cbn [mapM].
  - apply sameLog_ret.
  - apply sameLog_bind; [apply Hf|]. intros b.
    apply sameLog_bind; [exact IH|]. intros bs. apply sameLog_ret.
Qed.

Lemma sameLog_stageConcise o1 o2 s :
  concise o1 = concise o2 -> sameLog (stageConcise o1 s) (stageConcise o2 s).
Proof.
  intros E. unfold stageConcise. rewrite E.
  apply (sameLog_refl (appendOnly_stageConcise o2 s)).
Qed.

Lemma sameLog_stageSpelling o1 o2 s :
  englishVariant o1 = englishVariant o2 ->
  Types.standardiseSpelling o1 = Types.standardiseSpelling o2 ->
  sameLog (stageSpelling o1 s) (stageSpelling o2 s).
Proof.
  intros E1 E2. unfold stageSpelling. rewrite E1, E2.
  apply (sameLog_refl (appendOnly_stageSpelling o2 s)).
Qed.

(** The passive-to-active stage writes the same text and the same log
    entry whether or not it explains a withheld conversion. *)
Lemma sameLog_stageVoice o1 o2 s :
  activeVoice o1 = activeVoice o2 -> clearOwnership o1 = clearOwnership o2 ->
  owner o1 = owner o2 ->
  sameLog (stageVoice o1 s) (stageVoice o2 s).
Proof.
  intros E1 E2 E3. unfold stageVoice. rewrite E1, E2, E3.
  destruct (activeVoice o2); [|apply sameLog_ret].
  unfold convertPassiveToActiveSafe.
  destruct (owner o2) as [own|]; [|apply sameLog_ret].
  destruct (negb (truthy own) || negb (clearOwnership o2));
    [apply sameLog_ret|].
  destruct (firstStrict (strict own) s) as [out|].
  - cbn [converted sentence]. apply sameLog_refl. auto with journal.
  - destruct (auditSafeMode o1), (auditSafeMode o2);
      cbn [converted suggestion sentence];
      intros j1 j2 H; cbn; now split.
Qed.

(** The impact stage only ever suggests. *)
Lemma sameLog_stageImpact o1 o2 s :
  sameLog (stageImpact o1 s) (stageImpact o2 s).
Proof.
  assert (Hq : forall o j, fst (stageImpact o s j) = tt
                           /\ j_changeLog (snd (stageImpact o s j))
                              = j_changeLog j).
  { intros o j. unfold stageImpact. destruct (sharperImpact o); [|now split].
    destruct (impactSuggestionOnly _ _) as [i|]; [|now split].
    unfold when. destruct (truthy i); now split. }
  intros j1 j2 H.
  destruct (Hq o1 j1) as [-> ->], (Hq o2 j2) as [-> ->]. now split.
Qed.

Lemma sameLog_rewriteSentence o1 o2 examples s :
  same_for_text o1 o2 ->
  sameLog (rewriteSentence o1 examples s) (rewriteSentence o2 examples s).
Proof.
  intros (Hav & Hco & Hc & Ho & Hv & Hs). unfold rewriteSentence.
  apply sameLog_bind; [now apply sameLog_stageConcise|intros s1].
  apply sameLog_bind;
    [apply sameLog_refl, appendOnly_stageVocabulary|intros s2].
  apply sameLog_bind; [now apply sameLog_stageSpelling|intros s3].
  apply sameLog_bind; [apply sameLog_refl; auto with journal|intros []].
  apply sameLog_bind; [now apply sameLog_stageVoice|intros s4].
  apply sameLog_bind; [apply sameLog_stageImpact|intros []].
  apply sameLog_ret.
Qed.

Lemma sameLog_rewriteBlock o1 o2 examples block :
  same_for_text o1 o2 ->
  sameLog (rewriteBlock block o1 examples) (rewriteBlock block o2 examples).
Proof.
  intros H. unfold rewriteBlock.
  destruct (negb (truthy (trim block))); [apply sameLog_ret|].
  apply sameLog_bind; [|intros bs; apply sameLog_ret].
  apply sameLog_mapM. intros s. now apply sameLog_rewriteSentence.
Qed.

(** X2: Impact, audit-safe mode and document type are advice only: two
    option records that differ at most in [sharperImpact],
    [documentType], [auditSafeMode] and [calmTone] give the same
    rewritten text and the same change log, on every text and every list
    of style examples. *)
Theorem text_and_log_ignore_advice (txt : str) (o1 o2 : RewriteOptions)
        (examples : list StyleExample) :
  same_for_text o1 o2 ->
  rewrittenText (rewrite txt o1 examples) = rewrittenText (rewrite txt o2 examples)
  /\ changeLog (rewrite txt o1 examples) = changeLog (rewrite txt o2 examples).
Proof.
  intros H. unfold rewrite, rewriteBlocks.
  match goal with
  | |- context [mapM _ _ ?j] =>
      destruct (@sameLog_mapM _ _
                  (fun b => rewriteBlock b o1 examples)
                  (fun b => rewriteBlock b o2 examples)
                  (splitParagraphs txt)
                  (fun b => sameLog_rewriteBlock examples b H) j j eq_refl)
        as [Ht Hl]
  end.
  destruct (mapM (fun b => rewriteBlock b o1 examples) _ _) as [bs1 j1].
  destruct (mapM (fun b => rewriteBlock b o2 examples) _ _) as [bs2 j2].
  cbn in *. subst bs2. now split.
Qed.

Lemma text_and_log_ignore_advice_witness :
  rewrittenText (rewrite hedgedInput baseOptions [shortExample])
  = rewrittenText (rewrite hedgedInput (adviceOff baseOptions) [shortExample])
  /\ changeLog (rewrite hedgedInput baseOptions [shortExample])
     = changeLog (rewrite hedgedInput (adviceOff baseOptions) [shortExample]).
Proof.
  apply (@text_and_log_ignore_advice hedgedInput baseOptions
           (adviceOff baseOptions) [shortExample]).
  unfold same_for_text. cbn. repeat split; reflexivity.
Defined.

(** ** What the journal can hold *)

Lemma keeps_ret P {A} (a : A) : keeps P (ret a).
Proof. intros j H. exact H. Qed.

Lemma keeps_bind P {A B} (m : M A) (f : A -> M B) :
  keeps P m -> (forall a, keeps P (f a)) -> keeps P (bind m f).
Proof.
  intros Hm Hf j H. unfold bind. specialize (Hm j H).
  destruct (m j) as [a j']. now apply Hf.
Qed.

Lemma keeps_forEach P {A} (f : A -> M unit) l :
  (forall a, In a l -> keeps P (f a)) -> keeps P (forEach f l).
Proof.
  induction l as [|a l IH]; intros Hf; cbn [forEach].
  - apply keeps_ret.
  - apply keeps_bind; [apply Hf; now left|]. intros _. apply IH.
    intros b Hb. apply Hf. now right.
Qed.

Lemma keeps_mapM P {A B} (f : A -> M B) l :
  (forall a, keeps P (f a)) -> keeps P (mapM f l).
Proof.
  intros Hf. induction l as [|a l IH]; cbn [mapM].
  - apply keeps_ret.
  - apply keeps_bind; [apply Hf|]. intros b.
    apply keeps_bind; [exact IH|]. intros bs. apply keeps_ret.
Qed.

Lemma keeps_pushChange txt o ty d :
  logEntry o {| type := ty; description := d |} ->
  keeps (soundJournal txt o) (pushChange ty d).
Proof.
  intros Hc j [Hl Hs]. split; [|exact Hs]. cbn.
  apply Forall_app. split; [exact Hl|]. now constructor.
Qed.

Lemma keeps_pushSuggestion txt o x :
  advice txt o x -> keeps (soundJournal txt o) (pushSuggestion x).
Proof.
  intros Hx j [Hl Hs]. split; [exact Hl|]. cbn.
  apply Forall_app. split; [exact Hs|]. now constructor.
Qed.

Lemma stripFillerFrom_removed s : forall fs,
  s_changed (stripFillerFrom fs s) = true ->
  exists f, In f fs /\ s_removed (stripFillerFrom fs s) = Some f.
Proof.
  induction fs as [|f fs IH]; cbn [stripFillerFrom]; [discriminate|].
  destruct (test (re_filler f) s).
  - intros _. exists f. split; [now left|reflexivity].
  - intros H. destruct (IH H) as (g & Hg & E). exists g. split; [now right|exact E].
Qed.

Lemma keeps_stageConcise txt o s :
  keeps (soundJournal txt o) (stageConcise o s).
Proof.
  unfold stageConcise. destruct (concise o) eqn:Hc; [|apply keeps_ret].
  destruct (s_changed (stripFillerOpener s)) eqn:E; [|apply keeps_ret].
  apply keeps_bind; [|intros _; apply keeps_ret].
  destruct (stripFillerFrom_removed s fillerOpeners E) as (f & Hf & Er).
  unfold stripFillerOpener. rewrite Er.
  apply keeps_pushChange. left. cbn [type description]. split; [reflexivity|].
  split; [exact Hc|]. now exists f.
Qed.

Lemma vocab_changes : forall (l : table) (out : str) (chs : list str),
  incl l vocabularyMap ->
  Forall (fun d => exists e, In e vocabularyMap
                             /\ d = L "Replaced " ++ quoted (fst e)
                                      ++ L " with " ++ quoted (snd e)) chs ->
  Forall (fun d => exists e, In e vocabularyMap
                             /\ d = L "Replaced " ++ quoted (fst e)
                                      ++ L " with " ++ quoted (snd e))
         (snd (fold_left vocabStep l (out, chs))).
Proof.
  induction l as [|[from to] l IH]; intros out chs Hl Hc; [exact Hc|].
  cbn [fold_left]. unfold vocabStep at 2.
  assert (Hl' : incl l vocabularyMap) by (intros e He; apply Hl; now right).
  destruct (test (liti from) out); [|now apply IH].
  apply IH; [exact Hl'|]. apply Forall_app. split; [exact Hc|].
  constructor; [|constructor]. exists (from, to). split; [|reflexivity].
  apply Hl. now left.
Qed.

Lemma keeps_stageVocabulary txt o s :
  keeps (soundJournal txt o) (stageVocabulary s).
Proof.
  unfold stageVocabulary. destruct (changed (replaceVocabulary s)); [|apply keeps_ret].
  apply keeps_bind; [|intros _; apply keeps_ret].
  apply keeps_forEach. intros d Hd. apply keeps_pushChange.
  right. left. cbn [type description]. split; [reflexivity|].
  unfold replaceVocabulary in Hd.
  match type of Hd with
  | context [fold_left vocabStep vocabularyMap (?a, ?b)] =>
      pose proof (@vocab_changes vocabularyMap a b (incl_refl _) (Forall_nil _))
        as H;
      destruct (fold_left vocabStep vocabularyMap (a, b)) as [out chs]
  end.
  cbn [snd changes] in *. rewrite Forall_forall in H. exact (H d Hd).
Qed.

Lemma spell_changes (tbl : table) :
  forall (l : table) (out : str) (chg : bool) (chs : list str),
  incl l tbl ->
  Forall (fun d => exists e, In e tbl
                             /\ d = L "Standardised spelling: " ++ quoted (fst e)
                                      ++ [SP] ++ arrow ++ [SP] ++ quoted (snd e))
         chs ->
  Forall (fun d => exists e, In e tbl
                             /\ d = L "Standardised spelling: " ++ quoted (fst e)
                                      ++ [SP] ++ arrow ++ [SP] ++ quoted (snd e))
         (snd (snd (fold_left spellStep l (out, (chg, chs))))).
Proof.
  induction l as [|[from to] l IH]; intros out chg chs Hl Hc; [exact Hc|].
  cbn [fold_left]. unfold spellStep at 2.
  assert (Hl' : incl l tbl) by (intros e He; apply Hl; now right).
  destruct (test (re_word_i from) out); [|now apply IH].
  apply IH; [exact Hl'|]. apply Forall_app. split; [exact Hc|].
  constructor; [|constructor]. exists (from, to). split; [|reflexivity].
  apply Hl. now left.
Qed.

Lemma chunk_changes (tbl : table) :
  forall chunks (done : list str) (chg : bool) (chs : list str),
  Forall (fun d => exists e, In e tbl
                             /\ d = L "Standardised spelling: " ++ quoted (fst e)
                                      ++ [SP] ++ arrow ++ [SP] ++ quoted (snd e))
         chs ->
  Forall (fun d => exists e, In e tbl
                             /\ d = L "Standardised spelling: " ++ quoted (fst e)
                                      ++ [SP] ++ arrow ++ [SP] ++ quoted (snd e))
         (snd (snd (fold_left (spellChunk tbl) chunks (done, (chg, chs))))).
Proof.
  induction chunks as [|c chunks IH]; intros done chg chs Hc; [exact Hc|].
  cbn [fold_left]. unfold spellChunk at 2. destruct c as [v|v].
  - pose proof (@spell_changes tbl tbl v chg chs (incl_refl _) Hc) as H.
    destruct (fold_left spellStep tbl (v, (chg, chs))) as [out [chg' chs']].
    cbn [snd] in H. now apply IH.
  - now apply IH.
Qed.

Lemma trim_ends a m z :
  is_space a = false -> is_space z = false -> trim (a :: m ++ [z]) = a :: m ++ [z].
Proof.
  intros Ha Hz. unfold trim. rewrite trimStart_fixed by exact Ha.
  apply trimEnd_fixed. intros r y E.
  change (a :: m ++ [z]) with ((a :: m) ++ [z]) in E.
  apply app_inj_tail in E. destruct E as [_ <-]. exact Hz.
Qed.

Lemma trim_quoted_end X t :
  match X with a :: _ => is_space a = false | [] => False end ->
  trim (X ++ quoted t) = X ++ quoted t.
Proof.
  destruct X as [|a m]; [contradiction|]. intros Ha. unfold quoted.
  replace ((a :: m) ++ DQ :: t ++ [DQ]) with (a :: (m ++ DQ :: t) ++ [DQ])
    by (cbn [app]; now rewrite <- app_assoc).
  now apply trim_ends.
Qed.

Lemma keeps_stageSpelling txt o s :
  keeps (soundJournal txt o) (stageSpelling o s).
Proof.
  unfold stageSpelling.
  destruct (Types.standardiseSpelling o) eqn:Hs; [|apply keeps_ret].
  destruct (changed _); [|apply keeps_ret].
  apply keeps_bind; [|intros _; apply keeps_ret].
  apply keeps_forEach. intros d Hd. apply keeps_pushChange.
  right. right. left. cbn [type description]. split; [reflexivity|]. split; [exact Hs|].
  unfold standardiseSpelling in Hd.
  fold (variantTable (englishVariant o)) in Hd.
  match type of Hd with
  | context [fold_left ?f (protectTokens s) (?a, (?b, ?c))] =>
      pose proof (@chunk_changes (variantTable (englishVariant o))
                    (protectTokens s) a b c (Forall_nil _)) as H;
      destruct (fold_left f (protectTokens s) (a, (b, c)))
        as [pieces [chg chs]]
  end.
  cbn [snd changes] in *. unfold dedupe in Hd. apply dedupeFrom_In in Hd.
  destruct Hd as (_ & Hin & _). apply in_map_iff in Hin.
  destruct Hin as (y & <- & Hy). rewrite Forall_forall in H.
  destruct (H y Hy) as (e & He & ->). exists e. split; [exact He|].
  rewrite !app_assoc. apply trim_quoted_end. reflexivity.
Qed.

Lemma keeps_hints txt o s :
  keeps (soundJournal txt o) (forEach pushSuggestion (findQualifierHints s)).
Proof.
  apply keeps_forEach. intros h Hh. apply keeps_pushSuggestion.
  right. left. unfold findQualifierHints in Hh.
  set (found := filter (fun q => includes (toLowerCase s) q) qualifiers) in *.
  assert (Hi : incl found qualifiers).
  { intros q Hq. unfold found in Hq. now apply filter_In in Hq. }
  destruct found as [|q found'] eqn:E; [contradiction|].
  destruct Hh as [<- | []]. exists (q :: found').
  split; [discriminate|]. split; [exact Hi|reflexivity].
Qed.

Lemma keeps_stageVoice txt o s :
  keeps (soundJournal txt o) (stageVoice o s).
Proof.
  unfold stageVoice. destruct (activeVoice o) eqn:Hav; [|apply keeps_ret].
  unfold convertPassiveToActiveSafe.
  destruct (owner o) as [own|] eqn:Ho; [|apply keeps_ret].
  destruct (truthy own) eqn:Hown; [|apply keeps_ret].
  destruct (clearOwnership o) eqn:Hco; [|apply keeps_ret].
  assert (Hset : owner_set o).
  { exists own. split; [exact Ho|]. intros ->. discriminate. }
  cbn [negb orb].
  destruct (firstStrict (strict own) s) as [out|].
  - cbn [converted sentence].
    apply keeps_bind; [|intros _; apply keeps_ret].
    apply keeps_pushChange. right. right. right.
    cbn [type description]. repeat split; assumption.
  - destruct (auditSafeMode o) eqn:Hasm;
      cbn [converted suggestion sentence]; [|apply keeps_ret].
    replace (truthy withheld) with true by reflexivity.
    apply keeps_bind; [|intros _; apply keeps_ret].
    apply keeps_pushSuggestion. right. right. left.
    repeat split; assumption.
Qed.

Lemma keeps_stageImpact txt o s :
  keeps (soundJournal txt o) (stageImpact o s).
Proof.
  unfold stageImpact. destruct (sharperImpact o) eqn:Hsi; [|apply keeps_ret].
  unfold impactSuggestionOnly.
  destruct (documentType o) eqn:Hd; try apply keeps_ret.
  match goal with |- context [if ?c then None else _] => destruct c end;
    [apply keeps_ret|].
  unfold when. replace (truthy impactPrompt) with true by reflexivity.
  apply keeps_pushSuggestion. right. right. right. repeat split; assumption.
Qed.

Lemma keeps_rewriteSentence txt o examples s :
  keeps (soundJournal txt o) (rewriteSentence o examples s).
Proof.
  unfold rewriteSentence.
  apply keeps_bind; [apply keeps_stageConcise|intros s1].
  apply keeps_bind; [apply keeps_stageVocabulary|intros s2].
  apply keeps_bind; [apply keeps_stageSpelling|intros s3].
  apply keeps_bind; [apply keeps_hints|intros _].
  apply keeps_bind; [apply keeps_stageVoice|intros s4].
  apply keeps_bind; [apply keeps_stageImpact|intros _].
  apply keeps_ret.
Qed.

Lemma keeps_rewriteBlock txt o examples block :
  keeps (soundJournal txt o) (rewriteBlock block o examples).
Proof.
  unfold rewriteBlock. destruct (negb (truthy (trim block))); [apply keeps_ret|].
  apply keeps_bind; [|intros bs; apply keeps_ret].
  apply keeps_mapM. intros s. apply keeps_rewriteSentence.
Qed.

Lemma detectMixedVariant_warning txt m :
  detectMixedVariant txt = Some m -> m = mixedWarning.
Proof.
  unfold detectMixedVariant.
  destruct (_ && _); [|discriminate]. intros H. now inversion H.
Qed.

(** The journal [rewrite] reads its result from holds only entries and
    suggestions of the known kinds. *)
Lemma rewriteBlocks_sound txt o examples :
  soundJournal txt o (snd (rewriteBlocks txt o examples)).
Proof.
  unfold rewriteBlocks.
  apply (@keeps_mapM (soundJournal txt o) _ _
           (fun block => rewriteBlock block o examples) (splitParagraphs txt)
           (fun block => @keeps_rewriteBlock txt o examples block)).
  split; cbn [j_changeLog j_suggestions]; [constructor|].
  destruct (detectMixedVariant txt) as [m|] eqn:E; [|constructor].
  pose proof (@detectMixedVariant_warning txt m E) as ->.
  replace (truthy mixedWarning) with true by reflexivity.
  constructor; [|constructor]. left. now split.
Qed.

Lemma trim_qualifierHint found : trim (qualifierHint found) = qualifierHint found.
Proof.
  unfold qualifierHint.
  set (tl := L "). Audit-safe default is to keep it unless evidence supports a stronger statement").
  change (L "). Audit-safe default is to keep it unless evidence supports a stronger statement.")
    with (tl ++ ["."%char]).
  change (L "Qualification detected (")
    with ("Q"%char :: L "ualification detected (").
  rewrite !app_assoc. cbn [app].
  now apply trim_ends.
Qed.

Lemma advice_trimmed txt o x : advice txt o x -> trim x = x.
Proof.
  intros [[-> _] | [(found & _ & _ & ->) | [[-> _] | [-> _]]]];
    try reflexivity.
  apply trim_qualifierHint.
Qed.

Lemma suggestion_advice txt o examples x :
  In x (suggestions (rewrite txt o examples)) -> advice txt o x.
Proof.
  unfold rewrite. pose proof (rewriteBlocks_sound txt o examples) as [_ Hs].
  destruct (rewriteBlocks txt o examples) as [bs j].
  cbn [suggestions snd] in *. intros Hx.
  assert (Hd : In x (dedupe (j_suggestions j))).
  { rewrite <- (firstn_skipn 12 (dedupe (j_suggestions j))).
    apply in_or_app. now left. }
  unfold dedupe in Hd. apply dedupeFrom_In in Hd.
  destruct Hd as (_ & Hin & _). apply in_map_iff in Hin.
  destruct Hin as (y & <- & Hy). rewrite Forall_forall in Hs.
  specialize (Hs y Hy). now rewrite (@advice_trimmed txt o y Hs).
Qed.

(** ** The change log *)

(** X3: Every entry of the change log is of one of four kinds: a removed
    filler opener (type concision, only with [concise] on), a
    vocabulary replacement of the fixed table (clarity), a spelling
    replacement of the table of the target variant (spelling, only with
    [standardiseSpelling] on), or the one voice entry (only with active
    voice and clear ownership on and a non-empty owner). *)
Theorem changeLog_entries_are_known (txt : str) (o : RewriteOptions)
        (examples : list StyleExample) (c : Change) :
  In c (changeLog (rewrite txt o examples)) -> logEntry o c.
Proof.
  unfold rewrite. pose proof (rewriteBlocks_sound txt o examples) as [Hl _].
  destruct (rewriteBlocks txt o examples) as [bs j].
  cbn [changeLog snd] in *. rewrite Forall_forall in Hl. apply Hl.
Qed.

Lemma changeLog_entries_are_known_witness :
  logEntry baseOptions
    {| type := L "voice";
       description := L "Converted passive to active voice (safe rule)" |}.
Proof.
  apply (@changeLog_entries_are_known hedgedInput baseOptions []).
  vm_compute. now left.
Defined.

(** ** The suggestions *)

(** X4: Every suggestion is of one of four kinds: the mixed-spelling warning
    (only if the text mixes variants), a qualification hint naming
    hedges of the fixed list, the note on a withheld conversion (only
    with active voice, audit-safe mode and clear ownership on and a
    non-empty owner), or the impact prompt (only with [sharperImpact] on
    and the document type audit-finding). *)
Theorem suggestions_are_known (txt : str) (o : RewriteOptions)
        (examples : list StyleExample) (x : str) :
  In x (suggestions (rewrite txt o examples)) -> advice txt o x.
Proof. apply suggestion_advice. Qed.

Lemma suggestions_are_known_witness :
  advice hedgedInput baseOptions (qualifierHint [L "may"]).
Proof.
  apply (@suggestions_are_known hedgedInput baseOptions []).
  vm_compute. now left.
Defined.

Lemma qualifierHint_head found :
  exists tl, qualifierHint found = "Q"%char :: tl.
Proof. unfold qualifierHint. eexists. reflexivity. Qed.

(** X5: Advice that is switched off is never given: no impact prompt with
    [sharperImpact] off or a document type other than audit-finding; no
    note on a withheld conversion with active voice, audit-safe mode or
    clear ownership off or without an owner; no mixed-spelling warning
    on a text that does not mix variants. *)
Theorem advice_switched_off_is_not_given (txt : str) (o : RewriteOptions)
        (examples : list StyleExample) :
  let given := suggestions (rewrite txt o examples) in
  (sharperImpact o = false \/ documentType o <> AuditFinding ->
   ~ In impactPrompt given)
  /\ (activeVoice o = false \/ auditSafeMode o = false
      \/ clearOwnership o = false \/ owner_unset (owner o) ->
      ~ In withheld given)
  /\ (detectMixedVariant txt = None -> ~ In mixedWarning given).
Proof.
  intros given. subst given. split; [|split].
  - intros Hoff Hin. apply suggestion_advice in Hin.
    destruct Hin as [[E _] | [(found & _ & _ & E) | [[E _] | (_ & Hs & Hd)]]].
    + discriminate.
    + destruct (qualifierHint_head found) as (tl & Eq). rewrite Eq in E.
      discriminate.
    + discriminate.
    + destruct Hoff as [Hoff | Hoff]; congruence.
  - intros Hoff Hin. apply suggestion_advice in Hin.
    destruct Hin as [[E _] | [(found & _ & _ & E)
                    | [(_ & Hav & Hasm & Hco & own & Ho & Hne) | [E _]]]].
    + discriminate.
    + destruct (qualifierHint_head found) as (tl & Eq). rewrite Eq in E.
      discriminate.
    + destruct Hoff as [Hoff | [Hoff | [Hoff | [Hoff | Hoff]]]]; congruence.
    + discriminate.
  - intros Hoff Hin. apply suggestion_advice in Hin.
    destruct Hin as [[_ E] | [(found & _ & _ & E) | [[E _] | [E _]]]].
    + congruence.
    + destruct (qualifierHint_head found) as (tl & Eq). rewrite Eq in E.
      discriminate.
    + discriminate.
    + discriminate.
Qed.

Lemma advice_switched_off_is_not_given_witness :
  ~ In impactPrompt (suggestions (rewrite hedgedInput (adviceOff baseOptions) []))
  /\ ~ In withheld (suggestions (rewrite hedgedInput (adviceOff baseOptions) []))
  /\ ~ In mixedWarning (suggestions (rewrite hedgedInput (adviceOff baseOptions) [])).
Proof.
  destruct (@advice_switched_off_is_not_given hedgedInput
              (adviceOff baseOptions) []) as (H1 & H2 & H3).
  split; [apply H1; now left|].
  split; [apply H2; right; now left|].
  apply H3. vm_compute. reflexivity.
Defined.

Lemma dedupe_cons s l :
  truthy (trim s) = true -> dedupe (s :: l) = trim s :: dedupeFrom [trim s] l.
Proof. intros H. unfold dedupe. cbn [dedupeFrom existsb]. now rewrite H. Qed.

(** X6: On a text that mixes variants the warning is the first suggestion,
    so the cap of twelve never cuts it off. *)
Theorem mixed_warning_comes_first (txt : str) (o : RewriteOptions)
        (examples : list StyleExample) :
  detectMixedVariant txt <> None ->
  exists rest,
    suggestions (rewrite txt o examples) = mixedWarning :: rest.
Proof.
  intros Hm. destruct (detectMixedVariant txt) as [m|] eqn:E; [|congruence].
  pose proof (@detectMixedVariant_warning txt m E) as ->.
  unfold rewrite, rewriteBlocks. rewrite E.
  replace (truthy mixedWarning) with true by reflexivity.
  match goal with
  | |- context [mapM ?f ?l ?j] =>
      rewrite (@appendOnly_mapM _ _ f l
                 (fun b => appendOnly_rewriteBlock b o examples) j);
      set (more := snd (mapM f l emptyJournal))
  end.
  cbn [suggestions appendJournal j_suggestions app].
  rewrite dedupe_cons by reflexivity.
  replace (trim mixedWarning) with mixedWarning by reflexivity.
  cbn [firstn]. eexists. reflexivity.
Qed.

Lemma mixed_warning_comes_first_witness :
  exists rest,
    suggestions (rewrite (L "Unauthorised access was detected and we will analyze logs.")
                         baseOptions [])
    = mixedWarning :: rest.
Proof.
  apply (@mixed_warning_comes_first
           (L "Unauthorised access was detected and we will analyze logs.")
           baseOptions []).
  vm_compute. discriminate.
Defined.

(** ** Protected spans and spelling *)

Lemma any_char (c : cls) : forall x, c x = true -> (fun _ : ascii => true) x = true.
Proof. reflexivity. Qed.

Lemma protected_needs_char : Requires (fun _ => true) re_protected.
Proof.
  unfold re_protected, re_http, re_www, re_email, re_code, re_drive,
    re_posix, lit, chr, opt, plus.
  cbn [alts seqs map L list_ascii_of_string].
  repeat apply Req_Alt; apply Req_Grp;
    first [ apply Req_SeqL, Req_Chr, any_char
          | apply Req_SeqR, Req_SeqL, Req_SeqL, Req_Chr, any_char
          | apply Req_SeqR, Req_SeqL, Req_Chr, any_char
          | apply Req_SeqR, Req_SeqL, Req_Rep; [lia|apply any_char] ].
Qed.

Lemma textChunk_value t : concat (map chunkValue (textChunk t)) = t.
Proof. destruct t; cbn; [reflexivity|]. now rewrite app_nil_r. Qed.

Lemma textChunk_filled t : Forall (fun c => chunkValue c <> []) (textChunk t).
Proof. destruct t; cbn; [constructor|]. constructor; [discriminate|constructor]. Qed.

(** The chunks of [protectTokens] partition the input. *)
Lemma protectTokens_partition (s : str) :
  concat (map chunkValue (protectTokens s)) = s
  /\ Forall (fun c => chunkValue c <> []) (protectTokens s).
Proof.
  unfold protectTokens.
  pose proof (@replaceAll_stable re_protected m_text s) as Hst.
  unfold replaceAll in Hst.
  pose proof (scan_sound re_protected s 0 None) as Hsound.
  unfold matches in *.
  destruct (scan re_protected 0 None s) as [ms tl]. cbn [fst] in Hsound.
  split.
  - assert (E : concat (map (fun tm : str * mres => fst tm ++ m_text (snd tm)) ms)
                 ++ tl = s).
    { apply Hst. intros u w t p cs' _ _. reflexivity. }
    etransitivity; [|exact E].
    rewrite map_app, concat_app, textChunk_value. f_equal.
    clear. induction ms as [|[t m] ms IH]; [reflexivity|].
    cbn [flat_map map concat fst snd]. rewrite !map_app, !concat_app.
    rewrite textChunk_value, IH. cbn. now rewrite app_nil_r, <- app_assoc.
  - apply Forall_app. split; [|apply textChunk_filled].
    clear Hst. induction ms as [|[t m] ms IH]; [constructor|].
    inversion Hsound as [|? ? (p' & t' & cs' & Hl & _) Hrest]; subst.
    cbn [flat_map fst snd]. apply Forall_app. split; [|now apply IH].
    apply Forall_app. split; [apply textChunk_filled|].
    constructor; [|constructor]. cbn [chunkValue snd] in *.
    destruct (Requires_lang protected_needs_char _ _ _ _ _ Hl) as (x & Hx & _).
    intros E. rewrite E in Hx. contradiction.
Qed.

(** X7: The chunks of [protectTokens] are non-empty and, put together in
    order, give back the input: nothing is lost and nothing is added. *)
Theorem protectTokens_partitions_input (s : str) :
  concat (map chunkValue (protectTokens s)) = s
  /\ Forall (fun c => chunkValue c <> []) (protectTokens s).
Proof. apply protectTokens_partition. Qed.

Lemma occurs_ci_elim W : forall s,
  occurs_ci W s = true ->
  exists u t, s = u ++ t /\ starts_with_ci W t = true.
Proof.
  induction s as [|x s IH]; cbn [occurs_ci]; intros H.
  - rewrite orb_false_r in H. now exists [], [].
  - apply orb_prop in H. destruct H as [H | H].
    + now exists [], (x :: s).
    + destruct (IH H) as (u & t & -> & Ht). now exists (x :: u), t.
Qed.

Lemma starts_with_ci_more W : forall t r,
  starts_with_ci W t = true -> starts_with_ci W (t ++ r) = true.
Proof.
  induction W as [|a W IH]; intros t r H; [reflexivity|].
  destruct t as [|y t]; [discriminate|]. cbn [starts_with_ci app] in *.
  apply andb_prop in H. destruct H as [E H]. now rewrite E, IH.
Qed.

Lemma occurs_ci_part W b s :
  part b s -> occurs_ci W b = true -> occurs_ci W s = true.
Proof.
  intros (a & c & ->) H. apply occurs_ci_elim in H.
  destruct H as (u & t & -> & Ht).
  rewrite <- app_assoc, app_assoc. apply occurs_ci_suffix.
  now apply starts_with_ci_more.
Qed.

Lemma concat_part (x : str) : forall l, In x l -> part x (concat l).
Proof.
  induction l as [|a l IH]; intros H; [contradiction|].
  destruct H as [-> | H]; cbn [concat].
  - now exists [], (concat l).
  - destruct (IH H) as (u & v & E). exists (a ++ u), v.
    now rewrite E, <- app_assoc.
Qed.

Lemma join_nil : forall l : list str, join [] l = concat l.
Proof.
  induction l as [|a l IH]; [reflexivity|].
  destruct l as [|b l]; [cbn; now rewrite app_nil_r|].
  change (join [] (a :: b :: l)) with (a ++ [] ++ join [] (b :: l)).
  now rewrite IH.
Qed.

Lemma spellChunks_quiet (tbl : table) : forall chunks done st,
  (forall c, In c chunks ->
             existsb (fun e => occurs_ci (fst e) (chunkValue c)) tbl = false) ->
  fold_left (spellChunk tbl) chunks (done, st)
  = (done ++ map chunkValue chunks, st).
Proof.
  induction chunks as [|c chunks IH]; intros done st H.
  - cbn. now rewrite app_nil_r.
  - cbn [fold_left map]. unfold spellChunk at 2.
    assert (Hc := H c (or_introl eq_refl)).
    assert (H' : forall c', In c' chunks ->
               existsb (fun e => occurs_ci (fst e) (chunkValue c')) tbl = false)
      by (intros c' Hc'; apply H; now right).
    destruct c as [v|v]; cbn [chunkValue] in *.
    + rewrite spell_quiet by exact Hc. rewrite IH by exact H'.
      now rewrite <- app_assoc.
    + rewrite IH by exact H'. now rewrite <- app_assoc.
Qed.

(** X8: A sentence in which no word of the table for the target variant
    occurs, in any letter case and also inside longer words, is
    returned as it is, unchanged and without change entries. *)
Theorem spelling_without_dictionary_words (s : str) (v : EnglishVariant) :
  existsb (fun e => occurs_ci (fst e) s) (variantTable v) = false ->
  standardiseSpelling s v = {| changed := false; value := s; changes := [] |}.
Proof.
  intros H. unfold standardiseSpelling. fold (variantTable v).
  destruct (protectTokens_partition s) as [Hcat _].
  rewrite spellChunks_quiet.
  - cbn [app]. now rewrite join_nil, Hcat.
  - intros c Hc. apply not_true_is_false. intros Hex.
    apply existsb_exists in Hex. destruct Hex as (e & He & Ho).
    assert (Hp : part (chunkValue c) s).
    { rewrite <- Hcat. apply concat_part. now apply in_map. }
    pose proof (occurs_ci_part _ Hp Ho) as Hs.
    assert (Hex : existsb (fun e => occurs_ci (fst e) s) (variantTable v) = true).
    { apply existsb_exists. now exists e. }
    congruence.
Qed.

Lemma spelling_without_dictionary_words_witness :
  standardiseSpelling (L "See https://example.com/colour for the color.") EnUS
  = {| changed := false;
       value := L "See https://example.com/colour for the color.";
       changes := [] |}.
Proof.
  apply (@spelling_without_dictionary_words
           (L "See https://example.com/colour for the color.") EnUS).
  vm_compute. reflexivity.
Defined.

(** ** Filler openers *)

Lemma trimStart_span : forall s,
  exists u, s = u ++ trimStart s /\ forallb is_space u = true
            /\ match trimStart s with
               | y :: _ => is_space y = false
               | [] => True
               end.
Proof.
  induction s as [|x s IH]; cbn [trimStart].
  - now exists [].
  - destruct (is_space x) eqn:E.
    + destruct IH as (u & Es & Hu & Hv). exists (x :: u).
      cbn [app forallb]. rewrite <- Es, E, Hu. now repeat split.
    + exists []. cbn. now rewrite E.
Qed.

(** One attempt of the opener pattern: the opener in any letter case,
    then the longest run of white space. *)
Lemma filler_match_at f s :
  match_at (re_filler f) None s
  = if starts_with_ci f s
    then match skipn (length f) s with
         | x :: rest =>
             if is_space x
             then Some (MRes (firstn (length s - length (trimStart rest)) s) [])
             else None
         | [] => None
         end
    else None.
Proof.
  unfold match_at, re_filler, plus. cbn [mt prev]. rewrite mt_liti.
  destruct (starts_with_ci f s); [|reflexivity].
  cbn [mt prev rest caps rep].
  destruct (skipn (length f) s) as [|x rest]; [reflexivity|].
  destruct (is_space x); [|reflexivity].
  destruct (trimStart_span rest) as (u & Er & Hu & Hv).
  rewrite Er at 1.
  apply star_greedy_upto; [exact Hu|exact Hv|reflexivity].
Qed.

Lemma filler_strip f s :
  test (re_filler f) s = true ->
  exists w x rest,
    s = w ++ x :: rest /\ toLowerCase w = toLowerCase f /\ is_space x = true
    /\ replaceFirst (re_filler f) (fun _ => []) s = trimStart rest.
Proof.
  intros Ht. unfold test in Ht. unfold replaceFirst.
  destruct (exec (re_filler f) s) as [[[pre m] post]|] eqn:E; [|discriminate].
  pose proof E as E'. unfold re_filler in E'. apply exec_bol in E'.
  destruct E' as [-> Em]. fold (re_filler f) in Em.
  pose proof (search_split _ _ _ E) as [Es _]. cbn [app] in Es.
  rewrite filler_match_at in Em.
  destruct (starts_with_ci f s) eqn:Hf; [|discriminate].
  destruct (skipn (length f) s) as [|x rest] eqn:Hk; [discriminate|].
  destruct (is_space x) eqn:Hx; [|discriminate].
  inversion Em as [Em']. clear Em.
  pose proof (firstn_skipn (length f) s) as Hsplit. rewrite Hk in Hsplit.
  exists (firstn (length f) s), x, rest.
  split; [now rewrite Hsplit|].
  split.
  { clear - Hf. revert s Hf. induction f as [|a f IH]; intros s Hf;
      [reflexivity|].
    destruct s as [|y s]; [discriminate|]. cbn in Hf.
    apply andb_prop in Hf. destruct Hf as [Ea Hf]. apply Ascii.eqb_eq in Ea.
    cbn [length firstn toLowerCase map]. unfold toLowerCase in IH.
    now rewrite Ea, (IH s Hf). }
  split; [exact Hx|].
  cbn [app]. rewrite <- Em' in Es. cbn [m_text] in Es.
  destruct (trimStart_span rest) as (u & Er & _ & _).
  assert (Hs : s = (firstn (length f) s ++ x :: u) ++ trimStart rest).
  { rewrite <- Hsplit at 1. rewrite Er at 1. now rewrite <- app_assoc. }
  remember (firstn (length f) s ++ x :: u) as A eqn:EA. clear EA.
  remember (trimStart rest) as V eqn:EV. clear - Es Hs.
  subst s. rewrite firstn_consumed in Es. now apply app_inv_head in Es.
Qed.

(** X9: [stripFillerOpener] removes at most one opener: the first of the
    list that stands at the very start of the sentence, in any letter
    case, followed by white space; it returns what follows the opener
    without its leading white space.  Otherwise the sentence is
    returned as it is. *)
Theorem stripFillerOpener_removes_leading_opener (s : str) :
  let r := stripFillerOpener s in
  (s_changed r = false -> s_value r = s /\ s_removed r = None)
  /\ (s_changed r = true ->
      exists f w x rest,
        s_removed r = Some f /\ In f fillerOpeners
        /\ s = w ++ x :: rest /\ toLowerCase w = toLowerCase f
        /\ is_space x = true /\ s_value r = trimStart rest).
Proof.
  intros r. subst r. unfold stripFillerOpener.
  induction fillerOpeners as [|f fs IH]; cbn [stripFillerFrom].
  - split; [now split|discriminate].
  - destruct (test (re_filler f) s) eqn:Ht.
    + cbn [s_changed s_value s_removed]. split; [discriminate|]. intros _.
      destruct (filler_strip f s Ht) as (w & x & rest & Es & Ew & Hx & Ev).
      exists f, w, x, rest. repeat split; auto. now left.
    + destruct IH as [IH1 IH2]. split; [exact IH1|]. intros Hc.
      destruct (IH2 Hc) as (g & w & x & rest & Er & Hg & Hrest).
      exists g, w, x, rest. split; [exact Er|]. split; [now right|exact Hrest].
Qed.

Lemma stripFillerOpener_removes_leading_opener_witness :
  exists f w x rest,
    s_removed (stripFillerOpener (L "for awareness  the work goes on"))
    = Some f /\ In f fillerOpeners
    /\ L "for awareness  the work goes on" = w ++ x :: rest
    /\ toLowerCase w = toLowerCase f /\ is_space x = true
    /\ s_value (stripFillerOpener (L "for awareness  the work goes on"))
       = trimStart rest.
Proof.
  apply (proj2 (@stripFillerOpener_removes_leading_opener
                  (L "for awareness  the work goes on"))).
  vm_compute. reflexivity.
Defined.

(** ** Terminal punctuation *)







(** ** Casing *)

Lemma gentle_tail R r f x s : gentle R r f (x :: s) -> gentle R r f s.
Proof.
  intros H u w t p cs' E. apply (H (x :: u) w t p cs'). now rewrite E.
Qed.

(** If every replacement is related to what it replaces, character by
    character, the whole result is related to the text. *)
Lemma scan_related (R : ascii -> ascii -> Prop) r f :
  (forall x, R x x) ->
  forall s skip p,
    gentle R r f s ->
    Forall2 R (skipn skip s) (assemble f (scan r skip p s)).
Proof.
  intros Hrefl.
  assert (Hid : forall l, Forall2 R l l).
  { induction l; constructor; auto. }
  induction s as [|x s IH]; intros skip p Hg.
  - destruct skip as [|n]; cbn [scan skipn]; [|constructor].
    destruct (match_at r p []) as [m|] eqn:E; [|constructor].
    apply match_at_sound in E. destruct E as (w & t & cs' & Et & Hl & ->).
    symmetry in Et. apply app_eq_nil in Et. destruct Et as [-> ->].
    unfold assemble. cbn [fst snd map concat app]. rewrite !app_nil_r.
    exact (Hg [] [] [] p cs' eq_refl Hl).
  - pose proof (gentle_tail Hg) as Hg'.
    destruct skip as [|n]; cbn [scan skipn]; [|apply (IH n (Some x) Hg')].
    destruct (match_at r p (x :: s)) as [m|] eqn:E.
    + apply match_at_sound in E. destruct E as (w & t & cs' & Et & Hl & ->).
      pose proof (Hg [] w t p cs' Et Hl) as Hf.
      cbn [m_text]. destruct w as [|y w]; cbn [length].
      * specialize (IH 0 (Some x) Hg').
        destruct (cons_text x (scan r 0 (Some x) s)) as [ms tl] eqn:Ec.
        rewrite assemble_cons, <- Ec, assemble_cons_text.
        cbn [app]. inversion Hf as [Hnil|]. cbn [app].
        constructor; [apply Hrefl|exact IH].
      * assert (Es' : s = w ++ t) by (cbn in Et; now injection Et).
        specialize (IH (length w) (Some x) Hg').
        destruct (scan r (length w) (Some x) s) as [ms tl] eqn:Es.
        rewrite assemble_cons. cbn [app].
        rewrite Et. apply Forall2_app; [exact Hf|].
        replace (skipn (length w) s) with t in IH; [exact IH|].
        now rewrite Es', skipn_app, Nat.sub_diag, skipn_all.
    + rewrite assemble_cons_text. constructor; [apply Hrefl|].
      apply (IH 0 (Some x) Hg').
Qed.

Lemma replaceAll_related (R : ascii -> ascii -> Prop) r f s :
  (forall x, R x x) -> gentle R r f s -> Forall2 R s (replaceAll r f s).
Proof.
  intros Hrefl Hg. unfold replaceAll, matches.
  pose proof (scan_related Hrefl 0 None Hg) as H. unfold assemble in H.
  cbn [skipn] in H. now destruct (scan r 0 None s).
Qed.

Lemma pronoun_gentle s : gentle capitalised_i re_pronoun (fun _ => L "I") s.
Proof.
  intros u w t p cs' _ Hl. unfold re_pronoun, chr in Hl. cbn [lang] in Hl.
  destruct Hl as (w1 & w2 & cs1 & -> & (-> & _ & _) &
                  w3 & w4 & cs2 & -> & (x & -> & Hx & _) & (-> & _ & _)).
  apply eqb_class in Hx. subst x.
  constructor; [|constructor]. right. now split.
Qed.

Lemma match_at_chr (c : cls) p x t :
  match_at (Chr c) p (x :: t) = if c x then Some (MRes [x] []) else None.
Proof.
  unfold match_at. cbn [mt rest caps]. destruct (c x); [|reflexivity].
  cbn [rest caps length]. replace (S (length t) - length t) with 1 by lia.
  reflexivity.
Qed.

(** The first character of a class, as [search] finds it. *)
Lemma search_chr_some (c : cls) : forall t p pre m post,
  search (Chr c) p t = Some (pre, m, post) ->
  exists x, m = MRes [x] [] /\ c x = true /\ t = pre ++ x :: post
            /\ find c pre = None.
Proof.
  induction t as [|x t IH]; intros p pre m post H.
  - cbn in H. discriminate.
  - cbn [search] in H. rewrite match_at_chr in H.
    destruct (c x) eqn:Hx.
    + inversion H; subst. exists x. now repeat split.
    + destruct (search (Chr c) (Some x) t) as [[[pre' m'] post']|] eqn:E;
        [|discriminate].
      inversion H; subst. destruct (IH _ _ _ _ E) as (y & -> & Hy & -> & Hf).
      exists y. repeat split; auto. cbn [find]. now rewrite Hx.
Qed.

Lemma search_chr_none (c : cls) : forall t p,
  search (Chr c) p t = None -> find c t = None.
Proof.
  induction t as [|x t IH]; intros p H; [reflexivity|].
  cbn [search] in H. rewrite match_at_chr in H. cbn [find].
  destruct (c x); [discriminate|].
  destruct (search (Chr c) (Some x) t) as [[[pre' m'] post']|] eqn:E;
    [discriminate|]. now apply IH with (Some x).
Qed.

Lemma upper_of_letter x : is_alpha x = true -> is_upper (upper_char x) = true.
Proof. destruct x as [[] [] [] [] [] [] [] []]; vm_compute; congruence. Qed.

Lemma find_none_app (c : cls) a b : find c a = None -> find c (a ++ b) = find c b.
Proof.
  induction a as [|x a IH]; [reflexivity|]. cbn [find app].
  destruct (c x); [discriminate|exact IH].
Qed.

Lemma capitalised_i_before pre : forall r1,
  find is_alpha pre = None -> Forall2 capitalised_i pre r1 -> r1 = pre.
Proof.
  induction pre as [|c pre IH]; intros r1 Hf H; inversion H; subst;
    [reflexivity|].
  cbn [find] in Hf. destruct (is_alpha c) eqn:Hc; [discriminate|].
  f_equal; [|now apply IH].
  match goal with Hr : capitalised_i c _ |- _ => destruct Hr as [-> | [-> _]] end;
    [reflexivity|discriminate].
Qed.

(** X11: [fixSentenceCasing] changes the case of letters only, and the first
    letter of its result is the upper-case form of the first letter of
    the trimmed sentence. *)
Theorem fixSentenceCasing_capitalises_first_letter (s : str) :
  toLowerCase (fixSentenceCasing s) = toLowerCase (trim s)
  /\ find is_alpha (fixSentenceCasing s)
     = option_map upper_char (find is_alpha (trim s)).
Proof.
  unfold fixSentenceCasing. set (t := trim s).
  destruct (negb (truthy t)) eqn:Ht.
  { destruct t; [now split|discriminate]. }
  unfold exec.
  destruct (search (Chr is_alpha) None t) as [[[before m] after]|] eqn:E.
  - destruct (search_chr_some _ _ _ E) as (x & -> & Hx & Et & Hb).
    cbn [m_text toUpperCase map app].
    set (out := before ++ upper_char x :: after).
    split.
    + unfold toLowerCase at 1.
      rewrite replaceAll_harmless by apply pronoun_harmless.
      fold (toLowerCase out). unfold out. rewrite Et, !toLowerCase_app.
      f_equal. unfold toLowerCase. cbn [map]. now rewrite lower_upper.
    + pose proof (@replaceAll_related capitalised_i re_pronoun
                    (fun _ => L "I") out
                    (fun x => or_introl eq_refl) (@pronoun_gentle out)) as Hr.
      unfold out in Hr at 1. apply Forall2_app_inv_l in Hr.
      destruct Hr as (r1 & r2 & H1 & H2 & ->).
      inversion H2 as [|? u' ? r2' Hu H2']; subst.
      rewrite (capitalised_i_before Hb H1).
      rewrite Et, !find_none_app by exact Hb. cbn [find option_map].
      rewrite Hx. pose proof (upper_of_letter _ Hx) as Hup.
      destruct Hu as [-> | [Ei _]].
      * unfold is_alpha. now rewrite Hup.
      * rewrite Ei in Hup. discriminate.
  - split; [reflexivity|]. now rewrite (@search_chr_none is_alpha t None E).
Qed.

(** ** [dedupe] once more *)

Lemma dedupeFrom_fixed : forall items seen,
  (forall x, In x items -> x <> [] /\ trim x = x) ->
  NoDup items -> (forall x, In x items -> ~ In x seen) ->
  dedupeFrom seen items = items.
Proof.
  induction items as [|s items IH]; intros seen Ht Hn Hs; [reflexivity|].
  cbn [dedupeFrom]. destruct (Ht s (or_introl eq_refl)) as [Hne Etr].
  rewrite Etr. destruct s as [|a s']; [congruence|]. cbn [truthy negb orb].
  inversion Hn as [|? ? Hnotin Hn']; subst.
  destruct (existsb (str_eqb (a :: s')) seen) eqn:E.
  - apply existsb_str_eqb in E. exfalso. apply (Hs (a :: s')); [now left|exact E].
  - f_equal. apply IH.
    + intros x Hx. apply Ht. now right.
    + exact Hn'.
    + intros x Hx [<- | Hin]; [contradiction|].
      apply (Hs x); [now right|exact Hin].
Qed.

(** X12: Deduplicating a deduplicated list changes nothing. *)
Theorem dedupe_is_idempotent (items : list str) :
  dedupe (dedupe items) = dedupe items.
Proof.
  unfold dedupe at 1. apply dedupeFrom_fixed.
  - intros x Hx. unfold dedupe in Hx. apply dedupeFrom_In in Hx.
    destruct Hx as (Hne & Hin & _). split; [exact Hne|].
    apply in_map_iff in Hin. destruct Hin as (y & <- & _). apply trim_idem.
  - apply dedupeFrom_NoDup.
  - intros x _ [].
Qed.

(** ** Sentences and paragraphs *)

Lemma scan_whole r s :
  concat (map (fun tm : str * mres => fst tm ++ m_text (snd tm))
              (fst (matches r s))) ++ snd (matches r s) = s.
Proof.
  pose proof (@replaceAll_stable r m_text s) as H. unfold replaceAll in H.
  destruct (matches r s) as [ms tl]. apply H.
  intros u w t p cs' _ _. reflexivity.
Qed.

Lemma match_is_part r s tm :
  In tm (fst (matches r s)) -> part (m_text (snd tm)) s.
Proof.
  intros Hin. pose proof (scan_whole r s) as E.
  destruct (matches r s) as [ms tl]. cbn [fst snd] in *.
  apply in_split in Hin. destruct Hin as (l1 & l2 & ->).
  rewrite map_app, concat_app in E. cbn [map concat] in E.
  exists (concat (map (fun tm => fst tm ++ m_text (snd tm)) l1) ++ fst tm),
    (concat (map (fun tm => fst tm ++ m_text (snd tm)) l2) ++ tl).
  rewrite <- E. now rewrite <- !app_assoc.
Qed.

(** X13: Every sentence [splitSentences] returns is a non-empty contiguous
    part of the text without white space at either end. *)
Theorem splitSentences_gives_trimmed_parts (t x : str) :
  In x (splitSentences t) -> x <> [] /\ trim x = x /\ part x t.
Proof.
  unfold splitSentences. intros H. apply filter_In in H.
  destruct H as [Hin Htr]. apply in_map_iff in Hin.
  destruct Hin as (y & <- & Hy).
  split; [intros E; rewrite E in Htr; discriminate|].
  split; [apply trim_idem|].
  apply part_trans with y; [apply part_trim|].
  unfold matchG in Hy. destruct (fst (matches re_sentence t)) as [|tm ms] eqn:E.
  - destruct Hy as [<- | []]. exists [], []. now rewrite app_nil_r.
  - apply in_map_iff in Hy. destruct Hy as (tm' & <- & Hin).
    apply (@match_is_part re_sentence). now rewrite E.
Qed.

Lemma splitSentences_gives_trimmed_parts_witness :
  L "b?" <> [] /\ trim (L "b?") = L "b?" /\ part (L "b?") (L " a.  b? c").
Proof.
  apply (@splitSentences_gives_trimmed_parts (L " a.  b? c") (L "b?")).
  vm_compute. right. now left.
Defined.

Lemma sentence_match_whole t p :
  t <> [] -> forallb (none_of terminators) t = true ->
  match_at re_sentence p t = Some (MRes t []).
Proof.
  intros Hne Hall. destruct t as [|x t]; [congruence|].
  cbn [forallb] in Hall. apply andb_prop in Hall. destruct Hall as [Hx Hall].
  unfold match_at.
  set (k0 := fun st' : mst =>
               Some (MRes (firstn (length (x :: t) - length (rest st')) (x :: t))
                          (caps st'))).
  assert (Hk : forall p', k0 (MSt p' [] []) = Some (MRes (x :: t) [])).
  { intros p'. unfold k0. cbn [rest caps].
    change (length (@nil ascii)) with 0. now rewrite Nat.sub_0_r, firstn_all. }
  unfold re_sentence, plus. cbn [mt prev rest caps rep]. rewrite Hx.
  apply star_greedy_all; [exact Hall|].
  cbn [mt prev rest caps rep]. apply Hk.
Qed.

Lemma sentence_match_nil p : match_at re_sentence p [] = None.
Proof. reflexivity. Qed.

(** X14: A text without . ! ? is one sentence, its trimmed self; a blank one
    has no sentence. *)
Theorem splitSentences_without_terminator (t : str) :
  forallb (none_of terminators) t = true ->
  splitSentences t = if truthy (trim t) then [trim t] else [].
Proof.
  intros Hall. unfold splitSentences, matchG, matches.
  destruct t as [|x t'] eqn:Et; [reflexivity|]. rewrite <- Et in *.
  assert (Hne : t <> []) by (rewrite Et; discriminate).
  pose proof (@scan_hit re_sentence None t [] (MRes t [])) as Hs.
  rewrite app_nil_r in Hs.
  rewrite Hs by (auto using sentence_match_whole).
  cbn [scan]. rewrite sentence_match_nil. cbn [fst map m_text snd filter].
  reflexivity.
Qed.

Lemma splitSentences_without_terminator_witness :
  splitSentences (L "  no stop here ") = [L "no stop here"].
Proof.
  apply (@splitSentences_without_terminator (L "  no stop here ")).
  reflexivity.
Defined.

(** ** Letter case of a replacement *)



(** ** Base verbs *)






(** ** What a conversion looks like *)



(** ** Escaping *)

Lemma escape_replaced : forall s p,
  replaced (Chr (one_of regexSpecials)) (fun m => BACKSLASH :: m_text m) p s
  = flat_map escapeChar s.
Proof.
  induction s as [|x s IH]; intros p.
  - now apply replaced_nil.
  - cbn [flat_map]. unfold escapeChar at 1.
    destruct (one_of regexSpecials x) eqn:Hx.
    + change (x :: s) with ([x] ++ s).
      rewrite (@replaced_hit _ _ p [x] s (MRes [x] [])).
      * cbn [m_text app]. f_equal. f_equal. apply IH.
      * cbn [app]. rewrite match_at_chr. now rewrite Hx.
      * reflexivity.
      * discriminate.
    + rewrite replaced_miss by (rewrite match_at_chr; now rewrite Hx).
      cbn [app]. f_equal. apply IH.
Qed.

(** X18: [escapeRegex] puts a backslash before each of the fourteen special
    characters and changes nothing else; a text without special
    character, such as every filler opener, vocabulary phrase and
    dictionary word of the engine, is returned as it is. *)
Theorem escapeRegex_escapes_specials_only :
  (forall s, escapeRegex s = flat_map escapeChar s)
  /\ (forall s, forallb (none_of regexSpecials) s = true -> escapeRegex s = s)
  /\ forallb (fun w => str_eqb (escapeRegex w) w)
       (fillerOpeners ++ map fst vocabularyMap ++ map fst ukToUs
          ++ map fst usToUk) = true.
Proof.
  assert (H1 : forall s, escapeRegex s = flat_map escapeChar s).
  { intros s. unfold escapeRegex. rewrite replaceAll_replaced.
    apply escape_replaced. }
  split; [exact H1|]. split.
  - intros s Hs. rewrite H1. induction s as [|x s IH]; [reflexivity|].
    cbn [forallb] in Hs. apply andb_prop in Hs. destruct Hs as [Hx Hs].
    cbn [flat_map]. unfold escapeChar at 1. unfold none_of in Hx.
    apply negb_true_iff in Hx. rewrite Hx. cbn [app]. now rewrite IH.
  - vm_compute. reflexivity.
Qed.

Lemma escapeRegex_escapes_specials_only_witness :
  escapeRegex (L "to be honest") = L "to be honest".
Proof.
  destruct escapeRegex_escapes_specials_only as (_ & H & _).
  apply H. reflexivity.
Defined.

(** ** Spacing: the patterns and the passes *)

Lemma span_class (c : cls) : forall s,
  exists u v, s = u ++ v /\ forallb c u = true /\ startsWith c v = false.
Proof.
  induction s as [|x s IH].
  - now exists [], [].
  - destruct (c x) eqn:Hx.
    + destruct IH as (u & v & -> & Hu & Hv). exists (x :: u), v.
      cbn [app forallb]. now rewrite Hx, Hu.
    + exists [], (x :: s). cbn. now rewrite Hx.
Qed.

Lemma startsWith_head (c : cls) v :
  startsWith c v = false -> match v with y :: _ => c y = false | [] => True end.
Proof. destruct v; cbn; auto. Qed.

(** *** Runs of a class *)

Lemma plus_match_at (c : cls) p x u v :
  c x = true -> forallb c u = true -> startsWith c v = false ->
  match_at (plus c) p (x :: u ++ v) = Some (MRes (x :: u) []).
Proof.
  intros Hx Hu Hv. unfold match_at, plus. cbn [mt prev rest caps rep].
  rewrite Hx.
  apply star_greedy_upto; [exact Hu|now apply startsWith_head|].
  cbn [rest caps]. change (x :: u ++ v) with ((x :: u) ++ v).
  now rewrite firstn_consumed.
Qed.

Lemma plus_match_none (c : cls) p s :
  startsWith c s = false -> match_at (plus c) p s = None.
Proof.
  intros H. unfold match_at, plus. cbn [mt prev rest caps rep].
  destruct s as [|x s]; [reflexivity|]. cbn in H. now rewrite H.
Qed.

Lemma squeeze_cons (c : cls) x s :
  squeeze c (x :: s)
  = if c x
    then if startsWith c s then squeeze c s else SP :: squeeze c s
    else x :: squeeze c s.
Proof. reflexivity. Qed.

Lemma squeeze_run (c : cls) : forall u x v,
  c x = true -> forallb c u = true -> startsWith c v = false ->
  squeeze c (x :: u ++ v) = SP :: squeeze c v.
Proof.
  induction u as [|y u IH]; intros x v Hx Hu Hv.
  - cbn [app]. now rewrite squeeze_cons, Hx, Hv.
  - cbn [forallb] in Hu. apply andb_prop in Hu. destruct Hu as [Hy Hu].
    cbn [app]. rewrite squeeze_cons, Hx. cbn [startsWith]. rewrite Hy.
    now apply (IH y v).
Qed.

Lemma squeeze_replaced (c : cls) : forall n s p,
  length s <= n ->
  replaced (plus c) (fun _ => [SP]) p s = squeeze c s.
Proof.
  induction n as [|n IH]; intros s p Hn.
  - destruct s; [|cbn in Hn; lia]. now apply replaced_nil.
  - destruct s as [|x s]; [now apply replaced_nil|].
    destruct (c x) eqn:Hx.
    + destruct (span_class c s) as (u & v & -> & Hu & Hv).
      change (x :: u ++ v) with ((x :: u) ++ v) at 1.
      rewrite (@replaced_hit _ _ p (x :: u) v (MRes (x :: u) [])).
      * rewrite squeeze_run by assumption. cbn [app]. f_equal. apply IH.
        cbn [length] in Hn. rewrite length_app in Hn. lia.
      * now apply plus_match_at.
      * reflexivity.
      * discriminate.
    + rewrite replaced_miss
        by (apply plus_match_none; cbn; exact Hx).
      rewrite squeeze_cons, Hx. f_equal. apply IH. cbn in Hn. lia.
Qed.

(** *** White space before punctuation *)

Lemma gap_run : forall u y v,
  forallb is_space u = true -> is_space y = false ->
  gap (u ++ y :: v) = one_of punct y.
Proof.
  induction u as [|x u IH]; intros y v Hu Hy.
  - cbn. now rewrite Hy.
  - cbn [forallb] in Hu. apply andb_prop in Hu. destruct Hu as [Hx Hu].
    cbn [app gap]. rewrite Hx. now apply IH.
Qed.

Lemma gap_blank u : forallb is_space u = true -> gap u = false.
Proof.
  induction u as [|x u IH]; [reflexivity|]. cbn [forallb gap].
  intros H. apply andb_prop in H. destruct H as [Hx Hu]. now rewrite Hx, IH.
Qed.

Lemma punct_is_not_space x : one_of punct x = true -> is_space x = false.
Proof. destruct x as [[] [] [] [] [] [] [] []]; vm_compute; congruence. Qed.

Lemma letter_is_not_punct x : is_alpha x = true -> one_of punct x = false.
Proof. destruct x as [[] [] [] [] [] [] [] []]; vm_compute; congruence. Qed.

Lemma letter_is_not_space x : is_alpha x = true -> is_space x = false.
Proof. destruct x as [[] [] [] [] [] [] [] []]; vm_compute; congruence. Qed.

(** A gap: the text is a run of white space and a punctuation mark. *)
Lemma gap_elim s :
  gap s = true ->
  exists u y v, s = u ++ y :: v /\ forallb is_space u = true
                /\ one_of punct y = true.
Proof.
  induction s as [|x s IH]; [discriminate|]. cbn [gap].
  destruct (is_space x) eqn:Hx.
  - intros H. destruct (IH H) as (u & y & v & -> & Hu & Hy).
    exists (x :: u), y, v. cbn [app forallb]. now rewrite Hx, Hu.
  - intros H. now exists [], x, s.
Qed.

Lemma run_unique : forall u u' (y y' : ascii) v v',
  u ++ y :: v = u' ++ y' :: v' ->
  forallb is_space u = true -> forallb is_space u' = true ->
  is_space y = false -> is_space y' = false ->
  u = u' /\ y = y' /\ v = v'.
Proof.
  induction u as [|x u IH]; intros u' y y' v v' E Hu Hu' Hy Hy'.
  - destruct u' as [|x' u'].
    + cbn in E. inversion E. now repeat split.
    + cbn in E. inversion E; subst. cbn in Hu'.
      apply andb_prop in Hu'. destruct Hu' as [Hx' _]. congruence.
  - cbn [forallb] in Hu. apply andb_prop in Hu. destruct Hu as [Hx Hu].
    destruct u' as [|x' u'].
    + cbn in E. inversion E; subst. congruence.
    + cbn in E. inversion E; subst. cbn in Hu'.
      apply andb_prop in Hu'. destruct Hu' as [_ Hu'].
      destruct (IH u' y y' v v' H1 Hu Hu' Hy Hy') as (-> & -> & ->).
      now repeat split.
Qed.

Lemma space_punct_match p s m :
  match_at re_space_punct p s = Some m ->
  exists x u y v,
    s = x :: u ++ y :: v /\ is_space x = true /\ forallb is_space u = true
    /\ one_of punct y = true /\ m = MRes (x :: u ++ [y]) [(1, [y])].
Proof.
  intros H. apply match_at_sound in H.
  destruct H as (w & t & cs' & -> & Hl & ->).
  unfold re_space_punct, plus in Hl. cbn [lang] in Hl.
  destruct Hl as (w1 & w2 & cs1 & -> & (Hlen & Hall & ->) &
                  cs2 & (y & -> & Hy & ->) & ->).
  destruct w1 as [|x u]; [cbn in Hlen; lia|].
  cbn [forallb] in Hall. apply andb_prop in Hall. destruct Hall as [Hx Hu].
  exists x, u, y, t. cbn [app]. rewrite <- app_assoc. cbn [app].
  now repeat split.
Qed.

Lemma space_punct_found p x u y v :
  is_space x = true -> forallb is_space u = true -> one_of punct y = true ->
  match_at re_space_punct p (x :: u ++ y :: v)
  = Some (MRes (x :: u ++ [y]) [(1, [y])]).
Proof.
  intros Hx Hu Hy.
  destruct (match_at re_space_punct p (x :: u ++ y :: v)) as [m|] eqn:E.
  - destruct (space_punct_match _ _ E)
      as (x' & u' & y' & v' & Es & Hx' & Hu' & Hy' & ->).
    inversion Es as [[Ex Er]]. subst x'.
    destruct (run_unique _ _ _ _ _ _ Er Hu Hu' (punct_is_not_space _ Hy)
                (punct_is_not_space _ Hy')) as (-> & -> & ->).
    reflexivity.
  - exfalso. revert E.
    change (x :: u ++ y :: v) with ((x :: u) ++ y :: v).
    replace ((x :: u) ++ y :: v) with (((x :: u) ++ [y]) ++ v)
      by (now rewrite <- app_assoc).
    apply match_at_complete with (cs' := [(1, [y])]).
    unfold re_space_punct, plus. cbn [lang].
    exists (x :: u), [y], []. split; [reflexivity|].
    split.
    + split; [cbn; lia|]. split; [|reflexivity]. cbn [forallb].
      now rewrite Hx, Hu.
    + exists []. split; [|reflexivity]. now exists y.
Qed.

Lemma space_punct_none p x s :
  is_space x && gap s = false -> match_at re_space_punct p (x :: s) = None.
Proof.
  intros H. destruct (match_at re_space_punct p (x :: s)) as [m|] eqn:E;
    [exfalso|reflexivity].
  destruct (space_punct_match _ _ E)
    as (x' & u & y & v & Es & Hx & Hu & Hy & _).
  inversion Es; subst. rewrite Hx in H. cbn in H.
  rewrite gap_run in H by (auto using punct_is_not_space). congruence.
Qed.

Lemma closeUp_cons x s :
  closeUp (x :: s) = if is_space x && gap s then closeUp s else x :: closeUp s.
Proof. reflexivity. Qed.

Lemma closeUp_run : forall u x y v,
  is_space x = true -> forallb is_space u = true -> one_of punct y = true ->
  closeUp (x :: u ++ y :: v) = y :: closeUp v.
Proof.
  induction u as [|z u IH]; intros x y v Hx Hu Hy.
  - cbn [app]. rewrite closeUp_cons, Hx.
    replace (gap (y :: v)) with true
      by (cbn [gap]; now rewrite (punct_is_not_space _ Hy), Hy).
    cbn [andb]. rewrite closeUp_cons.
    now rewrite (punct_is_not_space _ Hy).
  - cbn [forallb] in Hu. apply andb_prop in Hu. destruct Hu as [Hz Hu].
    cbn [app]. rewrite closeUp_cons, Hx.
    replace (gap (z :: u ++ y :: v)) with true.
    + cbn [andb]. now apply IH.
    + symmetry. change (z :: u ++ y :: v) with ((z :: u) ++ y :: v).
      rewrite gap_run; auto using punct_is_not_space.
      cbn [forallb]. now rewrite Hz, Hu.
Qed.

Lemma closeUp_replaced : forall n s p,
  length s <= n ->
  replaced re_space_punct (fun m => group_or_empty m 1) p s = closeUp s.
Proof.
  induction n as [|n IH]; intros s p Hn.
  - destruct s; [|cbn in Hn; lia]. now apply replaced_nil.
  - destruct s as [|x s]; [now apply replaced_nil|].
    destruct (is_space x && gap s) eqn:Hg.
    + apply andb_prop in Hg. destruct Hg as [Hx Hg].
      destruct (gap_elim _ Hg) as (u & y & v & -> & Hu & Hy).
      rewrite closeUp_run by assumption.
      replace (x :: u ++ y :: v) with ((x :: u ++ [y]) ++ v)
        by (cbn [app]; now rewrite <- app_assoc).
      rewrite (@replaced_hit _ _ p (x :: u ++ [y]) v
                 (MRes (x :: u ++ [y]) [(1, [y])])).
      * cbn. f_equal. apply IH. cbn [length] in Hn.
        rewrite !length_app in Hn. cbn in Hn. lia.
      * replace ((x :: u ++ [y]) ++ v) with (x :: u ++ y :: v)
          by (cbn [app]; now rewrite <- app_assoc).
        now apply space_punct_found.
      * reflexivity.
      * discriminate.
    + rewrite replaced_miss by (now apply space_punct_none).
      rewrite closeUp_cons, Hg. f_equal. apply IH. cbn in Hn. lia.
Qed.

(** *** A space after punctuation *)

Lemma punct_letter_match p s m :
  match_at re_punct_letter p s = Some m ->
  exists x y v,
    s = x :: y :: v /\ one_of punct x = true /\ is_alpha y = true
    /\ m = MRes [x; y] [(2, [y]); (1, [x])].
Proof.
  intros H. apply match_at_sound in H.
  destruct H as (w & t & cs' & -> & Hl & ->).
  unfold re_punct_letter in Hl. cbn [lang] in Hl.
  destruct Hl as (w1 & w2 & cs1 & -> &
                  (cs2 & (x & -> & Hx & ->) & ->) &
                  cs3 & (y & -> & Hy & ->) & ->).
  exists x, y, t. now repeat split.
Qed.

Lemma punct_letter_found p x y v :
  one_of punct x = true -> is_alpha y = true ->
  match_at re_punct_letter p (x :: y :: v)
  = Some (MRes [x; y] [(2, [y]); (1, [x])]).
Proof.
  intros Hx Hy.
  destruct (match_at re_punct_letter p (x :: y :: v)) as [m|] eqn:E.
  - destruct (punct_letter_match _ _ E) as (x' & y' & v' & Es & _ & _ & ->).
    now inversion Es.
  - exfalso. revert E. change (x :: y :: v) with ([x; y] ++ v).
    apply match_at_complete with (cs' := [(2, [y]); (1, [x])]).
    unfold re_punct_letter. cbn [lang].
    exists [x], [y], [(1, [x])]. split; [reflexivity|]. split.
    + exists []. split; [now exists x|reflexivity].
    + exists [(1, [x])]. split; [now exists y|reflexivity].
Qed.

Lemma punct_letter_none p x s :
  one_of punct x && startsWith is_alpha s = false ->
  match_at re_punct_letter p (x :: s) = None.
Proof.
  intros H. destruct (match_at re_punct_letter p (x :: s)) as [m|] eqn:E;
    [exfalso|reflexivity].
  destruct (punct_letter_match _ _ E) as (x' & y & v & Es & Hx & Hy & _).
  inversion Es; subst. cbn [startsWith] in H. now rewrite Hx, Hy in H.
Qed.

Lemma aerate_replaced : forall n s p,
  length s <= n ->
  replaced re_punct_letter
    (fun m => group_or_empty m 1 ++ [SP] ++ group_or_empty m 2) p s
  = aerate s.
Proof.
  induction n as [|n IH]; intros s p Hn.
  - destruct s; [|cbn in Hn; lia]. now apply replaced_nil.
  - destruct s as [|x s]; [now apply replaced_nil|].
    destruct (one_of punct x && startsWith is_alpha s) eqn:Hg.
    + apply andb_prop in Hg. destruct Hg as [Hx Hs].
      destruct s as [|y v]; [discriminate|]. cbn in Hs.
      change (x :: y :: v) with ([x; y] ++ v) at 1.
      rewrite (@replaced_hit _ _ p [x; y] v (MRes [x; y] [(2, [y]); (1, [x])])).
      * cbn [aerate startsWith]. rewrite Hx, Hs. cbn [andb].
        rewrite (letter_is_not_punct _ Hs). cbn [andb].
        cbn. f_equal. f_equal. f_equal.
        rewrite IH by (cbn in Hn; lia). reflexivity.
      * now apply punct_letter_found.
      * reflexivity.
      * discriminate.
    + rewrite replaced_miss by (now apply punct_letter_none).
      cbn [aerate]. rewrite Hg. f_equal. apply IH. cbn in Hn. lia.
Qed.

(** [normaliseSpacing], pass by pass. *)
Lemma normaliseSpacing_passes s :
  normaliseSpacing s
  = trim (squeeze is_space (aerate (closeUp (squeeze (one_of [SP; TAB]) s)))).
Proof.
  unfold normaliseSpacing. rewrite !replaceAll_replaced.
  unfold re_blanks, re_spaces.
  rewrite (@squeeze_replaced (one_of [SP; TAB]) (length s) s None (le_n _)).
  rewrite (@closeUp_replaced _ _ None (le_n _)).
  rewrite (@aerate_replaced _ _ None (le_n _)).
  now rewrite (@squeeze_replaced is_space _ _ None (le_n _)).
Qed.

(** ** Spacing: the normal form *)

Lemma adjacent_cons R x s :
  adjacent R (x :: s)
  = match s with y :: _ => R x y | [] => true end && adjacent R s.
Proof. destruct s; reflexivity. Qed.

Lemma adjacent_app_r R : forall a t,
  adjacent R (a ++ t) = true -> adjacent R t = true.
Proof.
  induction a as [|x a IH]; intros t H; [exact H|].
  cbn [app] in H. rewrite adjacent_cons in H. apply andb_prop in H.
  now apply IH.
Qed.

Lemma adjacent_app_l R : forall t b,
  adjacent R (t ++ b) = true -> adjacent R t = true.
Proof.
  induction t as [|x t IH]; intros b H; [reflexivity|].
  cbn [app] in H. rewrite adjacent_cons in *. apply andb_prop in H.
  destruct H as [Hx Ht]. rewrite (IH b Ht), andb_true_r.
  destruct t; [reflexivity|exact Hx].
Qed.

Lemma adjacent_part R t s : part t s -> adjacent R s = true -> adjacent R t = true.
Proof.
  intros (a & b & ->) H. apply adjacent_app_r in H. now apply adjacent_app_l in H.
Qed.

Lemma adjacent_any (R : ascii -> ascii -> bool) :
  (forall x y, R x y = true) -> forall s, adjacent R s = true.
Proof.
  intros HR. induction s as [|x s IH]; [reflexivity|].
  rewrite adjacent_cons, IH. destruct s; now rewrite ?HR.
Qed.

Lemma squeeze_head (c : cls) : forall s y,
  exists tl, squeeze c (y :: s) = (if c y then SP else y) :: tl.
Proof.
  induction s as [|z s IH]; intros y; rewrite squeeze_cons.
  - destruct (c y); cbn; eexists; reflexivity.
  - destruct (c y) eqn:Hy; [|eexists; reflexivity].
    cbn [startsWith]. destruct (c z) eqn:Hz; [|eexists; reflexivity].
    destruct (IH z) as (tl & E). rewrite E, Hz. now exists tl.
Qed.

(** What squeezing does to a relation between neighbours. *)
Lemma squeeze_adjacent (c : cls) (Q R : ascii -> ascii -> bool) :
  (forall a, c a = false -> R a SP = true) ->
  (forall w z, c w = true -> c z = false -> Q w z = true -> R SP z = true) ->
  (forall a b, c a = false -> c b = false -> Q a b = true -> R a b = true) ->
  forall s, adjacent Q s = true -> adjacent R (squeeze c s) = true.
Proof.
  intros Ha Hb Hc. induction s as [|x s IH]; intros HQ; [reflexivity|].
  rewrite adjacent_cons in HQ. apply andb_prop in HQ. destruct HQ as [Hx HQ].
  specialize (IH HQ). rewrite squeeze_cons.
  destruct (c x) eqn:Cx.
  - destruct (startsWith c s) eqn:Hs; [exact IH|].
    rewrite adjacent_cons, IH, andb_true_r.
    destruct s as [|z s']; [reflexivity|]. cbn in Hs.
    destruct (squeeze_head c s' z) as (tl & E). rewrite E, Hs.
    now apply (Hb x z).
  - rewrite adjacent_cons, IH, andb_true_r.
    destruct s as [|z s']; [reflexivity|].
    destruct (squeeze_head c s' z) as (tl & E). rewrite E.
    destruct (c z) eqn:Cz; [now apply Ha|now apply Hc].
Qed.

Lemma squeeze_plainSpace : forall s,
  forallb plainSpace (squeeze is_space s) = true.
Proof.
  induction s as [|x s IH]; [reflexivity|]. rewrite squeeze_cons.
  destruct (is_space x) eqn:Hx.
  - destruct (startsWith is_space s); [exact IH|].
    cbn [forallb]. now rewrite IH.
  - cbn [forallb]. unfold plainSpace at 1. now rewrite Hx, IH.
Qed.

Lemma space_is_not_punct x : is_space x = true -> one_of punct x = false.
Proof. destruct x as [[] [] [] [] [] [] [] []]; vm_compute; congruence. Qed.

Lemma closeUp_next x s :
  gap s = false ->
  match closeUp s with y :: _ => noSpacePunct x y | [] => true end = true.
Proof.
  intros Hg. destruct s as [|y s]; [reflexivity|]. rewrite closeUp_cons.
  cbn [gap] in Hg. destruct (is_space y) eqn:Hy.
  - rewrite Hg. cbn [andb]. unfold noSpacePunct.
    rewrite (space_is_not_punct _ Hy). now rewrite andb_false_r.
  - cbn [andb]. unfold noSpacePunct. rewrite Hg. now rewrite andb_false_r.
Qed.

Lemma closeUp_noSpacePunct : forall s,
  adjacent noSpacePunct (closeUp s) = true.
Proof.
  induction s as [|x s IH]; [reflexivity|]. rewrite closeUp_cons.
  destruct (is_space x && gap s) eqn:Hg; [exact IH|].
  rewrite adjacent_cons, IH, andb_true_r.
  destruct (is_space x) eqn:Hx.
  - cbn [andb] in Hg. now apply closeUp_next.
  - destruct (closeUp s); [reflexivity|]. unfold noSpacePunct. now rewrite Hx.
Qed.

Lemma aerate_cons x s :
  aerate (x :: s)
  = if one_of punct x && startsWith is_alpha s
    then x :: SP :: aerate s else x :: aerate s.
Proof. reflexivity. Qed.

Lemma aerate_head s y : exists tl, aerate (y :: s) = y :: tl.
Proof. rewrite aerate_cons. destruct (_ && _); eexists; reflexivity. Qed.

Lemma aerate_noPunctLetter : forall s,
  adjacent noPunctLetter (aerate s) = true.
Proof.
  induction s as [|x s IH]; [reflexivity|]. rewrite aerate_cons.
  destruct (one_of punct x && startsWith is_alpha s) eqn:Hg.
  - rewrite adjacent_cons. unfold noPunctLetter at 1.
    replace (is_alpha SP) with false by reflexivity. rewrite andb_false_r.
    cbn [negb andb]. rewrite adjacent_cons, IH, andb_true_r.
    destruct (aerate s); reflexivity.
  - rewrite adjacent_cons, IH, andb_true_r.
    destruct s as [|y s']; [reflexivity|].
    destruct (aerate_head s' y) as (tl & E). rewrite E.
    unfold noPunctLetter. cbn [startsWith] in Hg. now rewrite Hg.
Qed.

Lemma aerate_noSpacePunct : forall s,
  adjacent noSpacePunct s = true -> adjacent noSpacePunct (aerate s) = true.
Proof.
  induction s as [|x s IH]; intros H; [reflexivity|].
  rewrite adjacent_cons in H. apply andb_prop in H. destruct H as [Hx H].
  specialize (IH H). rewrite aerate_cons.
  destruct (one_of punct x && startsWith is_alpha s) eqn:Hg.
  - apply andb_prop in Hg. destruct Hg as [Px Hs].
    destruct s as [|y s']; [discriminate|]. cbn in Hs.
    destruct (aerate_head s' y) as (tl & E).
    rewrite adjacent_cons. unfold noSpacePunct at 1.
    replace (one_of punct SP) with false by reflexivity.
    rewrite andb_false_r. cbn [negb andb].
    rewrite adjacent_cons, IH, andb_true_r, E.
    unfold noSpacePunct. rewrite (letter_is_not_punct _ Hs).
    now rewrite andb_false_r.
  - rewrite adjacent_cons, IH, andb_true_r.
    destruct s as [|y s']; [reflexivity|].
    destruct (aerate_head s' y) as (tl & E). now rewrite E.
Qed.

(** *** Texts in normal form are left alone *)

Lemma squeeze_fixed (c : cls) :
  (forall x, c x = true -> is_space x = true) ->
  forall s, adjacent noSpaceSpace s = true -> forallb plainSpace s = true ->
            squeeze c s = s.
Proof.
  intros Hc. induction s as [|x s IH]; intros Ha Hp; [reflexivity|].
  rewrite adjacent_cons in Ha. apply andb_prop in Ha. destruct Ha as [Hx Ha].
  cbn [forallb] in Hp. apply andb_prop in Hp. destruct Hp as [Px Hp].
  rewrite squeeze_cons, (IH Ha Hp).
  destruct (c x) eqn:Cx; [|reflexivity].
  pose proof (Hc x Cx) as Sx. unfold plainSpace in Px. rewrite Sx in Px.
  cbn [negb orb] in Px. apply Ascii.eqb_eq in Px. subst x.
  destruct s as [|y s']; [reflexivity|]. cbn [startsWith].
  unfold noSpaceSpace in Hx. rewrite Sx in Hx. cbn [andb] in Hx.
  apply negb_true_iff in Hx.
  destruct (c y) eqn:Cy; [|reflexivity].
  rewrite (Hc y Cy) in Hx. discriminate.
Qed.

Lemma closeUp_fixed : forall s,
  adjacent noSpaceSpace s = true -> adjacent noSpacePunct s = true ->
  closeUp s = s.
Proof.
  induction s as [|x s IH]; intros Ha Hb; [reflexivity|].
  rewrite adjacent_cons in Ha, Hb.
  apply andb_prop in Ha. destruct Ha as [Hx Ha].
  apply andb_prop in Hb. destruct Hb as [Hy Hb].
  rewrite closeUp_cons, (IH Ha Hb).
  destruct (is_space x) eqn:Sx; [|reflexivity]. cbn [andb].
  destruct s as [|y s']; [reflexivity|]. cbn [gap].
  unfold noSpaceSpace in Hx. unfold noSpacePunct in Hy. rewrite Sx in Hx, Hy.
  cbn [andb] in Hx, Hy. apply negb_true_iff in Hx, Hy. now rewrite Hx, Hy.
Qed.

Lemma aerate_fixed : forall s,
  adjacent noPunctLetter s = true -> aerate s = s.
Proof.
  induction s as [|x s IH]; intros Ha; [reflexivity|].
  rewrite adjacent_cons in Ha. apply andb_prop in Ha. destruct Ha as [Hx Ha].
  rewrite aerate_cons, (IH Ha).
  destruct s as [|y s']; [now rewrite andb_false_r|]. cbn [startsWith].
  unfold noPunctLetter in Hx. apply negb_true_iff in Hx. now rewrite Hx.
Qed.

Lemma normalSpacing_inv s :
  normalSpacing s = true ->
  adjacent noSpaceSpace s = true /\ adjacent noSpacePunct s = true
  /\ adjacent noPunctLetter s = true /\ forallb plainSpace s = true
  /\ trim s = s.
Proof.
  unfold normalSpacing. intros H.
  apply andb_prop in H. destruct H as [H H5].
  apply andb_prop in H. destruct H as [H H4].
  apply andb_prop in H. destruct H as [H H3].
  apply andb_prop in H. destruct H as [H1 H2].
  apply str_eqb_eq in H5. now repeat split.
Qed.

Lemma normalSpacing_fixed t :
  normalSpacing t = true -> normaliseSpacing t = t.
Proof.
  intros H. apply normalSpacing_inv in H.
  destruct H as (H1 & H2 & H3 & H4 & H5).
  rewrite normaliseSpacing_passes.
  rewrite (@squeeze_fixed (one_of [SP; TAB]) blank_is_space t H1 H4).
  rewrite (@closeUp_fixed t H1 H2), (@aerate_fixed t H3).
  now rewrite (@squeeze_fixed is_space (fun x H => H) t H1 H4).
Qed.

Lemma normaliseSpacing_normal s : normalSpacing (normaliseSpacing s) = true.
Proof.
  rewrite normaliseSpacing_passes.
  set (t3 := aerate (closeUp (squeeze (one_of [SP; TAB]) s))).
  set (t4 := squeeze is_space t3).
  assert (H3a : adjacent noSpacePunct t3 = true).
  { apply aerate_noSpacePunct, closeUp_noSpacePunct. }
  assert (H3b : adjacent noPunctLetter t3 = true) by apply aerate_noPunctLetter.
  assert (H4a : adjacent noSpaceSpace t4 = true).
  { apply squeeze_adjacent with (Q := fun _ _ => true).
    - intros a Ha. unfold noSpaceSpace. now rewrite Ha.
    - intros w z _ Hz _. unfold noSpaceSpace. rewrite Hz.
      now rewrite andb_false_r.
    - intros a b Ha _ _. unfold noSpaceSpace. now rewrite Ha.
    - now apply adjacent_any. }
  assert (H4b : adjacent noSpacePunct t4 = true).
  { apply squeeze_adjacent with (Q := noSpacePunct); [| | |exact H3a].
    - intros a Ha. unfold noSpacePunct. now rewrite Ha.
    - intros w z Hw _ HQ. unfold noSpacePunct in *. rewrite Hw in HQ.
      cbn [andb] in HQ. apply negb_true_iff in HQ. rewrite HQ.
      now rewrite andb_false_r.
    - intros a b _ _ HQ. exact HQ. }
  assert (H4c : adjacent noPunctLetter t4 = true).
  { apply squeeze_adjacent with (Q := noPunctLetter); [| | |exact H3b].
    - intros a _. unfold noPunctLetter.
      replace (is_alpha SP) with false by reflexivity.
      now rewrite andb_false_r.
    - intros w z _ _ _. reflexivity.
    - intros a b _ _ HQ. exact HQ. }
  assert (H4d : forallb plainSpace t4 = true) by apply squeeze_plainSpace.
  pose proof (part_trim t4) as Hp.
  unfold normalSpacing.
  rewrite (@adjacent_part _ _ _ Hp H4a), (@adjacent_part _ _ _ Hp H4b),
    (@adjacent_part _ _ _ Hp H4c).
  destruct Hp as (a & b & E). rewrite E in H4d at 1.
  rewrite !forallb_app in H4d.
  apply andb_prop in H4d. destruct H4d as [_ H4d].
  apply andb_prop in H4d. destruct H4d as [H4d _]. rewrite H4d.
  rewrite trim_idem, str_eqb_refl. reflexivity.
Qed.

(** X19: The result of [normaliseSpacing] has normal spacing: single spaces
    as the only white space, none at either end and none before a
    punctuation mark, and no letter directly after a punctuation mark.
    A text with normal spacing is left as it is, so normalising twice
    is normalising once. *)
Theorem normaliseSpacing_reaches_normal_form (s : str) :
  normalSpacing (normaliseSpacing s) = true
  /\ (forall t, normalSpacing t = true -> normaliseSpacing t = t)
  /\ normaliseSpacing (normaliseSpacing s) = normaliseSpacing s.
Proof.
  split; [apply normaliseSpacing_normal|]. split.
  - apply normalSpacing_fixed.
  - apply normalSpacing_fixed, normaliseSpacing_normal.
Qed.

Lemma normaliseSpacing_reaches_normal_form_witness :
  normaliseSpacing (L "Done ,as planned.") = L "Done, as planned."
  /\ normaliseSpacing (L "Done, as planned.") = L "Done, as planned.".
Proof.
  split; [reflexivity|].
  apply (proj1 (proj2 (@normaliseSpacing_reaches_normal_form [])));
    reflexivity.
Defined.

(** *** Only white space changes *)

Lemma filter_blank u : forallb is_space u = true -> filter non_space u = [].
Proof.
  induction u as [|x u IH]; [reflexivity|]. cbn [forallb filter].
  intros H. apply andb_prop in H. destruct H as [Hx Hu].
  unfold non_space at 1. now rewrite Hx, IH.
Qed.

Lemma trim_span s :
  exists a b, s = a ++ trim s ++ b
              /\ forallb is_space a = true /\ forallb is_space b = true.
Proof.
  unfold trim. destruct (trimStart_span s) as (a & Ea & Ha & _).
  unfold trimEnd.
  destruct (trimStart_span (rev (trimStart s))) as (u & Eu & Hu & _).
  exists a, (rev u). split; [|split; [exact Ha|]].
  - rewrite Ea at 1. f_equal.
    rewrite <- (rev_involutive (trimStart s)) at 1. rewrite Eu at 1.
    now rewrite rev_app_distr.
  - apply forallb_forall. intros x Hx. apply in_rev in Hx.
    rewrite forallb_forall in Hu. now apply Hu.
Qed.

Lemma squeeze_keeps_text (c : cls) :
  (forall x, c x = true -> is_space x = true) ->
  forall s, filter non_space (squeeze c s) = filter non_space s.
Proof.
  intros Hc. induction s as [|x s IH]; [reflexivity|].
  rewrite squeeze_cons. destruct (c x) eqn:Cx.
  - cbn [filter]. unfold non_space at 2. rewrite (Hc x Cx). cbn [negb].
    destruct (startsWith c s); [exact IH|].
    cbn [filter]. unfold non_space at 1.
    replace (is_space SP) with true by reflexivity. exact IH.
  - cbn [filter]. now rewrite IH.
Qed.

Lemma closeUp_keeps_text : forall s,
  filter non_space (closeUp s) = filter non_space s.
Proof.
  induction s as [|x s IH]; [reflexivity|]. rewrite closeUp_cons.
  destruct (is_space x) eqn:Sx.
  - cbn [andb filter]. unfold non_space at 2. rewrite Sx. cbn [negb].
    destruct (gap s); [exact IH|].
    cbn [filter]. unfold non_space at 1. now rewrite Sx.
  - cbn [andb filter]. now rewrite IH.
Qed.

Lemma aerate_keeps_text : forall s,
  filter non_space (aerate s) = filter non_space s.
Proof.
  induction s as [|x s IH]; [reflexivity|]. rewrite aerate_cons.
  destruct (one_of punct x && startsWith is_alpha s); cbn [filter];
    [|now rewrite IH].
  unfold non_space at 2. replace (is_space SP) with true by reflexivity.
  cbn [negb]. now rewrite IH.
Qed.

(** X20: [normaliseSpacing] adds and removes white space only: the other
    characters of the text come out as they went in, in their order. *)
Theorem normaliseSpacing_changes_white_space_only (s : str) :
  filter non_space (normaliseSpacing s) = filter non_space s.
Proof.
  rewrite normaliseSpacing_passes.
  set (t4 := squeeze is_space (aerate (closeUp (squeeze (one_of [SP; TAB]) s)))).
  assert (H4 : filter non_space t4 = filter non_space s).
  { unfold t4. rewrite (@squeeze_keeps_text is_space (fun x H => H)).
    rewrite aerate_keeps_text, closeUp_keeps_text.
    apply squeeze_keeps_text. exact blank_is_space. }
  destruct (trim_span t4) as (a & b & E & Ha & Hb).
  rewrite <- H4. rewrite E at 2. rewrite !filter_app.
  now rewrite (filter_blank _ Ha), (filter_blank _ Hb), app_nil_r.
Qed.

(** ** Paragraphs: splitting what was joined *)

Lemma split_pieces r s : split r s = pieces r None s.
Proof. unfold split, pieces, matches. now destruct (scan r 0 None s). Qed.

Lemma pieces_nil r p : match_at r p [] = None -> pieces r p [] = [[]].
Proof. intros E. unfold pieces. cbn [scan]. now rewrite E. Qed.

Lemma pieces_miss r p x s :
  match_at r p (x :: s) = None ->
  pieces r p (x :: s)
  = match pieces r (Some x) s with
    | h :: tl => (x :: h) :: tl
    | [] => []
    end.
Proof.
  intros E. unfold pieces. rewrite scan_miss by exact E.
  destruct (scan r 0 (Some x) s) as [[|[t m] ms] tl]; reflexivity.
Qed.

Lemma pieces_hit r p w t m :
  match_at r p (w ++ t) = Some m -> m_text m = w -> w <> [] ->
  pieces r p (w ++ t) = [] :: pieces r (walk p w) t.
Proof.
  intros E Ew Hw. unfold pieces. rewrite (@scan_hit r p w t m E Ew Hw).
  reflexivity.
Qed.

Lemma blank_lines_none p x s :
  Ascii.eqb LF x = false -> match_at re_blank_lines p (x :: s) = None.
Proof.
  intros Hx. unfold match_at, re_blank_lines. cbn [mt prev rest caps rep].
  now rewrite Hx.
Qed.

Lemma blank_lines_two p v :
  startsWith (Ascii.eqb LF) v = false ->
  match_at re_blank_lines p (LF :: LF :: v) = Some (MRes [LF; LF] []).
Proof.
  intros Hv. unfold match_at, re_blank_lines. cbn [mt prev rest caps rep].
  replace (Ascii.eqb LF LF) with true by reflexivity.
  change v with ([] ++ v) at 1.
  apply star_greedy_upto; [reflexivity|now apply startsWith_head|].
  cbn [rest caps]. change (LF :: LF :: v) with ([LF; LF] ++ v).
  now rewrite firstn_consumed.
Qed.

Lemma not_LF p x : ~ In LF (x :: p) -> Ascii.eqb LF x = false.
Proof.
  intros H. apply not_true_is_false. intros E. apply eqb_class in E.
  apply H. now left.
Qed.

Lemma pieces_paragraph r : forall para q rest,
  (forall q' x s, In x para -> match_at r q' (x :: s) = None) ->
  pieces r q (para ++ rest)
  = match pieces r (walk q para) rest with
    | h :: tl => (para ++ h) :: tl
    | [] => []
    end.
Proof.
  induction para as [|x para IH]; intros q rest H.
  - cbn. now destruct (pieces r q rest).
  - cbn [app]. rewrite pieces_miss by (apply H; now left).
    rewrite IH by (intros q' y s Hy; apply H; now right).
    change (walk q (x :: para)) with (walk (Some x) para).
    now destruct (pieces r (walk (Some x) para) rest).
Qed.

Lemma join_head_paragraph sep ps p :
  oneParagraph p -> startsWith (Ascii.eqb LF) (join sep (p :: ps)) = false.
Proof.
  intros (Hne & HLF & _). destruct p as [|x p]; [congruence|].
  destruct ps as [|p2 ps]; cbn [join app startsWith]; now apply not_LF with p.
Qed.

Lemma pieces_joined : forall ps q,
  ps <> [] -> Forall oneParagraph ps ->
  pieces re_blank_lines q (join [LF; LF] ps) = ps.
Proof.
  induction ps as [|p ps IH]; intros q Hne H; [congruence|].
  inversion H as [|? ? Hp Hps]; subst.
  assert (Hmiss : forall q' x s, In x p ->
                    match_at re_blank_lines q' (x :: s) = None).
  { intros q' x s Hx. apply blank_lines_none.
    apply not_true_is_false. intros E. apply eqb_class in E. subst x.
    now destruct Hp as (_ & HLF & _). }
  destruct ps as [|p2 ps'].
  - cbn [join]. rewrite <- (app_nil_r p) at 1.
    rewrite pieces_paragraph by exact Hmiss.
    rewrite pieces_nil by reflexivity. now rewrite app_nil_r.
  - change (join [LF; LF] (p :: p2 :: ps'))
      with (p ++ [LF; LF] ++ join [LF; LF] (p2 :: ps')).
    rewrite pieces_paragraph by exact Hmiss.
    rewrite (@pieces_hit _ _ [LF; LF] _ (MRes [LF; LF] [])).
    + rewrite IH by (discriminate || exact Hps). now rewrite app_nil_r.
    + apply blank_lines_two. inversion Hps; subst.
      now apply join_head_paragraph.
    + reflexivity.
    + discriminate.
Qed.

(** *** Line ends *)

Lemma crlf_match p s m :
  match_at re_crlf p s = Some m ->
  exists v, s = CR :: LF :: v /\ m = MRes [CR; LF] [].
Proof.
  intros H. apply match_at_sound in H.
  destruct H as (w & t & cs' & -> & Hl & ->).
  unfold re_crlf, chr in Hl. cbn [lang] in Hl.
  destruct Hl as (w1 & w2 & cs1 & -> & (x & -> & Hx & ->) &
                  (y & -> & Hy & ->)).
  apply eqb_class in Hx, Hy. subst. now exists t.
Qed.

Lemma crlf_found p v :
  match_at re_crlf p (CR :: LF :: v) = Some (MRes [CR; LF] []).
Proof.
  destruct (match_at re_crlf p (CR :: LF :: v)) as [m|] eqn:E.
  - destruct (crlf_match _ _ E) as (v' & _ & ->). reflexivity.
  - exfalso. revert E. change (CR :: LF :: v) with ([CR; LF] ++ v).
    apply match_at_complete with (cs' := []).
    unfold re_crlf, chr. cbn [lang].
    exists [CR], [LF], []. split; [reflexivity|].
    split; [now exists CR|now exists LF].
Qed.

Lemma crlf_none p x s :
  Ascii.eqb CR x && startsWith (Ascii.eqb LF) s = false ->
  match_at re_crlf p (x :: s) = None.
Proof.
  intros H. destruct (match_at re_crlf p (x :: s)) as [m|] eqn:E;
    [exfalso|reflexivity].
  destruct (crlf_match _ _ E) as (v & Es & _). inversion Es; subst.
  discriminate.
Qed.

Lemma dropCR_cons x s :
  dropCR (x :: s)
  = if Ascii.eqb CR x && startsWith (Ascii.eqb LF) s
    then dropCR s else x :: dropCR s.
Proof. reflexivity. Qed.

Lemma crlf_replaced : forall n s p,
  length s <= n ->
  replaced re_crlf (fun _ => [LF]) p s = dropCR s.
Proof.
  induction n as [|n IH]; intros s p Hn.
  - destruct s; [|cbn in Hn; lia]. now apply replaced_nil.
  - destruct s as [|x s]; [now apply replaced_nil|].
    rewrite dropCR_cons.
    destruct (Ascii.eqb CR x && startsWith (Ascii.eqb LF) s) eqn:Hg.
    + apply andb_prop in Hg. destruct Hg as [Hx Hs].
      apply eqb_class in Hx. subst x.
      destruct s as [|y v]; [discriminate|]. cbn [startsWith] in Hs.
      apply eqb_class in Hs. subst y.
      change (CR :: LF :: v) with ([CR; LF] ++ v) at 1.
      rewrite (@replaced_hit _ _ p [CR; LF] v (MRes [CR; LF] []));
        [|apply crlf_found|reflexivity|discriminate].
      rewrite dropCR_cons. cbn [andb app].
      replace (Ascii.eqb CR LF) with false by reflexivity. cbn [andb].
      f_equal. apply IH. cbn in Hn. lia.
    + rewrite replaced_miss by (now apply crlf_none).
      f_equal. apply IH. cbn in Hn. lia.
Qed.

Lemma dropCR_clean : forall p rest,
  ~ In CR p -> dropCR (p ++ rest) = p ++ dropCR rest.
Proof.
  induction p as [|x p IH]; intros rest H; [reflexivity|].
  cbn [app]. rewrite dropCR_cons.
  replace (Ascii.eqb CR x) with false.
  - cbn [andb]. f_equal. apply IH. intros Hin. apply H. now right.
  - symmetry. apply not_true_is_false. intros E. apply eqb_class in E.
    apply H. now left.
Qed.

Lemma dropCR_joined sep : forall ps,
  sep = [LF; LF] \/ sep = [CR; LF; CR; LF] ->
  Forall oneParagraph ps ->
  dropCR (join sep ps) = join [LF; LF] ps.
Proof.
  intros ps Hsep. induction ps as [|p ps IH]; intros H; [reflexivity|].
  inversion H as [|? ? (_ & _ & HCR) Hps]; subst.
  destruct ps as [|p2 ps'].
  - cbn [join]. rewrite <- (app_nil_r p) at 1.
    rewrite dropCR_clean by exact HCR. cbn. now rewrite app_nil_r.
  - change (join sep (p :: p2 :: ps'))
      with (p ++ sep ++ join sep (p2 :: ps')).
    change (join [LF; LF] (p :: p2 :: ps'))
      with (p ++ [LF; LF] ++ join [LF; LF] (p2 :: ps')).
    rewrite dropCR_clean by exact HCR. f_equal.
    rewrite <- (IH Hps).
    destruct Hsep as [-> | ->]; reflexivity.
Qed.

(** X21: Paragraphs joined by a blank line come back as they were, whether
    the lines end in a line feed or in carriage return and line feed. *)
Theorem splitParagraphs_of_joined_paragraphs (ps : list str) (sep : str) :
  ps <> [] -> Forall oneParagraph ps ->
  sep = [LF; LF] \/ sep = [CR; LF; CR; LF] ->
  splitParagraphs (join sep ps) = ps.
Proof.
  intros Hne Hps Hsep. unfold splitParagraphs.
  rewrite replaceAll_replaced.
  rewrite (@crlf_replaced _ _ None (le_n _)).
  rewrite (dropCR_joined Hsep Hps), split_pieces.
  now apply pieces_joined.
Qed.

Lemma splitParagraphs_of_joined_paragraphs_witness :
  splitParagraphs (join [CR; LF; CR; LF] [L "First one."; L "Second, same."])
  = [L "First one."; L "Second, same."].
Proof.
  apply (@splitParagraphs_of_joined_paragraphs
           [L "First one."; L "Second, same."] [CR; LF; CR; LF]).
  - discriminate.
  - repeat constructor; try discriminate;
      intros H; vm_compute in H; intuition discriminate.
  - now right.
Defined.

(** ** Nothing changes without an entry *)

Lemma bind_log {A B} (m : M A) (f : A -> M B) :
  appendOnly m -> (forall a, appendOnly (f a)) ->
  j_changeLog (snd (bind m f emptyJournal))
  = j_changeLog (snd (m emptyJournal))
      ++ j_changeLog (snd (f (fst (m emptyJournal)) emptyJournal)).
Proof.
  intros Hm Hf. unfold bind. destruct (m emptyJournal) as [a ja]. cbn [fst snd].
  rewrite (Hf a ja). reflexivity.
Qed.

Lemma forEach_log {A} (f : A -> M unit) l :
  (forall a, appendOnly (f a)) ->
  j_changeLog (snd (forEach f l emptyJournal))
  = flat_map (fun a => j_changeLog (snd (f a emptyJournal))) l.
Proof.
  intros Hf. induction l as [|a l IH]; [reflexivity|].
  cbn [forEach flat_map]. rewrite bind_log; auto with journal.
  now rewrite IH.
Qed.

Lemma vocabStep_eq (out : str) (chs : list str) (from to : str) :
  vocabStep (out, chs) (from, to)
  = if test (liti from) out
    then (replaceAll (liti from) (fun _ => to) out,
          chs ++ [L "Replaced " ++ quoted from ++ L " with " ++ quoted to])
    else (out, chs).
Proof. reflexivity. Qed.

Lemma vocab_logged : forall (l : table) (out : str) (chs : list str),
  (fst (fold_left vocabStep l (out, chs)) = out
   /\ snd (fold_left vocabStep l (out, chs)) = chs)
  \/ length chs < length (snd (fold_left vocabStep l (out, chs))).
Proof.
  induction l as [|[from to] l IH]; intros out chs; [now left|].
  cbn [fold_left]. rewrite vocabStep_eq.
  destruct (test (liti from) out); [|apply IH].
  right.
  destruct (IH (replaceAll (liti from) (fun _ => to) out)
               (chs ++ [L "Replaced " ++ quoted from ++ L " with " ++ quoted to]))
    as [[_ E] | E].
  - rewrite E, length_app. cbn [length]. lia.
  - rewrite length_app in E. cbn [length] in E. lia.
Qed.

(** A sentence [replaceVocabulary] changes comes with a change entry. *)
Lemma replaceVocabulary_logged s :
  changed (replaceVocabulary s) = true -> changes (replaceVocabulary s) <> [].
Proof.
  unfold replaceVocabulary.
  pose proof (vocab_logged vocabularyMap s []) as H.
  destruct (fold_left vocabStep vocabularyMap (s, [])) as [out chs].
  cbn [fst snd changed changes] in *.
  destruct H as [[-> _] | H].
  - now rewrite str_eqb_refl.
  - intros _ ->. cbn in H. lia.
Qed.

Lemma spellStep_eq (out : str) (chg : bool) (chs : list str) (from to : str) :
  spellStep (out, (chg, chs)) (from, to)
  = if test (re_word_i from) out
    then (replaceAll (re_word_i from) (fun m => matchCase (m_text m) to) out,
          (true,
           chs ++ [L "Standardised spelling: " ++ quoted from ++ [SP] ++ arrow
                     ++ [SP] ++ quoted to]))
    else (out, (chg, chs)).
Proof. reflexivity. Qed.

Lemma spell_logged : forall (l : table) (out : str) (chg : bool) (chs : list str),
  (chg = true -> chs <> []) ->
  fst (snd (fold_left spellStep l (out, (chg, chs)))) = true ->
  snd (snd (fold_left spellStep l (out, (chg, chs)))) <> [].
Proof.
  induction l as [|[from to] l IH]; intros out chg chs H; [exact H|].
  cbn [fold_left]. rewrite spellStep_eq.
  destruct (test (re_word_i from) out); [|now apply IH].
  apply IH. intros _ E. now destruct chs.
Qed.

Lemma spellChunk_eq (tbl : table) (done : list str) (st : bool * list str) c :
  spellChunk tbl (done, st) c
  = match c with
    | ProtectedSpan v => (done ++ [v], st)
    | TextChunk v =>
        (done ++ [fst (fold_left spellStep tbl (v, st))],
         snd (fold_left spellStep tbl (v, st)))
    end.
Proof.
  destruct c as [v|v]; [|reflexivity]. cbn [spellChunk].
  now destruct (fold_left spellStep tbl (v, st)).
Qed.

Lemma chunks_logged (tbl : table) :
  forall chunks (done : list str) (chg : bool) (chs : list str),
    (chg = true -> chs <> []) ->
    fst (snd (fold_left (spellChunk tbl) chunks (done, (chg, chs)))) = true ->
    snd (snd (fold_left (spellChunk tbl) chunks (done, (chg, chs)))) <> [].
Proof.
  induction chunks as [|c chunks IH]; intros done chg chs H; [exact H|].
  cbn [fold_left]. rewrite spellChunk_eq. destruct c as [v|v].
  - pose proof (@spell_logged tbl v chg chs H) as Hs.
    destruct (fold_left spellStep tbl (v, (chg, chs))) as [out [chg' chs']].
    cbn [fst snd] in *. now apply IH.
  - now apply IH.
Qed.

(** A sentence [standardiseSpelling] marks as changed comes with a
    change entry. *)
Lemma standardiseSpelling_logged s v :
  changed (standardiseSpelling s v) = true ->
  changes (standardiseSpelling s v) <> [].
Proof.
  unfold standardiseSpelling. fold (variantTable v).
  match goal with
  | |- context [fold_left ?f (protectTokens s) (?a, (?b, ?c))] =>
      pose proof (@chunks_logged (variantTable v) (protectTokens s) a b c) as H;
      pose proof (@chunk_changes (variantTable v) (protectTokens s) a b c
                    (Forall_nil _)) as Hform;
      destruct (fold_left f (protectTokens s) (a, (b, c)))
        as [pieces [chg chs]]
  end.
  cbn [fst snd changed changes] in *. intros Hc.
  assert (Hne : chs <> []) by (apply H; [discriminate|exact Hc]).
  destruct chs as [|d chs]; [congruence|].
  inversion Hform as [|? ? (e & _ & Ed) _]; subst.
  rewrite dedupe_cons; [discriminate|].
  rewrite !app_assoc. rewrite trim_quoted_end by reflexivity.
  unfold quoted. now destruct (_ ++ _).
Qed.

Lemma stageConcise_logged o s :
  j_changeLog (snd (stageConcise o s emptyJournal)) = [] ->
  fst (stageConcise o s emptyJournal) = s.
Proof.
  unfold stageConcise. destruct (concise o); [|reflexivity].
  destruct (s_changed _); [discriminate|reflexivity].
Qed.

Lemma stageVocabulary_logged s :
  j_changeLog (snd (stageVocabulary s emptyJournal)) = [] ->
  fst (stageVocabulary s emptyJournal) = s.
Proof.
  unfold stageVocabulary.
  destruct (changed (replaceVocabulary s)) eqn:E; [|reflexivity].
  apply replaceVocabulary_logged in E.
  rewrite bind_log by auto with journal.
  rewrite forEach_log by auto with journal.
  destruct (changes (replaceVocabulary s)); [congruence|discriminate].
Qed.

Lemma stageSpelling_logged o s :
  j_changeLog (snd (stageSpelling o s emptyJournal)) = [] ->
  fst (stageSpelling o s emptyJournal) = s.
Proof.
  unfold stageSpelling. destruct (Types.standardiseSpelling o); [|reflexivity].
  destruct (changed (standardiseSpelling s (englishVariant o))) eqn:E;
    [|reflexivity].
  apply standardiseSpelling_logged in E.
  rewrite bind_log by auto with journal.
  rewrite forEach_log by auto with journal.
  destruct (changes _); [congruence|discriminate].
Qed.

Lemma stageVoice_logged o s :
  j_changeLog (snd (stageVoice o s emptyJournal)) = [] ->
  fst (stageVoice o s emptyJournal) = s.
Proof.
  unfold stageVoice. destruct (activeVoice o); [|reflexivity].
  destruct (converted _); [discriminate|].
  destruct (suggestion _) as [sg|]; [|reflexivity].
  now destruct (truthy sg).
Qed.

Lemma sentence_logged o examples s :
  sentenceLog o examples s = [] ->
  sentenceText o examples s = finish (stageStyle examples s).
Proof.
  unfold sentenceLog, sentenceText, voiced, prepared, rewriteSentence.
  intros H.
  repeat (rewrite bind_log in H;
          [| auto with journal
           | intros; repeat (apply appendOnly_bind; [auto with journal|intros ?]);
             apply appendOnly_ret]).
  apply app_eq_nil in H. destruct H as [H1 H].
  apply app_eq_nil in H. destruct H as [H2 H].
  apply app_eq_nil in H. destruct H as [H3 H].
  apply app_eq_nil in H. destruct H as [_ H].
  apply app_eq_nil in H. destruct H as [H4 _].
  apply stageConcise_logged in H1. rewrite H1 in *.
  apply stageVocabulary_logged in H2. rewrite H2 in *.
  apply stageSpelling_logged in H3. rewrite H3 in *.
  apply stageVoice_logged in H4. now rewrite H4.
Qed.

Lemma flat_map_nil {A B} (f : A -> list B) : forall l,
  flat_map f l = [] -> forall x, In x l -> f x = [].
Proof.
  induction l as [|a l IH]; intros H x Hx; [contradiction|].
  cbn [flat_map] in H. apply app_eq_nil in H. destruct H as [Ha Hl].
  destruct Hx as [<- | Hx]; [exact Ha|now apply IH].
Qed.

(** X22: An empty change log means formatting only: if [rewrite] logs no
    change, the rewritten text is the input with just the style
    heuristic, casing, terminal punctuation and spacing applied to its
    sentences; no opener was removed, no phrase or spelling replaced and
    no sentence converted. *)
Theorem empty_log_means_formatting_only (txt : str) (o : RewriteOptions)
        (examples : list StyleExample) :
  changeLog (rewrite txt o examples) = [] ->
  rewrittenText (rewrite txt o examples)
  = trim (join [LF; LF] (map (formattedBlock examples) (splitParagraphs txt))).
Proof.
  intros H. rewrite rewrite_text. do 2 f_equal.
  assert (Hlog : flat_map (blockLog o examples) (splitParagraphs txt) = []).
  { rewrite <- rewriteBlocks_changeLog. unfold rewrite in H.
    destruct (rewriteBlocks txt o examples) as [bs j]. exact H. }
  apply map_ext_in. intros block Hb.
  pose proof (flat_map_nil _ _ Hlog block Hb) as Hbl.
  unfold blockText, formattedBlock.
  destruct (negb (truthy (trim block))); [reflexivity|].
  do 2 f_equal. apply map_ext_in. intros s Hs.
  apply sentence_logged. unfold blockLog in Hbl.
  exact (flat_map_nil _ _ Hbl s Hs).
Qed.

Lemma empty_log_means_formatting_only_witness :
  rewrittenText (rewrite (L "this is a test sentence") baseOptions [])
  = trim (join [LF; LF]
            (map (formattedBlock [])
                 (splitParagraphs (L "this is a test sentence")))).
Proof.
  apply (@empty_log_means_formatting_only (L "this is a test sentence")
           baseOptions []).
  vm_compute. reflexivity.
Defined.

(** ** Counting words *)

Lemma countRuns_cons (c : cls) x s :
  countRuns c (x :: s)
  = (if c x && negb (startsWith c s) then 1 else 0) + countRuns c s.
Proof. reflexivity. Qed.

Lemma pieces_length (c : cls) : forall n s p,
  length s <= n ->
  length (pieces (plus c) p s) = S (countRuns c s).
Proof.
  induction n as [|n IH]; intros s p Hn.
  - destruct s; [|cbn in Hn; lia]. now rewrite pieces_nil.
  - destruct s as [|x s]; [now rewrite pieces_nil|].
    destruct (c x) eqn:Hx.
    + destruct (span_class c s) as (u & v & -> & Hu & Hv).
      change (x :: u ++ v) with ((x :: u) ++ v) at 1.
      rewrite (@pieces_hit _ p (x :: u) v (MRes (x :: u) []));
        [|now apply plus_match_at|reflexivity|discriminate].
      cbn [length]. rewrite IH
        by (cbn [length] in Hn; rewrite length_app in Hn; lia).
      f_equal. clear - Hx Hu Hv. revert x Hx.
      induction u as [|y u IHu]; intros x Hx.
      * cbn [app]. now rewrite countRuns_cons, Hx, Hv.
      * cbn [forallb] in Hu. apply andb_prop in Hu. destruct Hu as [Hy Hu].
        cbn [app]. rewrite countRuns_cons, Hx. cbn [startsWith]. rewrite Hy.
        cbn [negb andb Nat.add]. apply (IHu Hu y Hy).
    + rewrite pieces_miss by (apply plus_match_none; cbn; exact Hx).
      rewrite countRuns_cons, Hx. cbn [andb Nat.add].
      rewrite <- (IH s (Some x)) by (cbn in Hn; lia).
      now destruct (pieces (plus c) (Some x) s).
Qed.

(** X23: The word count of the style heuristic is one more than the number
    of runs of white space: the empty sentence counts one word, and
    white space at an end of the sentence adds one. *)
Theorem wordCount_counts_runs_of_white_space (s : str) :
  wordCount s = S (countRuns is_space s).
Proof.
  unfold wordCount. rewrite split_pieces. unfold re_spaces.
  apply (@pieces_length is_space (length s) s None (le_n _)).
Qed.
(** ** The page: style anchors *)

Import ClearLine.

Lemma find_id_In (examples : list StyleExample) i e :
  find (fun e => str_eqb (id e) i) examples = Some e ->
  In e examples /\ id e = i.
Proof.
  intros H. apply find_some in H. destruct H as [Hin He].
  split; [exact Hin|]. now apply str_eqb_eq.
Qed.

Lemma toggle_other (i : str) : forall examples : list StyleExample,
  ~ In i (map id examples) ->
  map (fun e => if str_eqb (id e) i then flipActive e else e) examples
  = examples.
Proof.
  induction examples as [|e l IH]; intros H; [reflexivity|].
  cbn [map] in *. destruct (str_eqb (id e) i) eqn:E.
  - apply str_eqb_eq in E. exfalso. apply H. now left.
  - f_equal. apply IH. intros Hin. apply H. now right.
Qed.

Lemma toggle_ids (i : str) : forall examples : list StyleExample,
  map id (map (fun e => if str_eqb (id e) i then flipActive e else e)
              examples)
  = map id examples.
Proof.
  induction examples as [|e l IH]; [reflexivity|].
  cbn [map]. rewrite IH. f_equal. now destruct (str_eqb (id e) i).
Qed.

Lemma toggle_count (i : str) : forall (examples : list StyleExample) current,
  NoDup (map id examples) ->
  find (fun e => str_eqb (id e) i) examples = Some current ->
  length (filter isActive
            (map (fun e => if str_eqb (id e) i then flipActive e else e)
                 examples))
  + (if isActive current then 1 else 0)
  = length (filter isActive examples)
    + (if isActive current then 0 else 1).
Proof.
  induction examples as [|e l IH]; intros current Hnd Hf; [discriminate|].
  cbn [map] in Hnd. inversion Hnd as [|? ? Hnot Hnd']; subst.
  cbn [find] in Hf. cbn [map]. destruct (str_eqb (id e) i) eqn:E.
  - inversion Hf; subst e. apply str_eqb_eq in E. subst i.
    rewrite toggle_other by exact Hnot.
    cbn [filter flipActive isActive].
    destruct (isActive current); cbn [negb length]; lia.
  - cbn [filter]. specialize (IH current Hnd' Hf).
    destruct (isActive e); cbn [length]; lia.
Qed.

(** X24: [handleToggleActive] keeps the limit of three active style
    anchors.  On a list of examples with distinct ids of which at most
    three are active, the list it sets has the same ids in the same
    order and again at most three active; the example it saves is the
    one of the new list with the id asked for, with its flag flipped;
    every example with another id stays as it was. *)
Theorem handleToggleActive_keeps_limit (examples : list StyleExample)
        (i : str) (updatedExamples : list StyleExample)
        (updated : StyleExample) :
  NoDup (map id examples) ->
  length (filter isActive examples) <= 3 ->
  handleToggleActive examples i = Toggled updatedExamples updated ->
  length (filter isActive updatedExamples) <= 3
  /\ map id updatedExamples = map id examples
  /\ In updated updatedExamples /\ id updated = i
  /\ (exists current, In current examples /\ id current = i
                      /\ updated = flipActive current)
  /\ (forall e, In e examples -> id e <> i -> In e updatedExamples).
Proof.
  intros Hnd Hmax H. unfold handleToggleActive in H.
  destruct (find (fun e => str_eqb (id e) i) examples) as [current|] eqn:Hf;
    [|discriminate].
  pose proof (@toggle_count i examples current Hnd Hf) as Hc.
  destruct (negb (isActive current)
            && (3 <=? length (filter isActive examples))) eqn:Hr;
    [discriminate|].
  set (l' := map (fun e => if str_eqb (id e) i then flipActive e else e)
                 examples) in *.
  destruct (find (fun e => str_eqb (id e) i) l') as [u|] eqn:Hu;
    [|discriminate].
  inversion H; subst updatedExamples updated. clear H.
  destruct (find_id_In _ _ Hu) as [Hin Hid].
  split; [|split; [|split; [|split; [|split]]]].
  - destruct (isActive current); cbn [negb andb] in Hr.
    + lia.
    + apply Nat.leb_gt in Hr. lia.
  - apply toggle_ids.
  - exact Hin.
  - exact Hid.
  - unfold l' in Hin. apply in_map_iff in Hin.
    destruct Hin as (e & He & Hine).
    destruct (str_eqb (id e) i) eqn:E.
    + destruct (find_id_In _ _ Hf) as [Hcin Hcid].
      apply str_eqb_eq in E.
      assert (Heq : id e = id current) by congruence.
      assert (e = current).
      { clear - Hnd Hine Hcin Heq. revert Hnd Hine Hcin.
        induction examples as [|a l IH]; intros Hnd H1 H2; [contradiction|].
        cbn [map] in Hnd. inversion Hnd as [|? ? Hnot Hnd']; subst.
        destruct H1 as [-> | H1], H2 as [<- | H2]; auto.
        - exfalso. apply Hnot. rewrite Heq. now apply in_map.
        - exfalso. apply Hnot. rewrite <- Heq. now apply in_map. }
      subst e. exists current. now repeat split.
    + subst u. rewrite Hid in E. now rewrite str_eqb_refl in E.
  - intros e He Hne. unfold l'. apply in_map_iff. exists e.
    split; [|exact He]. destruct (str_eqb (id e) i) eqn:E; [|reflexivity].
    apply str_eqb_eq in E. contradiction.
Qed.

Lemma handleToggleActive_keeps_limit_witness :
  length (filter isActive [anchor (L "1") true; anchor (L "2") true]) <= 3
  /\ map id [anchor (L "1") true; anchor (L "2") true]
     = map id [anchor (L "1") true; anchor (L "2") false].
Proof.
  destruct (@handleToggleActive_keeps_limit
              [anchor (L "1") true; anchor (L "2") false] (L "2")
              [anchor (L "1") true; anchor (L "2") true]
              (anchor (L "2") true)) as (H1 & H2 & _).
  - cbn [map anchor id]. constructor.
    + intros [E | []]. discriminate.
    + constructor; [intros []|constructor].
  - cbn. lia.
  - reflexivity.
  - split; [exact H1|exact H2].
Defined.
(** ** The page: a new style example *)

Import ClearLine.

Lemma comma_miss q x s :
  x <> COMMA -> match_at (chr COMMA) q (x :: s) = None.
Proof.
  intros H. unfold chr. rewrite match_at_chr.
  destruct (Ascii.eqb COMMA x) eqn:E; [|reflexivity].
  apply Ascii.eqb_eq in E. congruence.
Qed.

Lemma comma_hit q s :
  pieces (chr COMMA) q (COMMA :: s) = [] :: pieces (chr COMMA) (Some COMMA) s.
Proof.
  change (COMMA :: s) with ([COMMA] ++ s).
  rewrite (@pieces_hit (chr COMMA) q [COMMA] s (MRes [COMMA] []));
    [reflexivity| |reflexivity|discriminate].
  unfold chr. cbn [app]. now rewrite match_at_chr.
Qed.

Lemma pieces_comma_free : forall s q,
  pieces (chr COMMA) q s <> []
  /\ Forall (fun p => ~ In COMMA p) (pieces (chr COMMA) q s).
Proof.
  induction s as [|x s IH]; intros q.
  - rewrite pieces_nil by reflexivity. split; [discriminate|].
    constructor; [|constructor]. intros [].
  - destruct (ascii_dec x COMMA) as [-> | Hx].
    + rewrite comma_hit. split; [discriminate|].
      constructor; [intros []|]. apply IH.
    + rewrite pieces_miss by now apply comma_miss.
      destruct (IH (Some x)) as [Hne Hall].
      destruct (pieces (chr COMMA) (Some x) s) as [|h tl]; [congruence|].
      split; [discriminate|]. inversion Hall; subst.
      constructor; [|assumption]. intros [E | Hin]; congruence.
Qed.

Lemma trim_keeps_out (c : ascii) s : ~ In c s -> ~ In c (trim s).
Proof.
  intros H Hin. destruct (trim_part s) as (a & b & E). apply H.
  rewrite E. apply in_or_app. right. apply in_or_app. now left.
Qed.

Lemma truthy_nonempty s : truthy s = true <-> s <> [].
Proof. destruct s; cbn; split; congruence. Qed.

(** X25: What [handleAddExample] saves: the id is the time stamp, the title
    and the text are not empty and carry no white space at their ends,
    the example is not active, and no tag is empty, begins or ends with
    white space or contains a comma. *)
Theorem handleAddExample_saves_clean_example
        (now newExampleTitle newExampleText newExampleTags : str)
        (ex : StyleExample) :
  handleAddExample now newExampleTitle newExampleText newExampleTags
  = Some ex ->
  id ex = now /\ isActive ex = false
  /\ title ex <> [] /\ trim (title ex) = title ex
  /\ text ex <> [] /\ trim (text ex) = text ex
  /\ Forall (fun t => t <> [] /\ trim t = t /\ ~ In COMMA t) (tags ex).
Proof.
  unfold handleAddExample. intros H.
  destruct (truthy (trim newExampleTitle)) eqn:Hti; [|discriminate].
  destruct (truthy (trim newExampleText)) eqn:Hte; [|discriminate].
  cbn [negb orb] in H. inversion H; subst ex; clear H.
  cbn [id isActive title text tags].
  repeat split; try (now apply truthy_nonempty); try apply trim_idem.
  apply Forall_forall. intros t Ht. apply filter_In in Ht.
  destruct Ht as [Hin Hne]. apply in_map_iff in Hin.
  destruct Hin as (p & <- & Hp).
  split; [now apply truthy_nonempty|]. split; [apply trim_idem|].
  apply trim_keeps_out. rewrite split_pieces in Hp.
  destruct (pieces_comma_free newExampleTags None) as [_ Hall].
  rewrite Forall_forall in Hall. now apply Hall.
Qed.

Lemma handleAddExample_saves_clean_example_witness :
  Forall (fun t => t <> [] /\ trim t = t /\ ~ In COMMA t)
         [L "audit"; L "short"].
Proof.
  apply (@handleAddExample_saves_clean_example
           (L "17") (L " House style ") (L "Keep it short.")
           (L "audit , ,short,")
           {| id := L "17"; title := L "House style";
              text := L "Keep it short."; tags := [L "audit"; L "short"];
              isActive := false |}).
  reflexivity.
Defined.

Lemma pieces_comma_joined : forall (ts : list str) q,
  Forall (fun t => ~ In COMMA t) ts ->
  pieces (chr COMMA) q (join [COMMA; SP] ts)
  = match ts with
    | [] => [[]]
    | t :: ts' => t :: map (cons SP) ts'
    end.
Proof.
  induction ts as [|t ts IH]; intros q H.
  - cbn [join]. now rewrite pieces_nil.
  - inversion H as [|? ? Ht Hts]; subst.
    assert (Hmiss : forall q' x s, In x t ->
                      match_at (chr COMMA) q' (x :: s) = None).
    { intros q' x s Hx. apply comma_miss. intros ->. contradiction. }
    destruct ts as [|t2 ts'].
    + cbn [join map]. rewrite <- (app_nil_r t) at 1.
      rewrite pieces_paragraph by exact Hmiss.
      rewrite pieces_nil by reflexivity. now rewrite app_nil_r.
    + change (join [COMMA; SP] (t :: t2 :: ts'))
        with (t ++ COMMA :: SP :: join [COMMA; SP] (t2 :: ts')).
      rewrite pieces_paragraph by exact Hmiss.
      rewrite comma_hit, pieces_miss by (apply comma_miss; discriminate).
      rewrite IH by exact Hts. now rewrite app_nil_r.
Qed.

(** X26: Tags typed with a comma and a space between them are read back as
    they are: for tags that are not empty, have no white space at their
    ends and contain no comma, [handleAddExample] saves exactly these
    tags, in their order. *)
Theorem handleAddExample_reads_tags
        (now newExampleTitle newExampleText : str) (ts : list str) :
  truthy (trim newExampleTitle) = true ->
  truthy (trim newExampleText) = true ->
  Forall (fun t => t <> [] /\ trim t = t /\ ~ In COMMA t) ts ->
  handleAddExample now newExampleTitle newExampleText (join [COMMA; SP] ts)
  = Some {| id := now;
            title := trim newExampleTitle;
            text := trim newExampleText;
            tags := ts;
            isActive := false |}.
Proof.
  intros Hti Hte Hts. unfold handleAddExample. rewrite Hti, Hte.
  cbn [negb orb]. do 2 f_equal.
  rewrite split_pieces, pieces_comma_joined
    by (eapply Forall_impl; [|exact Hts]; now intros t (_ & _ & H)).
  assert (Hfix : forall l : list str,
             Forall (fun t => t <> [] /\ trim t = t /\ ~ In COMMA t) l ->
             filter truthy (map trim l) = l).
  { induction l as [|t l IH]; intros H; [reflexivity|].
    inversion H as [|? ? (Hne & Htr & _) Hl]; subst. cbn [map filter].
    rewrite Htr. destruct t; [congruence|]. cbn [truthy]. f_equal.
    now apply IH. }
  destruct ts as [|t ts']; [reflexivity|].
  inversion Hts as [|? ? (Hne & Htr & _) Hts']; subst.
  cbn [map filter]. rewrite Htr. destruct t as [|x t]; [congruence|].
  cbn [truthy]. f_equal. rewrite map_map. exact (Hfix ts' Hts').
Qed.

Lemma handleAddExample_reads_tags_witness :
  handleAddExample (L "17") (L "House style") (L "Keep it short.")
                   (L "audit, short")
  = Some {| id := L "17"; title := L "House style";
            text := L "Keep it short."; tags := [L "audit"; L "short"];
            isActive := false |}.
Proof.
  apply (@handleAddExample_reads_tags (L "17") (L "House style")
           (L "Keep it short.") [L "audit"; L "short"]).
  - reflexivity.
  - reflexivity.
  - repeat constructor; try discriminate;
      intros H; cbn in H; repeat (destruct H as [H | H]; [discriminate|]);
      exact H.
Defined.
(** ** The page: the rewrite button *)

Import ClearLine.

Lemma blank_owner_unset (pg : Page) :
  forallb is_space (ownerText pg) = true -> owner (rewriteOptions pg) = None.
Proof.
  intros H. unfold rewriteOptions. cbn [owner].
  now rewrite (trim_blank _ H).
Qed.

(** X27: With the owner field left blank, or filled with white space only,
    the result [handleRewrite] shows holds no voice entry in its change
    log and no note on a withheld conversion among its suggestions,
    whatever the switches say. *)
Theorem handleRewrite_without_owner (pg : Page) (r : RewriteResult) :
  forallb is_space (ownerText pg) = true ->
  handleRewrite pg = Some r ->
  (forall c, In c (changeLog r) -> type c <> L "voice")
  /\ ~ In withheld (suggestions r).
Proof.
  intros Hown H. unfold handleRewrite in H.
  destruct (negb (truthy (trim (inputText pg)))); [discriminate|].
  inversion H; subst r; clear H.
  pose proof (blank_owner_unset pg Hown) as Ho.
  set (o := rewriteOptions pg) in *.
  split.
  - intros c Hc Hty. unfold rewrite in Hc.
    pose proof (rewriteBlocks_sound (inputText pg) o (styleExamples pg))
      as [Hl _].
    destruct (rewriteBlocks (inputText pg) o (styleExamples pg)) as [bs j].
    cbn [changeLog snd] in *. rewrite Forall_forall in Hl.
    destruct (Hl c Hc) as [(E & _) | [(E & _) | [(E & _)
                          | (_ & _ & _ & (own & Eo & _) & _)]]];
      try (rewrite Hty in E; discriminate).
    rewrite Ho in Eo. discriminate.
  - intros Hin. apply suggestion_advice in Hin.
    destruct Hin as [[E _] | [(found & _ & _ & E)
                    | [(_ & _ & _ & _ & own & Eo & _) | [E _]]]];
      try discriminate.
    rewrite Ho in Eo. discriminate.
Qed.

Lemma handleRewrite_without_owner_witness :
  ~ In withheld
      (suggestions (rewrite hedgedInput (rewriteOptions blankOwnerPage) [])).
Proof.
  apply (@handleRewrite_without_owner blankOwnerPage
           (rewrite hedgedInput (rewriteOptions blankOwnerPage) [])).
  - reflexivity.
  - vm_compute. reflexivity.
Defined.
(** ** Saved data: import and export *)

Import ClearLine Storage.

Lemma put_Forall (P : StyleExample -> Prop) ex : forall l,
  P ex -> Forall P l -> Forall P (put ex l).
Proof.
  induction l as [|e l IH]; intros Hex Hl; cbn [put].
  - now constructor.
  - inversion Hl; subst.
    destruct (str_eqb (id e) (id ex)); [now constructor|].
    destruct (str_ltb (id ex) (id e)); constructor; auto.
Qed.

Lemma trimmedStrings_clean nts : forall ts ss,
  trimmedStrings nts ts = Ok ss -> Forall (fun t => trim t = t) ss.
Proof.
  induction ts as [|t ts IH]; intros ss H; cbn [trimmedStrings] in H.
  - inversion H. constructor.
  - destruct (toString nts t) as [s|]; [|discriminate]. cbn [bindO] in H.
    destruct (trimmedStrings nts ts) as [ss'|]; [|discriminate].
    cbn [bindO] in H. inversion H; subst.
    constructor; [apply trim_idem|now apply IH].
Qed.

Lemma filter_truthy_clean (ss : list str) :
  Forall (fun t => trim t = t) ss -> Forall cleanTag (filter truthy ss).
Proof.
  intros H. apply Forall_forall. intros t Ht. apply filter_In in Ht.
  destruct Ht as [Hin Hne]. rewrite Forall_forall in H.
  split; [|now apply H]. destruct t; [discriminate|congruence].
Qed.

Lemma sanitiseExample_clean nts now raw ex :
  sanitiseExample nts now raw = Ok ex -> cleanExample ex.
Proof.
  unfold sanitiseExample. intros H.
  assert (H' :
    bindO (toString nts (orElse (get raw (L "id")) (JNum now))) (fun i =>
    bindO (toString nts (orElse (get raw (L "title")) (JStr []))) (fun ti =>
    bindO (toString nts (orElse (get raw (L "text")) (JStr []))) (fun te =>
    bindO (match get raw (L "tags") with
           | Some (JArr ts) =>
               bindO (trimmedStrings nts ts)
                     (fun ss => Ok (filter truthy ss))
           | _ => Ok []
           end) (fun tg =>
    Ok {| id := i; title := firstn 120 ti; text := te; tags := tg;
          isActive := toBoolean (get raw (L "isActive")) |}))))
    = Ok ex) by (destruct raw; (discriminate || exact H)).
  clear H.
  destruct (toString nts (orElse (get raw (L "id")) (JNum now))) as [i|];
    [|discriminate].
  destruct (toString nts (orElse (get raw (L "title")) (JStr []))) as [ti|];
    [|discriminate].
  destruct (toString nts (orElse (get raw (L "text")) (JStr []))) as [te|];
    [|discriminate].
  cbn [bindO] in H'.
  assert (Htags : forall tg,
            match get raw (L "tags") with
            | Some (JArr ts) =>
                bindO (trimmedStrings nts ts)
                      (fun ss => Ok (filter truthy ss))
            | _ => Ok []
            end = Ok tg -> Forall cleanTag tg).
  { intros tg E.
    destruct (get raw (L "tags")) as [[| | | |ts|]|];
      try (inversion E; constructor).
    destruct (trimmedStrings nts ts) as [ss|] eqn:Ets; [|discriminate].
    cbn [bindO] in E. inversion E; subst.
    apply filter_truthy_clean. now apply trimmedStrings_clean with nts ts. }
  destruct (match get raw (L "tags") with
            | Some (JArr ts) => _
            | _ => _
            end) as [tg|]; [|discriminate].
  cbn [bindO] in H'. injection H' as <-.
  split; [exact (firstn_le_length 120 ti)|exact (Htags _ eq_refl)].
Qed.

Lemma importExamples_clean nts clock : forall raws k db,
  Forall cleanExample (examplesStore db) ->
  Forall cleanExample
    (examplesStore (snd (importExamples nts clock k raws db))).
Proof.
  induction raws as [|raw raws IH]; intros k db H; cbn [importExamples].
  - exact H.
  - destruct (sanitiseExample nts (clock k) raw) as [ex|] eqn:E; [|exact H].
    apply IH. cbn [saveStyleExample examplesStore].
    apply put_Forall; [|exact H]. now apply sanitiseExample_clean in E.
Qed.

Lemma importExamples_settings nts clock : forall raws k db,
  settingsStore (snd (importExamples nts clock k raws db)) = settingsStore db.
Proof.
  induction raws as [|raw raws IH]; intros k db; cbn [importExamples].
  - reflexivity.
  - destruct (sanitiseExample nts (clock k) raw) as [ex|]; [|reflexivity].
    now rewrite IH.
Qed.

(** X28: [importAll] keeps the examples store clean, whatever the file holds
    and whether the import succeeds or throws: if every stored example
    has a title of at most 120 characters and tags that are not empty
    and have no white space at their ends, the same holds afterwards. *)
Theorem importAll_keeps_examples_clean (numberToString : float -> str)
        (clock : nat -> float) (data : json) (db : DB) :
  Forall cleanExample (examplesStore db) ->
  Forall cleanExample
    (examplesStore (snd (importAll numberToString clock data db))).
Proof.
  intros H. unfold importAll.
  assert (H1 : Forall cleanExample
                 (examplesStore
                    (snd (match get data (L "examples") with
                          | Some (JArr raws) =>
                              importExamples numberToString clock 0 raws db
                          | _ => (Ok tt, db)
                          end)))).
  { destruct (get data (L "examples")) as [[| | | |raws|]|]; try exact H.
    now apply importExamples_clean. }
  destruct (match get data (L "examples") with
            | Some (JArr raws) => _
            | _ => _
            end) as [r db1].
  cbn [snd] in H1.
  destruct data; try exact H;
    (destruct r; [|exact H1]);
    (destruct (toBoolean _); exact H1).
Qed.

Lemma importAll_keeps_examples_clean_witness :
  Forall cleanExample
    (examplesStore
       (snd (importAll zeroText noClock
               (JObj [(L "examples",
                       JArr [JObj [(L "title", JStr (L " T "));
                                   (L "tags", JArr [JStr (L " a ")])]])])
               emptyDB))).
Proof.
  apply importAll_keeps_examples_clean. constructor.
Defined.

Lemma importExamples_app nts clock : forall before k after db db1,
  importExamples nts clock k before db = (Ok tt, db1) ->
  importExamples nts clock k (before ++ after) db
  = importExamples nts clock (length before + k) after db1.
Proof.
  induction before as [|raw before IH]; intros k after db db1 H;
    cbn [importExamples app length] in *.
  - now inversion H.
  - destruct (sanitiseExample nts (clock k) raw) as [ex|]; [|discriminate].
    rewrite (IH _ after _ _ H). f_equal. lia.
Qed.

(** X29: An import that fails half way is not undone.  If the entries of
    [examples] before some entry can be imported and that entry makes
    the import throw, [importAll] throws and leaves the entries before
    it saved; the settings of the file are not read and the stored
    settings stay as they were. *)
Theorem importAll_keeps_what_it_saved_before_failing
        (numberToString : float -> str) (clock : nat -> float)
        (data : json) (before : list json) (bad : json) (after : list json)
        (db db1 : DB) :
  get data (L "examples") = Some (JArr (before ++ bad :: after)) ->
  importExamples numberToString clock 0 before db = (Ok tt, db1) ->
  sanitiseExample numberToString (clock (length before)) bad = Throws ->
  importAll numberToString clock data db = (Throws, db1)
  /\ settingsStore db1 = settingsStore db.
Proof.
  intros Hget Hbefore Hbad. split.
  - unfold importAll. rewrite Hget.
    rewrite (importExamples_app _ _ _ _ (bad :: after) _ Hbefore).
    cbn [importExamples]. rewrite Nat.add_0_r, Hbad.
    destruct data; try reflexivity. discriminate.
  - pose proof (importExamples_settings numberToString clock before 0 db) as E.
    now rewrite Hbefore in E.
Qed.

Lemma importAll_keeps_what_it_saved_before_failing_witness :
  importAll zeroText noClock
            (JObj [(L "examples",
                    JArr [exampleValue (anchor (L "1") true); JNull]);
                   (L "settings", settingsValue initialSettings)])
            emptyDB
  = (Throws, {| examplesStore := [anchor (L "1") true];
                settingsStore := None |})
  /\ settingsStore {| examplesStore := [anchor (L "1") true];
                      settingsStore := None |}
     = settingsStore emptyDB.
Proof.
  apply (@importAll_keeps_what_it_saved_before_failing zeroText noClock
           _ [exampleValue (anchor (L "1") true)] JNull []).
  - reflexivity.
  - vm_compute. reflexivity.
  - reflexivity.
Defined.
(** ** Saved data: what an export gives back *)

Import ClearLine Storage.

Lemma trimmedStrings_strings nts : forall ts : list str,
  trimmedStrings nts (map JStr ts) = Ok (map trim ts).
Proof.
  induction ts as [|t ts IH]; [reflexivity|].
  cbn [map trimmedStrings toString bindO]. now rewrite IH.
Qed.

Lemma sanitise_exported nts now e :
  sanitiseExample nts now (exampleValue e)
  = Ok {| id := id e;
          title := firstn 120 (title e);
          text := text e;
          tags := filter truthy (map trim (tags e));
          isActive := isActive e |}.
Proof.
  unfold sanitiseExample, exampleValue.
  change (get (JObj ?fs) ?k) with (field k fs).
  replace (field (L "id") _) with (Some (JStr (id e))) by reflexivity.
  replace (field (L "title") _) with (Some (JStr (title e))) by reflexivity.
  replace (field (L "text") _) with (Some (JStr (text e))) by reflexivity.
  replace (field (L "tags") _) with (Some (JArr (map JStr (tags e))))
    by reflexivity.
  replace (field (L "isActive") _) with (Some (JBool (isActive e)))
    by reflexivity.
  cbn [orElse toString bindO toBoolean].
  now rewrite trimmedStrings_strings.
Qed.

Lemma clean_tags_fixed (l : list str) :
  Forall cleanTag l -> filter truthy (map trim l) = l.
Proof.
  induction l as [|t l IH]; intros H; [reflexivity|].
  inversion H as [|? ? [Hne Htr] Hl]; subst. cbn [map filter].
  rewrite Htr. destruct t; [congruence|]. cbn [truthy]. f_equal.
  now apply IH.
Qed.

Lemma sanitise_clean_exported nts now e :
  cleanExample e -> sanitiseExample nts now (exampleValue e) = Ok e.
Proof.
  intros [Hti Htags]. rewrite sanitise_exported.
  rewrite firstn_all2 by exact Hti. rewrite clean_tags_fixed by exact Htags.
  now destruct e.
Qed.

Lemma str_ltb_irrefl : forall a, str_ltb a a = false.
Proof.
  induction a as [|x a IH]; [reflexivity|]. cbn [str_ltb].
  now rewrite Nat.ltb_irrefl, IH, Bool.andb_false_r.
Qed.

Lemma str_ltb_asym : forall a b, str_ltb a b = true -> str_ltb b a = false.
Proof.
  induction a as [|x a IH]; intros [|y b] H; try reflexivity;
    try discriminate.
  cbn [str_ltb] in *. apply Bool.orb_true_iff in H.
  destruct H as [H | H].
  - apply Nat.ltb_lt in H.
    replace (nat_of_ascii y <? nat_of_ascii x) with false
      by (symmetry; apply Nat.ltb_ge; lia).
    replace (Ascii.eqb y x) with false; [reflexivity|].
    symmetry. apply Ascii.eqb_neq. intros ->. lia.
  - apply Bool.andb_true_iff in H. destruct H as [E H].
    apply Ascii.eqb_eq in E. subst y.
    now rewrite Nat.ltb_irrefl, (IH _ H), Bool.andb_false_r.
Qed.

Lemma put_last ex : forall acc,
  forallb (fun e => str_ltb (id e) (id ex)) acc = true ->
  put ex acc = acc ++ [ex].
Proof.
  induction acc as [|a acc IH]; intros H; [reflexivity|].
  cbn [forallb] in H. apply Bool.andb_true_iff in H. destruct H as [Ha H].
  cbn [put app].
  destruct (str_eqb (id a) (id ex)) eqn:E.
  - apply str_eqb_eq in E. rewrite E, str_ltb_irrefl in Ha. discriminate.
  - rewrite (str_ltb_asym _ _ Ha). now rewrite IH.
Qed.

Lemma keyed_app : forall acc l,
  keyed (acc ++ l) = true ->
  keyed l = true
  /\ forall e, In e l -> forallb (fun a => str_ltb (id a) (id e)) acc = true.
Proof.
  induction acc as [|a acc IH]; intros l H.
  - split; [exact H|reflexivity].
  - cbn [app keyed] in H. apply Bool.andb_true_iff in H.
    destruct H as [Ha H]. destruct (IH _ H) as [Hl Hacc].
    split; [exact Hl|]. intros e He. cbn [forallb].
    rewrite (Hacc e He), Bool.andb_true_r.
    rewrite forallb_forall in Ha. apply Ha. apply in_or_app. now right.
Qed.

Lemma importExamples_exported nts clock : forall l k acc s,
  keyed (acc ++ l) = true -> Forall cleanExample l ->
  importExamples nts clock k (map exampleValue l)
                 {| examplesStore := acc; settingsStore := s |}
  = (Ok tt, {| examplesStore := acc ++ l; settingsStore := s |}).
Proof.
  induction l as [|e l IH]; intros k acc s Hk Hc.
  - cbn [map importExamples]. now rewrite app_nil_r.
  - inversion Hc as [|? ? He Hl]; subst.
    cbn [map importExamples]. rewrite sanitise_clean_exported by exact He.
    unfold saveStyleExample. cbn [examplesStore settingsStore].
    destruct (keyed_app acc (e :: l) Hk) as [_ Hacc].
    rewrite put_last by (apply Hacc; now left).
    replace (acc ++ e :: l) with ((acc ++ [e]) ++ l) in *
      by (now rewrite <- app_assoc).
    now apply IH.
Qed.

Lemma mergeSettings_exported a : mergeSettings (settingsValue a) = a.
Proof.
  destruct a as [th dt v sp au [t1 t2 t3 t4 t5]].
  unfold mergeSettings, settingsValue, togglesValue.
  cbn [theme defaultDocType as_englishVariant as_standardiseSpelling
       as_auditSafeMode defaultToggles tg_activeVoice tg_clearOwnership
       tg_sharperImpact tg_calmTone tg_concise].
  destruct th, dt, v; reflexivity.
Qed.

(** X30: Export and import restore the storage.  If the examples store
    holds clean examples (titles of at most 120 characters, tags not
    empty and without white space at their ends), then importing what
    [exportAll] wrote into cleared storage succeeds and gives back the
    examples and the settings exactly, also when no settings were
    saved. *)
Theorem import_after_export_restores_storage (numberToString : float -> str)
        (clock : nat -> float) (db other : DB) :
  keyed (examplesStore db) = true ->
  Forall cleanExample (examplesStore db) ->
  importAll numberToString clock (exportAll db) (clearAll other)
  = (Ok tt, db).
Proof.
  intros Hk Hc. destruct db as [l s]. cbn [examplesStore] in Hk, Hc.
  unfold importAll, exportAll, clearAll.
  cbn [examplesStore settingsStore].
  change (get (JObj ?fs) ?k) with (field k fs).
  replace (field (L "examples") _)
    with (Some (JArr (map exampleValue l))) by reflexivity.
  rewrite (@importExamples_exported numberToString clock l 0 [] None Hk Hc).
  cbn [app].
  destruct s as [a|].
  - replace (field (L "settings") _) with (Some (settingsValue a))
      by reflexivity.
    cbn [toBoolean settingsValue orElse]. fold (settingsValue a).
    unfold saveSettings. cbn [examplesStore settingsStore].
    now rewrite mergeSettings_exported.
  - reflexivity.
Qed.

Lemma import_after_export_restores_storage_witness :
  importAll zeroText noClock (exportAll sampleDB) (clearAll sampleDB)
  = (Ok tt, sampleDB).
Proof.
  apply import_after_export_restores_storage.
  - reflexivity.
  - repeat constructor; try discriminate; cbn; lia.
Defined.
